(** * An ordered set backed by a red-black tree with parent pointers

    Shallow embedding of [set.go]: nodes live in a store indexed by
    addresses, a pointer is an optional address ([None] is Go's [nil]),
    and every method is a state transformer over the store and the
    fields of the [Set] struct.  Dereferencing [nil] is the only way the
    Go code can panic; it is an explicit outcome of the model. *)

From stdpp Require Import gmap list sorting.
From Stdlib Require Import ZArith Lia Sorting.Sorted Permutation.

Local Open Scope Z_scope.

(** ** Outcomes and the state monad *)

Inductive Res (A : Type) : Type :=
| Ok (a : A)      (* the call returned *)
| Panic           (* nil pointer dereference *)
| Diverge.        (* a loop ran out of fuel: only on cyclic stores *)
Arguments Ok {A} a.
Arguments Panic {A}.
Arguments Diverge {A}.

(** type Color bool; Black = true, Red = false *)
Inductive Color : Type := Black | Red.

Definition color_eqb (c d : Color) : bool :=
  match c, d with
  | Black, Black | Red, Red => true
  | _, _ => false
  end.

Abbreviation addr := positive.
Abbreviation ptr := (option positive).

Definition ptr_eqb (p q : ptr) : bool := bool_decide (p = q).

(** Go's [int] on a 64-bit platform. *)
Definition wrap64 (z : Z) : Z := (z + 2 ^ 63) mod 2 ^ 64 - 2 ^ 63.

Section RBSet.

(** A key is an [interface{}] value: [None] is the nil interface, [Some v]
    a value of some dynamic type. *)
Context {V : Type}.
Abbreviation Key := (option V).

(** The comparator handed to [NewSet]; it is stored once and never
    reassigned. *)
Variable compare : Key -> Key -> Z.

Record Node : Type := mkNode {
  key : Key;
  color : Color;
  left : ptr;
  right : ptr;
  parent : ptr
}.

(** The [Set] struct (fields [root] and [size]) together with the store
    holding every allocated [Node]. *)
Record SetState : Type := mkSet {
  heap : gmap positive Node;
  root : ptr;
  size : Z
}.

(** The [Iterator] struct.  Its [set] field always points to the one set
    of the state and is left implicit. *)
Record Iterator : Type := mkIter {
  node : ptr;
  reverse : bool
}.

Definition M (A : Type) : Type := SetState -> Res (A * SetState).

Definition ret {A} (a : A) : M A := fun s => Ok (a, s).

Definition bind {A B} (m : M A) (f : A -> M B) : M B :=
  fun s => match m s with
           | Ok (a, s') => f a s'
           | Panic => Panic
           | Diverge => Diverge
           end.

Definition diverge {A} : M A := fun _ => Diverge.

Notation "'do' x <- m ; k" := (bind m (fun x => k))
  (at level 10, x name, m at level 100, k at level 200).
Notation "m ;; k" := (bind m (fun _ => k))
  (at level 100, k at level 200, right associativity).

(** *** Field access *)

Definition load (p : ptr) : M Node := fun s =>
  match p with
  | None => Panic
  | Some a => match heap s !! a with
              | Some n => Ok (n, s)
              | None => Panic
              end
  end.

Definition store (p : ptr) (n : Node) : M unit := fun s =>
  match p with
  | None => Panic
  | Some a => Ok (tt, mkSet (<[a := n]> (heap s)) (root s) (size s))
  end.

(** [&Node{...}] *)
Definition alloc (n : Node) : M ptr := fun s =>
  let a := fresh (dom (heap s)) in
  Ok (Some a, mkSet (<[a := n]> (heap s)) (root s) (size s)).

Definition get_key (p : ptr) : M Key := do n <- load p; ret (key n).
Definition get_color (p : ptr) : M Color := do n <- load p; ret (color n).
Definition get_left (p : ptr) : M ptr := do n <- load p; ret (left n).
Definition get_right (p : ptr) : M ptr := do n <- load p; ret (right n).
Definition get_parent (p : ptr) : M ptr := do n <- load p; ret (parent n).

Definition set_key (p : ptr) (k : Key) : M unit :=
  do n <- load p; store p (mkNode k (color n) (left n) (right n) (parent n)).
Definition set_color (p : ptr) (c : Color) : M unit :=
  do n <- load p; store p (mkNode (key n) c (left n) (right n) (parent n)).
Definition set_left (p : ptr) (v : ptr) : M unit :=
  do n <- load p; store p (mkNode (key n) (color n) v (right n) (parent n)).
Definition set_right (p : ptr) (v : ptr) : M unit :=
  do n <- load p; store p (mkNode (key n) (color n) (left n) v (parent n)).
Definition set_parent (p : ptr) (v : ptr) : M unit :=
  do n <- load p; store p (mkNode (key n) (color n) (left n) (right n) v).

Definition get_root : M ptr := fun s => Ok (root s, s).
Definition set_root (p : ptr) : M unit := fun s => Ok (tt, mkSet (heap s) p (size s)).
Definition get_size : M Z := fun s => Ok (size s, s).
Definition set_size (z : Z) : M unit := fun s => Ok (tt, mkSet (heap s) (root s) z).

(** Every loop of the source walks along a path of the tree or climbs
    one; the number of allocated nodes, plus one, bounds its iterations
    on any acyclic store. *)
Definition with_fuel {A} (f : nat -> M A) : M A :=
  fun s => f (S (base.size (heap s))) s.

(** ** The methods of [set.go] *)

Definition NewSet : SetState := mkSet ∅ None 0.

Definition Size : M Z := get_size.

Definition Clear : M unit := set_root None ;; set_size 0.

Definition IsEmpty : M bool := do sz <- get_size; ret (sz =? 0).

(** *** Rotations *)

Definition leftRotate (x : ptr) : M unit :=
  do y <- get_right x;
  do yl <- get_left y;
  set_right x yl ;;
  do yl <- get_left y;
  (if yl is Some _ then set_parent yl x else ret tt) ;;
  do xp <- get_parent x;
  set_parent y xp ;;
  do xp <- get_parent x;
  (if xp is None then set_root y
   else do xpl <- get_left xp;
        if ptr_eqb x xpl then set_left xp y else set_right xp y) ;;
  set_left y x ;;
  set_parent x y.

Definition rightRotate (x : ptr) : M unit :=
  do y <- get_left x;
  do yr <- get_right y;
  set_left x yr ;;
  do yr <- get_right y;
  (if yr is Some _ then set_parent yr x else ret tt) ;;
  do xp <- get_parent x;
  set_parent y xp ;;
  do xp <- get_parent x;
  (if xp is None then set_root y
   else do xpr <- get_right xp;
        if ptr_eqb x xpr then set_right xp y else set_left xp y) ;;
  set_right y x ;;
  set_parent x y.

(** *** insertFixup *)

(** [y != nil && y.color == Red] *)
Definition is_red (y : ptr) : M bool :=
  if y is None then ret false
  else do c <- get_color y; ret (color_eqb c Red).

Fixpoint insertFixup_loop (fuel : nat) (z : ptr) : M unit :=
  match fuel with
  | O => diverge
  | S fuel =>
    do zp <- get_parent z;
    do cont <- is_red zp;
    if cont then
      do zpp <- get_parent zp;
      do zppl <- get_left zpp;
      if ptr_eqb zp zppl then
        do y <- get_right zpp;
        do yred <- is_red y;
        if yred then
          set_color zp Black ;;
          set_color y Black ;;
          set_color zpp Red ;;
          insertFixup_loop fuel zpp
        else
          do zpr <- get_right zp;
          do z <- (if ptr_eqb z zpr then leftRotate zp ;; ret zp else ret z);
          do zp <- get_parent z;
          set_color zp Black ;;
          do zp <- get_parent z;
          do zpp <- get_parent zp;
          set_color zpp Red ;;
          do zp <- get_parent z;
          do zpp <- get_parent zp;
          rightRotate zpp ;;
          insertFixup_loop fuel z
      else
        do y <- get_left zpp;
        do yred <- is_red y;
        if yred then
          set_color zp Black ;;
          set_color y Black ;;
          set_color zpp Red ;;
          insertFixup_loop fuel zpp
        else
          do zpl <- get_left zp;
          do z <- (if ptr_eqb z zpl then rightRotate zp ;; ret zp else ret z);
          do zp <- get_parent z;
          set_color zp Black ;;
          do zp <- get_parent z;
          do zpp <- get_parent zp;
          set_color zpp Red ;;
          do zp <- get_parent z;
          do zpp <- get_parent zp;
          leftRotate zpp ;;
          insertFixup_loop fuel z
    else ret tt
  end.

Definition insertFixup (z : ptr) : M unit :=
  with_fuel (fun fuel => insertFixup_loop fuel z) ;;
  do r <- get_root;
  set_color r Black.

(** *** Insert *)

Definition incr_size : M unit := do sz <- get_size; set_size (wrap64 (sz + 1)).
Definition decr_size : M unit := do sz <- get_size; set_size (wrap64 (sz - 1)).

(** The descent of [Insert]: [None] when the key is already there,
    otherwise the last node visited. *)
Fixpoint Insert_loop (fuel : nat) (k : Key) (nd par : ptr) : M (option ptr) :=
  match fuel with
  | O => diverge
  | S fuel =>
    if nd is None then ret (Some par)
    else
      do nk <- get_key nd;
      let cmp := compare k nk in
      if cmp =? 0 then ret None
      else if cmp <? 0 then do l <- get_left nd; Insert_loop fuel k l nd
      else do r <- get_right nd; Insert_loop fuel k r nd
  end.

Definition Insert (k : Key) : M bool :=
  do r <- get_root;
  if r is None then
    do n <- alloc (mkNode k Black None None None);
    set_root n ;;
    incr_size ;;
    ret true
  else
    do res <- with_fuel (fun fuel => Insert_loop fuel k r None);
    match res with
    | None => ret false
    | Some par =>
      do newNode <- alloc (mkNode k Red None None par);
      do pk <- get_key par;
      (if compare k pk <? 0 then set_left par newNode
       else set_right par newNode) ;;
      incr_size ;;
      insertFixup newNode ;;
      ret true
    end.

(** *** Contains *)

Fixpoint Contains_loop (fuel : nat) (k : Key) (nd : ptr) : M bool :=
  match fuel with
  | O => diverge
  | S fuel =>
    if nd is None then ret false
    else
      do nk <- get_key nd;
      let cmp := compare k nk in
      if cmp =? 0 then ret true
      else if cmp <? 0 then do l <- get_left nd; Contains_loop fuel k l
      else do r <- get_right nd; Contains_loop fuel k r
  end.

Definition Contains (k : Key) : M bool :=
  do r <- get_root;
  with_fuel (fun fuel => Contains_loop fuel k r).

(** *** Traversal primitives *)

Fixpoint minimum_loop (fuel : nat) (x : ptr) : M ptr :=
  match fuel with
  | O => diverge
  | S fuel =>
    do l <- get_left x;
    if l is None then ret x else minimum_loop fuel l
  end.

Definition minimum (x : ptr) : M ptr :=
  with_fuel (fun fuel => minimum_loop fuel x).

Fixpoint maximum_loop (fuel : nat) (x : ptr) : M ptr :=
  match fuel with
  | O => diverge
  | S fuel =>
    do r <- get_right x;
    if r is None then ret x else maximum_loop fuel r
  end.

Definition maximum (x : ptr) : M ptr :=
  with_fuel (fun fuel => maximum_loop fuel x).

Fixpoint successor_loop (fuel : nat) (x y : ptr) : M ptr :=
  match fuel with
  | O => diverge
  | S fuel =>
    if y is None then ret y
    else
      do yr <- get_right y;
      if ptr_eqb x yr then do yp <- get_parent y; successor_loop fuel y yp
      else ret y
  end.

Definition successor (x : ptr) : M ptr :=
  do r <- get_right x;
  if r is Some _ then minimum r
  else
    do y <- get_parent x;
    with_fuel (fun fuel => successor_loop fuel x y).

Fixpoint predecessor_loop (fuel : nat) (x y : ptr) : M ptr :=
  match fuel with
  | O => diverge
  | S fuel =>
    if y is None then ret y
    else
      do yl <- get_left y;
      if ptr_eqb x yl then do yp <- get_parent y; predecessor_loop fuel y yp
      else ret y
  end.

Definition predecessor (x : ptr) : M ptr :=
  do l <- get_left x;
  if l is Some _ then maximum l
  else
    do y <- get_parent x;
    with_fuel (fun fuel => predecessor_loop fuel x y).

(** *** deleteFixup *)

(** [p == nil || p.color == Black] *)
Definition nil_or_black (p : ptr) : M bool :=
  if p is None then ret true
  else do c <- get_color p; ret (color_eqb c Black).

(** The loop test, [x != s.root && (x == nil || x.color == Black)]. *)
Definition deleteFixup_cond (x : ptr) : M bool :=
  do r <- get_root;
  if ptr_eqb x r then ret false else nil_or_black x.

(** The sibling [w] an iteration starts from: [parent.right] when [x] is
    the left child, [parent.left] otherwise. *)
Definition deleteFixup_sibling (x par : ptr) : M ptr :=
  do pl <- get_left par;
  if ptr_eqb x pl then get_right par else get_left par.

(** One iteration of the loop; it returns the new values of the
    variables [x] and [parent]. *)
Definition deleteFixup_body (x par : ptr) : M (ptr * ptr) :=
  do pl <- get_left par;
  if ptr_eqb x pl then
    do w <- get_right par;
    do wc <- get_color w;
    do w <- (if color_eqb wc Red then
               set_color w Black ;;
               set_color par Red ;;
               leftRotate par ;;
               get_right par
             else ret w);
    do wl <- get_left w;
    do wlb <- nil_or_black wl;
    do both <- (if wlb then do wr <- get_right w; nil_or_black wr
                else ret false);
    if both then
      set_color w Red ;;
      do pp <- get_parent par;
      ret (par, pp)
    else
      do wr <- get_right w;
      do wrb <- nil_or_black wr;
      do w <- (if wrb then
                 do wl <- get_left w;
                 (if wl is Some _ then set_color wl Black else ret tt) ;;
                 set_color w Red ;;
                 rightRotate w ;;
                 get_right par
               else ret w);
      do pc <- get_color par;
      set_color w pc ;;
      set_color par Black ;;
      do wr <- get_right w;
      (if wr is Some _ then set_color wr Black else ret tt) ;;
      leftRotate par ;;
      do r <- get_root;
      ret (r, par)
  else
    do w <- get_left par;
    do wc <- get_color w;
    do w <- (if color_eqb wc Red then
               set_color w Black ;;
               set_color par Red ;;
               rightRotate par ;;
               get_left par
             else ret w);
    do wr <- get_right w;
    do wrb <- nil_or_black wr;
    do both <- (if wrb then do wl <- get_left w; nil_or_black wl
                else ret false);
    if both then
      set_color w Red ;;
      do pp <- get_parent par;
      ret (par, pp)
    else
      do wl <- get_left w;
      do wlb <- nil_or_black wl;
      do w <- (if wlb then
                 do wr <- get_right w;
                 (if wr is Some _ then set_color wr Black else ret tt) ;;
                 set_color w Red ;;
                 leftRotate w ;;
                 get_left par
               else ret w);
      do pc <- get_color par;
      set_color w pc ;;
      set_color par Black ;;
      do wl <- get_left w;
      (if wl is Some _ then set_color wl Black else ret tt) ;;
      rightRotate par ;;
      do r <- get_root;
      ret (r, par).

Fixpoint deleteFixup_loop (fuel : nat) (x par : ptr) : M ptr :=
  match fuel with
  | O => diverge
  | S fuel =>
    do cont <- deleteFixup_cond x;
    if cont then
      do xp <- deleteFixup_body x par;
      deleteFixup_loop fuel (fst xp) (snd xp)
    else ret x
  end.

Definition deleteFixup (x par : ptr) : M unit :=
  do x <- with_fuel (fun fuel => deleteFixup_loop fuel x par);
  if x is Some _ then set_color x Black else ret tt.

(** *** delete and Remove *)

Definition delete (z : ptr) : M unit :=
  do zl <- get_left z;
  do y <- (if zl is None then ret z
           else do zr <- get_right z;
                if zr is None then ret z else successor z);
  do yl <- get_left y;
  do x <- (if yl is Some _ then ret yl else get_right y);
  (if x is Some _ then do yp <- get_parent y; set_parent x yp else ret tt) ;;
  do yp <- get_parent y;
  (if yp is None then set_root x
   else do ypl <- get_left yp;
        if ptr_eqb y ypl then set_left yp x else set_right yp x) ;;
  (if negb (ptr_eqb y z) then do yk <- get_key y; set_key z yk else ret tt) ;;
  do yc <- get_color y;
  if color_eqb yc Black then
    do yp <- get_parent y;
    deleteFixup x yp
  else ret tt.

Fixpoint Remove_loop (fuel : nat) (k : Key) (nd : ptr) : M bool :=
  match fuel with
  | O => diverge
  | S fuel =>
    if nd is None then ret false
    else
      do nk <- get_key nd;
      let cmp := compare k nk in
      if cmp =? 0 then
        delete nd ;;
        decr_size ;;
        ret true
      else if cmp <? 0 then do l <- get_left nd; Remove_loop fuel k l
      else do r <- get_right nd; Remove_loop fuel k r
  end.

Definition Remove (k : Key) : M bool :=
  do r <- get_root;
  with_fuel (fun fuel => Remove_loop fuel k r).

(** *** Iterators *)

Definition Begin : M Iterator :=
  do r <- get_root;
  if r is None then ret (mkIter None false)
  else do m <- minimum r; ret (mkIter m false).

Definition End : M Iterator := ret (mkIter None false).

Definition RBegin : M Iterator :=
  do r <- get_root;
  if r is None then ret (mkIter None true)
  else do m <- maximum r; ret (mkIter m true).

Definition REnd : M Iterator := ret (mkIter None true).

(** [Value] returns an [interface{}]: the nil interface at a sentinel,
    the stored key otherwise. *)
Definition Value (it : Iterator) : M Key :=
  if node it is None then ret None
  else get_key (node it).

Definition Valid (it : Iterator) : M bool :=
  ret (if node it is None then false else true).

Definition is_some (p : ptr) : bool := if p is None then false else true.

Definition Next (it : Iterator) : M (bool * Iterator) :=
  if node it is None then ret (false, it)
  else
    do n <- (if reverse it then predecessor (node it) else successor (node it));
    ret (is_some n, mkIter n (reverse it)).

Definition Prev (it : Iterator) : M (bool * Iterator) :=
  if node it is None then
    do r <- get_root;
    do n <- (if reverse it then minimum r else maximum r);
    ret (is_some n, mkIter n (reverse it))
  else
    do n <- (if reverse it then successor (node it) else predecessor (node it));
    ret (is_some n, mkIter n (reverse it)).

(** ** The tree a store represents

    The abstract view of a store: a binary tree whose nodes carry their
    address, colour and key.  [wf h par t] says that the cells of [h] at
    the addresses of [t] hold exactly the fields [t] prescribes, parent
    pointers included. *)

Inductive tree : Type :=
| E
| T (a : addr) (c : Color) (l : tree) (k : Key) (r : tree).

Definition ptr_of (t : tree) : ptr :=
  match t with E => None | T a _ _ _ _ => Some a end.

Fixpoint addrs (t : tree) : list addr :=
  match t with
  | E => []
  | T a _ l _ r => a :: addrs l ++ addrs r
  end.

Fixpoint inorder (t : tree) : list Key :=
  match t with
  | E => []
  | T _ _ l k r => inorder l ++ k :: inorder r
  end.

Fixpoint wf (h : gmap positive Node) (par : ptr) (t : tree) : Prop :=
  match t with
  | E => True
  | T a c l k r =>
    h !! a = Some (mkNode k c (ptr_of l) (ptr_of r) par)
    /\ wf h (Some a) l /\ wf h (Some a) r
  end.

Definition Repr (s : SetState) (t : tree) : Prop :=
  root s = ptr_of t /\ wf (heap s) None t /\ NoDup (addrs t).

(** *** One-hole contexts *)

Inductive frame : Type :=
| FL (a : addr) (c : Color) (k : Key) (r : tree)   (* the hole is the left child *)
| FR (a : addr) (c : Color) (l : tree) (k : Key).  (* the hole is the right child *)

Definition fill (f : frame) (t : tree) : tree :=
  match f with
  | FL a c k r => T a c t k r
  | FR a c l k => T a c l k t
  end.

Fixpoint plug (ctx : list frame) (t : tree) : tree :=
  match ctx with
  | [] => t
  | f :: ctx => plug ctx (fill f t)
  end.

Definition faddr (f : frame) : addr :=
  match f with FL a _ _ _ | FR a _ _ _ => a end.

Definition fcol (f : frame) : Color :=
  match f with FL _ c _ _ | FR _ c _ _ => c end.

Definition fsib (f : frame) : tree :=
  match f with FL _ _ _ t | FR _ _ t _ => t end.

Definition caddr (ctx : list frame) : ptr :=
  match ctx with [] => None | f :: _ => Some (faddr f) end.

Fixpoint croot (ctx : list frame) (p : ptr) : ptr :=
  match ctx with
  | [] => p
  | f :: ctx => croot ctx (Some (faddr f))
  end.

Fixpoint caddrs (ctx : list frame) : list addr :=
  match ctx with
  | [] => []
  | f :: ctx => faddr f :: addrs (fsib f) ++ caddrs ctx
  end.

Definition fnode (f : frame) (hole par : ptr) : Node :=
  match f with
  | FL _ c k r => mkNode k c hole (ptr_of r) par
  | FR _ c l k => mkNode k c (ptr_of l) hole par
  end.

Fixpoint wfc (h : gmap positive Node) (ctx : list frame) (hole : ptr) : Prop :=
  match ctx with
  | [] => True
  | f :: ctx =>
    h !! faddr f = Some (fnode f hole (caddr ctx))
    /\ wf h (Some (faddr f)) (fsib f)
    /\ wfc h ctx (Some (faddr f))
  end.

Definition ZRepr (s : SetState) (ctx : list frame) (t : tree) : Prop :=
  root s = croot ctx (ptr_of t)
  /\ wfc (heap s) ctx (ptr_of t)
  /\ wf (heap s) (caddr ctx) t
  /\ NoDup (addrs t ++ caddrs ctx).

Lemma ptr_of_plug ctx t : ptr_of (plug ctx t) = croot ctx (ptr_of t).
Proof.
  revert t. induction ctx as [|f ctx IH]; intros t; simpl; [done|].
  rewrite IH. by destruct f.
Qed.

Lemma wf_plug h ctx t :
  wf h None (plug ctx t) <-> wfc h ctx (ptr_of t) /\ wf h (caddr ctx) t.
Proof.
  revert t. induction ctx as [|f ctx IH]; intros t; simpl.
  - tauto.
  - rewrite IH. destruct f; simpl; tauto.
Qed.

Lemma addrs_plug ctx t : addrs (plug ctx t) ≡ₚ addrs t ++ caddrs ctx.
Proof.
  revert t. induction ctx as [|f ctx IH]; intros t; simpl.
  - by rewrite app_nil_r.
  - rewrite IH. destruct f; simpl.
    + rewrite <- !app_assoc. apply Permutation_middle.
    + rewrite Permutation_middle. rewrite <- !app_assoc.
      rewrite (app_assoc (addrs l)). rewrite (Permutation_app_comm (addrs l)).
      rewrite <- !app_assoc. rewrite <- Permutation_middle. done.
Qed.

Lemma Repr_plug s ctx t : Repr s (plug ctx t) <-> ZRepr s ctx t.
Proof.
  unfold Repr, ZRepr. rewrite ptr_of_plug, wf_plug, addrs_plug. tauto.
Qed.

(** ** Running a method

    [run m s P]: started in [s], the call [m] returns (no panic, enough
    fuel) with a result and a final state satisfying [P]. *)

Definition run {A} (m : M A) (s : SetState) (P : A -> SetState -> Prop) : Prop :=
  match m s with
  | Ok (a, s') => P a s'
  | _ => False
  end.

Lemma run_ret {A} (a : A) s P : P a s -> run (ret a) s P.
Proof. done. Qed.

Lemma run_bind {A B} (m : M A) (f : A -> M B) s P :
  run m s (fun a s' => run (f a) s' P) -> run (bind m f) s P.
Proof. unfold run, bind. by destruct (m s) as [[a s']| |]. Qed.

Lemma run_bind_inv {A B} (m : M A) (f : A -> M B) s P :
  run (bind m f) s P -> run m s (fun a s' => run (f a) s' P).
Proof. unfold run, bind. by destruct (m s) as [[a s']| |]. Qed.

Lemma run_mono {A} (m : M A) s (P Q : A -> SetState -> Prop) :
  run m s P -> (forall a s', P a s' -> Q a s') -> run m s Q.
Proof. unfold run. destruct (m s) as [[a s']| |]; auto. Qed.

Lemma run_Ok {A} (m : M A) s P :
  run m s P <-> exists a s', m s = Ok (a, s') /\ P a s'.
Proof.
  unfold run. split.
  - destruct (m s) as [[a s']| |]; [eauto|done..].
  - intros (a & s' & -> & HP). done.
Qed.

Lemma run_with_fuel {A} (f : nat -> M A) s P :
  run (f (S (base.size (heap s)))) s P -> run (with_fuel f) s P.
Proof. done. Qed.

Lemma run_load a n s P :
  heap s !! a = Some n -> P n s -> run (load (Some a)) s P.
Proof. unfold run, load. by intros ->. Qed.

Lemma run_get_key a n s P :
  heap s !! a = Some n -> P (key n) s -> run (get_key (Some a)) s P.
Proof. unfold run, get_key, bind, load. by intros ->. Qed.

Lemma run_get_color a n s P :
  heap s !! a = Some n -> P (color n) s -> run (get_color (Some a)) s P.
Proof. unfold run, get_color, bind, load. by intros ->. Qed.

Lemma run_get_left a n s P :
  heap s !! a = Some n -> P (left n) s -> run (get_left (Some a)) s P.
Proof. unfold run, get_left, bind, load. by intros ->. Qed.

Lemma run_get_right a n s P :
  heap s !! a = Some n -> P (right n) s -> run (get_right (Some a)) s P.
Proof. unfold run, get_right, bind, load. by intros ->. Qed.

Lemma run_get_parent a n s P :
  heap s !! a = Some n -> P (parent n) s -> run (get_parent (Some a)) s P.
Proof. unfold run, get_parent, bind, load. by intros ->. Qed.

Definition upd (s : SetState) (a : addr) (n : Node) : SetState :=
  mkSet (<[a := n]> (heap s)) (root s) (size s).

Lemma run_set_key a n k s P :
  heap s !! a = Some n ->
  P tt (upd s a (mkNode k (color n) (left n) (right n) (parent n))) ->
  run (set_key (Some a) k) s P.
Proof. unfold run, set_key, bind, load. by intros ->. Qed.

Lemma run_set_color a n c s P :
  heap s !! a = Some n ->
  P tt (upd s a (mkNode (key n) c (left n) (right n) (parent n))) ->
  run (set_color (Some a) c) s P.
Proof. unfold run, set_color, bind, load. by intros ->. Qed.

Lemma run_set_left a n v s P :
  heap s !! a = Some n ->
  P tt (upd s a (mkNode (key n) (color n) v (right n) (parent n))) ->
  run (set_left (Some a) v) s P.
Proof. unfold run, set_left, bind, load. by intros ->. Qed.

Lemma run_set_right a n v s P :
  heap s !! a = Some n ->
  P tt (upd s a (mkNode (key n) (color n) (left n) v (parent n))) ->
  run (set_right (Some a) v) s P.
Proof. unfold run, set_right, bind, load. by intros ->. Qed.

Lemma run_set_parent a n v s P :
  heap s !! a = Some n ->
  P tt (upd s a (mkNode (key n) (color n) (left n) (right n) v)) ->
  run (set_parent (Some a) v) s P.
Proof. unfold run, set_parent, bind, load. by intros ->. Qed.

Lemma run_get_root s P : P (root s) s -> run get_root s P.
Proof. done. Qed.

Lemma run_set_root p s P :
  P tt (mkSet (heap s) p (size s)) -> run (set_root p) s P.
Proof. done. Qed.

(** ** Framing: writes outside a tree leave it well formed *)

Lemma wf_insert_ne h par t a n :
  a ∉ addrs t -> wf h par t -> wf (<[a := n]> h) par t.
Proof.
  revert par. induction t as [|b c l IHl k r IHr]; intros par Hn; simpl; [done|].
  simpl in Hn. rewrite not_elem_of_cons, not_elem_of_app in Hn.
  destruct Hn as (Hab & Hl & Hr). intros (H1 & H2 & H3).
  rewrite lookup_insert_ne by done. auto.
Qed.

Lemma wfc_insert_ne h ctx p a n :
  a ∉ caddrs ctx -> wfc h ctx p -> wfc (<[a := n]> h) ctx p.
Proof.
  revert p. induction ctx as [|f ctx IH]; intros p Hn; simpl; [done|].
  simpl in Hn. rewrite not_elem_of_cons, not_elem_of_app in Hn.
  destruct Hn as (Hab & Hl & Hr). intros (H1 & H2 & H3).
  rewrite lookup_insert_ne by done. auto using wf_insert_ne.
Qed.

Lemma wf_lookup h par t a :
  wf h par t -> a ∈ addrs t -> is_Some (h !! a).
Proof.
  revert par. induction t as [|b c l IHl k r IHr]; intros par; simpl.
  - intros _ Hin. by apply elem_of_nil in Hin.
  - intros (H1 & H2 & H3). rewrite elem_of_cons, elem_of_app.
    intros [->|[Hin|Hin]]; eauto.
Qed.

Lemma wfc_lookup h ctx p a :
  wfc h ctx p -> a ∈ caddrs ctx -> is_Some (h !! a).
Proof.
  revert p. induction ctx as [|f ctx IH]; intros p; simpl.
  - intros _ Hin. by apply elem_of_nil in Hin.
  - intros (H1 & H2 & H3). rewrite elem_of_cons, elem_of_app.
    intros [->|[Hin|Hin]]; eauto using wf_lookup.
Qed.

(** Changing the parent field of the root of a subtree. *)
Lemma wf_reparent h par par' t :
  NoDup (addrs t) ->
  wf h par t ->
  match t with
  | E => True
  | T a c l k r =>
    wf (<[a := mkNode k c (ptr_of l) (ptr_of r) par']> h) par' t
  end.
Proof.
  destruct t as [|a c l k r]; [done|]. simpl.
  rewrite NoDup_cons, not_elem_of_app. intros ((Hl & Hr) & _) (H1 & H2 & H3).
  rewrite lookup_insert_eq. auto using wf_insert_ne.
Qed.

(** ** Writes inside the tree *)

Lemma ZRepr_lookup s ctx a c l k r :
  ZRepr s ctx (T a c l k r) ->
  heap s !! a = Some (mkNode k c (ptr_of l) (ptr_of r) (caddr ctx)).
Proof. intros (_ & _ & (H & _) & _). exact H. Qed.

Lemma Repr_lookup s ctx a c l k r :
  Repr s (plug ctx (T a c l k r)) ->
  heap s !! a = Some (mkNode k c (ptr_of l) (ptr_of r) (caddr ctx)).
Proof. rewrite Repr_plug. apply ZRepr_lookup. Qed.

(** Overwriting the colour and the key of the node in focus. *)
Lemma ZRepr_set_focus s ctx a c l k r c' k' :
  ZRepr s ctx (T a c l k r) ->
  ZRepr (upd s a (mkNode k' c' (ptr_of l) (ptr_of r) (caddr ctx))) ctx (T a c' l k' r).
Proof.
  intros (Hroot & Hc & (Ha & Hl & Hr) & Hnd). simpl in *.
  rewrite NoDup_cons in Hnd. destruct Hnd as (Hnd1 & Hnd2).
  rewrite !not_elem_of_app in Hnd1. destruct_and!.
  repeat split; simpl; auto using wfc_insert_ne, wf_insert_ne.
  - by rewrite lookup_insert_eq.
  - rewrite NoDup_cons, !not_elem_of_app. auto.
Qed.
(** Disjointness of address lists, in a form that decomposes on both
    sides. *)
Definition disj (l k : list addr) : Prop := forall x, x ∈ l -> x ∉ k.

Lemma disj_nil_l k : disj [] k <-> True.
Proof. split; [done|]. intros _ x Hx. by apply elem_of_nil in Hx. Qed.
Lemma disj_nil_r l : disj l [] <-> True.
Proof. split; [done|]. intros _ x _. apply not_elem_of_nil. Qed.
Lemma disj_cons_l a l k : disj (a :: l) k <-> (a ∉ k) /\ disj l k.
Proof.
  split.
  - intros H. split; [apply H; left|intros x Hx; apply H; by right].
  - intros [H1 H2] x Hx. apply elem_of_cons in Hx as [->|Hx]; auto.
Qed.
Lemma disj_cons_r a l k : disj l (a :: k) <-> (a ∉ l) /\ disj l k.
Proof.
  split.
  - intros H. split.
    + intros Hin. apply (H a Hin). left.
    + intros x Hx Hk. apply (H x Hx). by right.
  - intros [H1 H2] x Hx Hin. apply elem_of_cons in Hin as [->|Hin]; [done|].
    by apply (H2 x).
Qed.
Lemma disj_app_l l1 l2 k : disj (l1 ++ l2) k <-> disj l1 k /\ disj l2 k.
Proof.
  split.
  - intros H. split; intros x Hx; apply H; apply elem_of_app; auto.
  - intros [H1 H2] x Hx. apply elem_of_app in Hx as [Hx|Hx]; auto.
Qed.
Lemma disj_app_r l k1 k2 : disj l (k1 ++ k2) <-> disj l k1 /\ disj l k2.
Proof.
  split.
  - intros H. split; intros x Hx Hk; apply (H x Hx); apply elem_of_app; auto.
  - intros [H1 H2] x Hx Hin. apply elem_of_app in Hin as [Hin|Hin].
    + by apply (H1 x).
    + by apply (H2 x).
Qed.
Lemma NoDup_app_disj (l k : list addr) :
  NoDup (l ++ k) <-> NoDup l /\ disj l k /\ NoDup k.
Proof. apply NoDup_app. Qed.
Lemma not_elem_of_nil_iff (a : addr) : a ∉ @nil addr <-> True.
Proof. split; [done|]. intros _. apply not_elem_of_nil. Qed.

Ltac nd_all :=
  repeat match goal with
  | H : True |- _ => clear H
  | H : NoDup [] |- _ => clear H
  | H : NoDup (_ :: _) |- _ => rewrite NoDup_cons in H; destruct H
  | H : NoDup (_ ++ _) |- _ => rewrite NoDup_app_disj in H; destruct H as (? & ? & ?)
  | H : _ ∉ [] |- _ => clear H
  | H : _ ∉ _ :: _ |- _ => rewrite not_elem_of_cons in H; destruct H
  | H : _ ∉ _ ++ _ |- _ => rewrite not_elem_of_app in H; destruct H
  | H : disj [] _ |- _ => clear H
  | H : disj _ [] |- _ => clear H
  | H : disj (_ :: _) _ |- _ => rewrite disj_cons_l in H; destruct H
  | H : disj _ (_ :: _) |- _ => rewrite disj_cons_r in H; destruct H
  | H : disj (_ ++ _) _ |- _ => rewrite disj_app_l in H; destruct H
  | H : disj _ (_ ++ _) |- _ => rewrite disj_app_r in H; destruct H
  end.

Ltac red_st := cbn [heap root size key color left right parent upd ptr_of caddr faddr fnode].

Ltac addr_solver :=
  repeat first
  [ assumption
  | apply not_eq_sym; assumption
  | apply not_elem_of_nil
  | rewrite not_elem_of_cons; split
  | rewrite not_elem_of_app; split ].

Ltac lk :=
  red_st;
  repeat first [ rewrite lookup_insert_eq | rewrite lookup_insert_ne by addr_solver ];
  first [ eassumption | reflexivity ].

Ltac step :=
  lazymatch goal with
  | |- run (bind _ _) _ _ => apply run_bind
  | |- run (get_left _) _ _ => eapply run_get_left; [lk|]
  | |- run (get_right _) _ _ => eapply run_get_right; [lk|]
  | |- run (get_parent _) _ _ => eapply run_get_parent; [lk|]
  | |- run (get_color _) _ _ => eapply run_get_color; [lk|]
  | |- run (get_key _) _ _ => eapply run_get_key; [lk|]
  | |- run (set_left _ _) _ _ => eapply run_set_left; [lk|]
  | |- run (set_right _ _) _ _ => eapply run_set_right; [lk|]
  | |- run (set_parent _ _) _ _ => eapply run_set_parent; [lk|]
  | |- run (set_color _ _) _ _ => eapply run_set_color; [lk|]
  | |- run (set_key _ _) _ _ => eapply run_set_key; [lk|]
  | |- run get_root _ _ => apply run_get_root
  | |- run (set_root _) _ _ => apply run_set_root
  | |- run (ret _) _ _ => apply run_ret
  end; red_st.

Lemma ptr_of_not_in x t : x ∉ addrs t -> Some x <> ptr_of t.
Proof.
  destruct t; simpl; [done|]. rewrite not_elem_of_cons.
  intros [Hne _] [= ->]. done.
Qed.

Ltac ptr_cases :=
  unfold ptr_eqb;
  repeat (case_bool_decide; simplify_eq/=);
  try done;
  try (exfalso;
       lazymatch goal with
       | H : Some _ = ptr_of _ |- _ => revert H; by apply ptr_of_not_in
       | H : ptr_of _ = Some _ |- _ => symmetry in H; revert H; by apply ptr_of_not_in
       end).

Ltac frame_tac :=
  red_st;
  lazymatch goal with
  | |- True => exact I
  | |- _ !! _ = _ => lk
  | |- wf _ _ _ => repeat (apply wf_insert_ne; [addr_solver|]); assumption
  | |- wfc _ _ _ => repeat (apply wfc_insert_ne; [addr_solver|]); assumption
  | |- _ = _ => reflexivity
  end.

Definition hold (P : Prop) : Prop := P.

Lemma NoDup_perm_ctx (l l' k : list addr) :
  l' ≡ₚ l -> NoDup (l ++ k) -> NoDup (l' ++ k).
Proof. by intros ->. Qed.

Lemma leftRotate_spec s ctx x cx a kx y cy b ky c P :
  ZRepr s ctx (T x cx a kx (T y cy b ky c)) ->
  (forall s', ZRepr s' ctx (T y cy (T x cx a kx b) ky c) -> size s' = size s -> P tt s') ->
  run (leftRotate (Some x)) s P.
Proof.
  intros (Hroot & Hc & (Hx & Ha & Hy & Hb & Hcc) & Hnd) HP.
  assert (HP' : forall s',
    root s' = croot ctx (Some y) ->
    wfc (heap s') ctx (Some y) ->
    wf (heap s') (caddr ctx) (T y cy (T x cx a kx b) ky c) ->
    size s' = size s -> P tt s').
  { intros s' ? ? ? ?. apply HP; [|done]. split; [done|]. split; [done|].
    split; [done|]. revert Hnd. apply NoDup_perm_ctx. simpl. solve_Permutation. }
  clear HP.
  simpl in *. unfold leftRotate.
  destruct b as [|b cb bl kb br]; destruct ctx as [|[p cp kp pr|p cp pl kp] ctx];
    simpl in *; destruct_and?; nd_all; repeat step; ptr_cases; repeat step;
    apply HP'; simpl; try done; repeat split; frame_tac.
Qed.

Lemma rightRotate_spec s ctx x cx a kx y cy b ky c P :
  ZRepr s ctx (T x cx (T y cy a ky b) kx c) ->
  (forall s', ZRepr s' ctx (T y cy a ky (T x cx b kx c)) -> size s' = size s -> P tt s') ->
  run (rightRotate (Some x)) s P.
Proof.
  intros (Hroot & Hc & (Hx & (Hy & Ha & Hb) & Hcc) & Hnd) HP.
  assert (HP' : forall s',
    root s' = croot ctx (Some y) ->
    wfc (heap s') ctx (Some y) ->
    wf (heap s') (caddr ctx) (T y cy a ky (T x cx b kx c)) ->
    size s' = size s -> P tt s').
  { intros s' ? ? ? ?. apply HP; [|done]. split; [done|]. split; [done|].
    split; [done|]. revert Hnd. apply NoDup_perm_ctx. simpl. solve_Permutation. }
  clear HP.
  simpl in *. unfold rightRotate.
  destruct b as [|b cb bl kb br]; destruct ctx as [|[p cp kp pr|p cp pl kp] ctx];
    simpl in *; destruct_and?; nd_all; repeat step; ptr_cases; repeat step;
    apply HP'; simpl; try done; repeat split; frame_tac.
Qed.

(** ** Specifications of the primitive writes on represented trees *)

Lemma set_color_spec s ctx a c l k r c' P :
  Repr s (plug ctx (T a c l k r)) ->
  (forall s', Repr s' (plug ctx (T a c' l k r)) -> size s' = size s -> P tt s') ->
  run (set_color (Some a) c') s P.
Proof.
  intros H HP. apply Repr_plug in H.
  eapply run_set_color; [exact (ZRepr_lookup _ _ _ _ _ _ _ H)|]. simpl.
  apply HP; [|done]. apply Repr_plug. exact (ZRepr_set_focus _ _ _ _ _ _ _ _ _ H).
Qed.

Lemma set_key_spec s ctx a c l k r k' P :
  Repr s (plug ctx (T a c l k r)) ->
  (forall s', Repr s' (plug ctx (T a c l k' r)) -> size s' = size s -> P tt s') ->
  run (set_key (Some a) k') s P.
Proof.
  intros H HP. apply Repr_plug in H.
  eapply run_set_key; [exact (ZRepr_lookup _ _ _ _ _ _ _ H)|]. simpl.
  apply HP; [|done]. apply Repr_plug. exact (ZRepr_set_focus _ _ _ _ _ _ _ _ _ H).
Qed.

Lemma leftRotate_Repr s ctx x cx a kx y cy b ky c P :
  Repr s (plug ctx (T x cx a kx (T y cy b ky c))) ->
  (forall s', Repr s' (plug ctx (T y cy (T x cx a kx b) ky c)) ->
              size s' = size s -> P tt s') ->
  run (leftRotate (Some x)) s P.
Proof.
  intros H HP. apply Repr_plug in H. eapply leftRotate_spec; [done|].
  intros s' H' ?. apply HP; [|done]. by apply Repr_plug.
Qed.

Lemma rightRotate_Repr s ctx x cx a kx y cy b ky c P :
  Repr s (plug ctx (T x cx (T y cy a ky b) kx c)) ->
  (forall s', Repr s' (plug ctx (T y cy a ky (T x cx b kx c))) ->
              size s' = size s -> P tt s') ->
  run (rightRotate (Some x)) s P.
Proof.
  intros H HP. apply Repr_plug in H. eapply rightRotate_spec; [done|].
  intros s' H' ?. apply HP; [|done]. by apply Repr_plug.
Qed.

Lemma Repr_child_ne_l s ctx a c p cp pl pk pr k r :
  Repr s (plug ctx (T a c (T p cp pl pk pr) k r)) -> Some p <> ptr_of r.
Proof.
  rewrite Repr_plug. intros (_ & _ & _ & Hnd). simpl in Hnd.
  apply ptr_of_not_in. nd_all. done.
Qed.

Lemma Repr_child_ne_r s ctx a c l k q cq ql qk qr :
  Repr s (plug ctx (T a c l k (T q cq ql qk qr))) -> Some q <> ptr_of l.
Proof.
  rewrite Repr_plug. intros (_ & _ & _ & Hnd). simpl in Hnd.
  apply ptr_of_not_in. nd_all. done.
Qed.

Lemma croot_in f ctx : exists a, croot (f :: ctx) None = Some a /\ a ∈ caddrs (f :: ctx)
  /\ forall p, croot (f :: ctx) p = Some a.
Proof.
  revert f. induction ctx as [|g ctx IH]; intros f; simpl.
  - exists (faddr f). split; [done|]. split; [left|done].
  - destruct (IH g) as (a & H1 & H2 & H3). exists a. simpl in *.
    split; [done|]. split; [|done]. right. apply elem_of_app. by right.
Qed.

Lemma Repr_root_ne s f ctx t :
  Repr s (plug (f :: ctx) t) -> root s <> ptr_of t.
Proof.
  rewrite Repr_plug. intros (Hr & _ & _ & Hnd).
  destruct (croot_in f ctx) as (a & _ & Hin & Ha). rewrite Ha in Hr.
  rewrite Hr. destruct t as [|x c l k r]; simpl; [done|]. intros [= ->].
  apply NoDup_app_disj in Hnd as (_ & Hd & _). apply (Hd x); [left|done].
Qed.

(** The number of nodes bounds every path. *)
Lemma Repr_size s t : Repr s t -> (length (addrs t) <= base.size (heap s))%nat.
Proof.
  intros (_ & Hwf & Hnd).
  rewrite <- (size_list_to_set (C := gset positive) (addrs t)) by done.
  rewrite <- size_dom. apply subseteq_size. intros a Ha.
  apply elem_of_list_to_set in Ha. apply elem_of_dom. by eapply wf_lookup.
Qed.

Lemma caddrs_length ctx : (length ctx <= length (caddrs ctx))%nat.
Proof.
  induction ctx as [|f ctx IH]; simpl; [lia|]. rewrite length_app. lia.
Qed.

Lemma Repr_fuel s ctx t :
  Repr s (plug ctx t) -> (length ctx + length (addrs t) <= base.size (heap s))%nat.
Proof.
  intros H. apply Repr_size in H. rewrite addrs_plug, length_app in H.
  pose proof (caddrs_length ctx). lia.
Qed.

(** ** Red-black shape of trees and contexts *)

(** [rb t pc n]: [t] is a red-black subtree of black height [n] that may
    hang below a node of colour [pc]. *)
Fixpoint rb (t : tree) (pc : Color) (n : nat) : Prop :=
  match t with
  | E => n = O
  | T _ Red l _ r => pc = Black /\ rb l Red n /\ rb r Red n
  | T _ Black l _ r =>
    match n with
    | O => False
    | S m => rb l Black m /\ rb r Black m
    end
  end.

Definition ccol (ctx : list frame) : Color :=
  match ctx with [] => Red | f :: _ => fcol f end.

(** [rbc ctx n]: every frame of [ctx] is consistent with a hole of black
    height [n]; nothing is said about the colour of what fills the hole. *)
Fixpoint rbc (ctx : list frame) (n : nat) : Prop :=
  match ctx with
  | [] => True
  | f :: ctx' =>
    match fcol f with
    | Black => rb (fsib f) Black n /\ rbc ctx' (S n)
    | Red => rb (fsib f) Red n /\ rbc ctx' n /\ ccol ctx' = Black
    end
  end.

Lemma rb_weaken t pc n : rb t pc n -> rb t Black n.
Proof. destruct t as [|a [] l k r]; simpl; tauto. Qed.

Lemma rb_plug ctx t n :
  rbc ctx n -> rb t (ccol ctx) n -> exists m, rb (plug ctx t) Red m.
Proof.
  revert t n. induction ctx as [|f ctx IH]; intros t n Hc Ht; simpl in *.
  - eauto.
  - destruct f as [a [] k r|a [] l k]; simpl in *.
    + destruct Hc as (Hs & Hc). apply (IH _ (S n)); [done|].
      simpl. split; [done|done].
    + destruct Hc as (Hs & Hc & Hb). apply (IH _ n); [done|].
      simpl. by rewrite Hb.
    + destruct Hc as (Hs & Hc). apply (IH _ (S n)); [done|].
      simpl. split; [done|done].
    + destruct Hc as (Hs & Hc & Hb). apply (IH _ n); [done|].
      simpl. by rewrite Hb.
Qed.

Lemma rb_plug_inv ctx t m :
  rb (plug ctx t) Red m -> exists n, rbc ctx n /\ rb t (ccol ctx) n.
Proof.
  revert t. induction ctx as [|f ctx IH]; intros t H; simpl in *.
  - eauto.
  - apply IH in H as (n & Hc & Hf).
    destruct f as [a [] k r|a [] l k]; simpl in *.
    + destruct n as [|n]; [done|]. exists n. tauto.
    + exists n. destruct Hf as (Hcc & Hl & Hr). by repeat split.
    + destruct n as [|n]; [done|]. exists n. tauto.
    + exists n. destruct Hf as (Hcc & Hl & Hr). by repeat split.
Qed.

Lemma inorder_plug_ext ctx t t' :
  inorder t = inorder t' -> inorder (plug ctx t) = inorder (plug ctx t').
Proof.
  revert t t'. induction ctx as [|f ctx IH]; intros t t' H; simpl; [done|].
  apply IH. destruct f; simpl; by rewrite H.
Qed.

Definition make_black (t : tree) : tree :=
  match t with E => E | T a _ l k r => T a Black l k r end.

(** ** Symbolic execution on represented trees *)

(** Move the focus of [plug ctx t] up to the outermost visible frame. *)
Ltac top_of ctx t k :=
  lazymatch ctx with
  | FL ?a ?c ?k0 ?r :: ?ctx' => top_of ctx' (T a c t k0 r) k
  | FR ?a ?c ?l ?k0 :: ?ctx' => top_of ctx' (T a c l k0 t) k
  | _ => k ctx t
  end.

(** Re-focus [H : Repr s (plug ctx t)] on the node at address [a]. *)
Ltac focus_tree H s ctx t a :=
  lazymatch t with
  | T a ?c ?l ?k ?r => change (Repr s (plug ctx (T a c l k r))) in H
  | T ?b ?c ?l ?k ?r =>
    first [ focus_tree H s (FL b c k r :: ctx) l a
          | focus_tree H s (FR b c l k :: ctx) r a ]
  end.

Ltac focus H a :=
  lazymatch type of H with
  | Repr ?s (plug ?ctx ?t) =>
    top_of ctx t ltac:(fun ctx' t' => focus_tree H s ctx' t' a)
  end.

Ltac with_repr s tac :=
  lazymatch goal with
  | H : Repr s _ |- _ => tac H
  end.

(** Solve [heap s !! a = Some ?n] from the representation of [s]. *)
Ltac find_lookup :=
  lazymatch goal with
  | |- heap ?s !! ?a = Some _ =>
    with_repr s ltac:(fun H =>
      focus H a;
      lazymatch type of H with
      | Repr _ (plug ?ctx (T _ ?c ?l ?k ?r)) =>
        exact (Repr_lookup s ctx a c l k r H)
      end)
  end.

(** Solve [Some p <> q] when [q] points to the sibling of [p]. *)
Ltac sibling_ne :=
  lazymatch goal with
  | |- Some ?p <> _ =>
    lazymatch goal with
    | H : Repr ?s _ |- _ =>
      focus H p;
      lazymatch type of H with
      | Repr _ (plug (FL ?a ?c ?k ?r :: ?ctx) (T _ ?cp ?pl ?pk ?pr)) =>
        exact (Repr_child_ne_l s ctx a c p cp pl pk pr k r H)
      | Repr _ (plug (FR ?a ?c ?l ?k :: ?ctx) (T _ ?cp ?pl ?pk ?pr)) =>
        exact (Repr_child_ne_r s ctx a c l k p cp pl pk pr H)
      end
    end
  end.

Ltac after_write :=
  let s' := fresh "s" in
  let H' := fresh "HR" in
  let Hs := fresh "Hsz" in
  intros s' H' Hs;
  repeat match goal with
         | Hs0 : size ?s0 = _ |- _ =>
           lazymatch type of Hs with
           | size _ = size s0 => rewrite Hs0 in Hs; clear Hs0
           end
         end.

Ltac red_node := cbn [key color left right parent ptr_of caddr faddr color_eqb].

Ltac tstep :=
  red_node;
  lazymatch goal with
  | |- run (bind _ _) _ _ => apply run_bind
  | |- run (get_left (Some _)) _ _ => eapply run_get_left; [find_lookup|]
  | |- run (get_right (Some _)) _ _ => eapply run_get_right; [find_lookup|]
  | |- run (get_parent (Some _)) _ _ => eapply run_get_parent; [find_lookup|]
  | |- run (get_color (Some _)) _ _ => eapply run_get_color; [find_lookup|]
  | |- run (get_key (Some _)) _ _ => eapply run_get_key; [find_lookup|]
  | |- run get_root _ _ => apply run_get_root
  | |- run (ret _) _ _ => apply run_ret
  | |- run (is_red None) _ _ => apply run_ret
  | |- run (is_red (Some _)) _ _ => unfold is_red
  | |- run (nil_or_black None) _ _ => apply run_ret
  | |- run (nil_or_black (Some _)) _ _ => unfold nil_or_black
  | |- run (set_color (Some ?a) _) ?s _ =>
    with_repr s ltac:(fun H =>
      focus H a;
      lazymatch type of H with
      | Repr _ (plug ?ctx (T _ ?c ?l ?k ?r)) =>
        eapply (set_color_spec s ctx a c l k r); [exact H|]; clear H; after_write
      end)
  | |- run (set_key (Some ?a) _) ?s _ =>
    with_repr s ltac:(fun H =>
      focus H a;
      lazymatch type of H with
      | Repr _ (plug ?ctx (T _ ?c ?l ?k ?r)) =>
        eapply (set_key_spec s ctx a c l k r); [exact H|]; clear H; after_write
      end)
  | |- run (leftRotate (Some ?a)) ?s _ =>
    with_repr s ltac:(fun H =>
      focus H a;
      lazymatch type of H with
      | Repr _ (plug ?ctx (T _ ?cx ?l ?kx (T ?y ?cy ?b ?ky ?c))) =>
        eapply (leftRotate_Repr s ctx a cx l kx y cy b ky c); [exact H|];
        clear H; after_write
      end)
  | |- run (rightRotate (Some ?a)) ?s _ =>
    with_repr s ltac:(fun H =>
      focus H a;
      lazymatch type of H with
      | Repr _ (plug ?ctx (T _ ?cx (T ?y ?cy ?l ?ky ?b) ?kx ?c)) =>
        eapply (rightRotate_Repr s ctx a cx l kx y cy b ky c); [exact H|];
        clear H; after_write
      end)
  | |- context [bool_decide (?p = ?p)] =>
    rewrite (bool_decide_eq_true_2 (p = p)) by reflexivity
  | |- context [bool_decide (Some ?p = ?q)] =>
    rewrite (bool_decide_eq_false_2 (Some p = q))
      by first [assumption | discriminate | sibling_ne]
  end;
  red_node.

Lemma rb_make_black t m : rb t Red m -> rb (make_black t) Red m.
Proof. destruct t as [|a [] l k r]; simpl; [done|done|]. by intros [? _]. Qed.

Ltac inorder_eq :=
  cbn [plug fill]; apply inorder_plug_ext; cbn [inorder];
  repeat (rewrite <- !app_assoc; cbn [app]); reflexivity.

Ltac rb_tac :=
  cbn [rb rbc fcol fsib ccol] in *; destruct_and?; subst;
  repeat split; eauto using rb_weaken.

Ltac insertFixup_IH IH :=
  lazymatch goal with
  | |- run (insertFixup_loop _ (Some ?z)) ?s _ =>
    with_repr s ltac:(fun H =>
      focus H z;
      lazymatch type of H with
      | Repr _ (plug ?ctx (T _ Red ?l ?k ?r)) =>
        eapply run_mono;
        [ eapply (IH ctx z l k r _ s);
          [ cbn [length] in *; lia | exact H | | | ]; [ | | rb_tac ]; rb_tac
        | let t' := fresh "t" in
          let HR' := fresh "HR" in
          let Hs := fresh "Hsz" in
          let Hi := fresh "Hin" in
          let Hm := fresh "Hm" in
          intros _ ? (t' & HR' & Hs & Hi & Hm);
          exists t'; split; [exact HR'|]; split; [congruence|];
          split; [rewrite Hi; inorder_eq|exact Hm] ]
      end)
  end.

Lemma insertFixup_loop_spec fuel : forall ctx z l k r n s,
  (length ctx < fuel)%nat ->
  Repr s (plug ctx (T z Red l k r)) ->
  rb l Red n -> rb r Red n -> rbc ctx n ->
  run (insertFixup_loop fuel (Some z)) s (fun _ s' =>
    exists t', Repr s' t' /\ size s' = size s
      /\ inorder t' = inorder (plug ctx (T z Red l k r))
      /\ exists m, rb (make_black t') Red m).
Proof.
  induction fuel as [|fuel IH]; intros ctx z l k r n s Hfuel HR Hl Hr Hc; [lia|].
  cbn [insertFixup_loop]. unfold ptr_eqb.
  destruct ctx as [|[p [] kp u|p [] u kp] ctx]; cbn [rbc fcol fsib] in Hc.
  - (* z is the root *)
    repeat tstep. eexists. split; [exact HR|]. repeat split; try done.
    exists (S n). simpl. eauto using rb_weaken.
  - (* black parent *)
    repeat tstep. eexists. split; [exact HR|]. repeat split; try done.
    destruct Hc as (Hu & Hc).
    destruct (rb_plug ctx (T p Black (T z Red l k r) kp u) (S n)) as (m & Hm);
      [done|simpl; auto|].
    exists m. by apply rb_make_black.
  - (* red parent, z on its left *)
    destruct Hc as (Hu & Hc & Hg). destruct ctx as [|[g cg kg v|g cg v kg] ctx];
      simpl in Hg; [done|..]; subst cg; cbn [rbc fcol fsib] in Hc; destruct Hc as (Hv & Hc);
      repeat tstep; destruct v as [|y [] vl ky vr]; repeat tstep;
      insertFixup_IH IH.
  - (* black parent *)
    repeat tstep. eexists. split; [exact HR|]. repeat split; try done.
    destruct Hc as (Hu & Hc).
    destruct (rb_plug ctx (T p Black u kp (T z Red l k r)) (S n)) as (m & Hm);
      [done|simpl; auto|].
    exists m. by apply rb_make_black.
  - (* red parent, z on its right *)
    destruct Hc as (Hu & Hc & Hg). destruct ctx as [|[g cg kg v|g cg v kg] ctx];
      simpl in Hg; [done|..]; subst cg; cbn [rbc fcol fsib] in Hc; destruct Hc as (Hv & Hc);
      repeat tstep; destruct v as [|y [] vl ky vr]; repeat tstep;
      insertFixup_IH IH.
Qed.

(** ** The order induced by the comparator *)

Definition lt (a b : Key) : Prop := compare a b < 0.

Definition sorted (l : list Key) : Prop := StronglySorted lt l.

(** [has_key k l]: some key of [l] compares equal to [k]. *)
Definition has_key (k : Key) (l : list Key) : Prop :=
  exists k', k' ∈ l /\ compare k k' = 0.

Fixpoint cbefore (ctx : list frame) : list Key :=
  match ctx with
  | [] => []
  | FL _ _ _ _ :: ctx => cbefore ctx
  | FR _ _ l k :: ctx => cbefore ctx ++ inorder l ++ [k]
  end.

Fixpoint cafter (ctx : list frame) : list Key :=
  match ctx with
  | [] => []
  | FL _ _ k r :: ctx => k :: inorder r ++ cafter ctx
  | FR _ _ _ _ :: ctx => cafter ctx
  end.

Lemma inorder_plug ctx t :
  inorder (plug ctx t) = cbefore ctx ++ inorder t ++ cafter ctx.
Proof.
  revert t. induction ctx as [|f ctx IH]; intros t; simpl.
  - by rewrite app_nil_r.
  - rewrite IH. destruct f; simpl; by rewrite <- ?app_assoc.
Qed.

(** The comparisons made on the way down to the hole. *)
Fixpoint bounds (k : Key) (ctx : list frame) : Prop :=
  match ctx with
  | [] => True
  | FL _ _ kf _ :: ctx => compare k kf < 0 /\ bounds k ctx
  | FR _ _ _ kf :: ctx => 0 < compare k kf /\ bounds k ctx
  end.


(** The comparator is a strict weak order: [compare a b < 0] is a strict
    order and keys that compare equal are interchangeable. *)
Hypothesis compare_antisym : forall a b, compare a b < 0 <-> 0 < compare b a.
Hypothesis compare_trans :
  forall a b c, compare a b < 0 -> compare b c < 0 -> compare a c < 0.
Hypothesis compare_eq_lt :
  forall a b c, compare a b = 0 -> compare b c < 0 -> compare a c < 0.

Lemma compare_refl a : compare a a = 0.
Proof.
  pose proof (compare_antisym a a). lia.
Qed.

Lemma compare_sym_eq a b : compare a b = 0 -> compare b a = 0.
Proof.
  pose proof (compare_antisym a b). pose proof (compare_antisym b a). lia.
Qed.

Lemma compare_lt_eq a b c : compare a b < 0 -> compare b c = 0 -> compare a c < 0.
Proof.
  intros Hab Hbc.
  destruct (Z.lt_trichotomy (compare a c) 0) as [H|[H|H]]; [done|..].
  - apply compare_sym_eq in H.
    pose proof (compare_eq_lt c a b H Hab) as H1.
    apply compare_antisym in H1. lia.
  - apply compare_antisym in H.
    pose proof (compare_trans c a b H Hab) as H1.
    apply compare_antisym in H1. lia.
Qed.

Lemma bounds_before_after k ctx t :
  bounds k ctx ->
  sorted (inorder (plug ctx t)) ->
  (forall k', k' ∈ cbefore ctx -> lt k' k) /\ (forall k', k' ∈ cafter ctx -> lt k k').
Proof.
  revert t. induction ctx as [|f ctx IH]; intros t Hb Hs; simpl in *.
  - split; intros k' Hk'; by apply elem_of_nil in Hk'.
  - destruct f as [a c kf r|a c l kf]; destruct Hb as (Hk & Hb);
      destruct (IH _ Hb Hs) as (IH1 & IH2); split; try done.
    + rewrite inorder_plug in Hs. simpl in Hs.
      apply StronglySorted_app in Hs as (_ & _ & Hs).
      apply StronglySorted_app in Hs as (_ & Hs & _).
      apply StronglySorted_app in Hs as (_ & _ & Hs).
      apply StronglySorted_cons in Hs as (Hs & _).
      rewrite Forall_forall in Hs.
      intros k'. rewrite elem_of_cons, elem_of_app.
      intros [->|[Hin|Hin]]; [done| |by apply IH2].
      eapply compare_trans; [exact Hk|]. by apply Hs.
    + rewrite inorder_plug in Hs. simpl in Hs.
      apply StronglySorted_app in Hs as (_ & _ & Hs).
      apply StronglySorted_app in Hs as (_ & Hs & _).
      apply StronglySorted_app in Hs as (Hs & _ & _).
      apply compare_antisym in Hk.
      intros k'. rewrite !elem_of_app, list_elem_of_singleton.
      intros [Hin|[Hin| ->]]; [by apply IH1| |done].
      eapply compare_trans; [|exact Hk]. apply Hs; [done|left].
Qed.

Lemma bounds_no_key k ctx t :
  bounds k ctx ->
  sorted (inorder (plug ctx t)) ->
  has_key k (inorder (plug ctx t)) -> has_key k (inorder t).
Proof.
  intros Hb Hs (k' & Hin & Hk').
  destruct (bounds_before_after k ctx t Hb Hs) as (H1 & H2).
  rewrite inorder_plug, !elem_of_app in Hin.
  destruct Hin as [Hin|[Hin|Hin]].
  - apply H1 in Hin. apply compare_antisym in Hin. lia.
  - by exists k'.
  - apply H2 in Hin. unfold lt in Hin. lia.
Qed.

Lemma sorted_insert k ctx :
  bounds k ctx ->
  sorted (inorder (plug ctx E)) ->
  forall a c, sorted (inorder (plug ctx (T a c E k E))).
Proof.
  intros Hb Hs a c.
  destruct (bounds_before_after k ctx E Hb Hs) as (H1 & H2).
  rewrite inorder_plug in *. simpl in *.
  apply StronglySorted_app in Hs as (H3 & H4 & H5).
  apply StronglySorted_app. split; [|split; [done|]].
  - intros x1 x2 Hx1. rewrite elem_of_cons. intros [->|Hx2]; auto.
  - apply StronglySorted_cons. split; [|done]. by apply Forall_forall.
Qed.

(** ** Searching *)

Lemma has_key_node k a c l kk r :
  has_key k (inorder (T a c l kk r)) <->
  has_key k (inorder l) \/ compare k kk = 0 \/ has_key k (inorder r).
Proof.
  unfold has_key. simpl. setoid_rewrite elem_of_app. setoid_rewrite elem_of_cons.
  split.
  - intros (k' & [H|[->|H]] & Hk); eauto 6.
  - intros [(k' & H & Hk)|[Hk|(k' & H & Hk)]]; eauto 6.
Qed.

Lemma sorted_node a c l kk r :
  sorted (inorder (T a c l kk r)) ->
  sorted (inorder l) /\ sorted (inorder r) /\
  (forall k', k' ∈ inorder l -> lt k' kk) /\
  (forall k', k' ∈ inorder r -> lt kk k').
Proof.
  simpl. intros H. apply StronglySorted_app in H as (H1 & H2 & H3).
  apply StronglySorted_cons in H3 as (H3 & H4). rewrite Forall_forall in H3.
  repeat split; try done. intros k' Hk'. apply H1; [done|left].
Qed.

Lemma has_key_left k a c l kk r :
  sorted (inorder (T a c l kk r)) -> compare k kk < 0 ->
  has_key k (inorder (T a c l kk r)) <-> has_key k (inorder l).
Proof.
  intros Hs Hk. apply sorted_node in Hs as (_ & _ & _ & Hr).
  rewrite has_key_node. split; [|auto].
  intros [H|[H|(k' & Hin & Hk')]]; [done|lia|].
  apply Hr in Hin. pose proof (compare_trans _ _ _ Hk Hin). lia.
Qed.

Lemma has_key_right k a c l kk r :
  sorted (inorder (T a c l kk r)) -> 0 < compare k kk ->
  has_key k (inorder (T a c l kk r)) <-> has_key k (inorder r).
Proof.
  intros Hs Hk. apply sorted_node in Hs as (_ & _ & Hl & _).
  rewrite has_key_node. split; [|auto].
  intros [(k' & Hin & Hk')|[H|H]]; [|lia|done].
  apply Hl in Hin. apply compare_antisym in Hk.
  pose proof (compare_trans _ _ _ Hin Hk) as H. apply compare_antisym in H. lia.
Qed.

Lemma Contains_loop_spec k fuel : forall ctx t s,
  (length (addrs t) < fuel)%nat ->
  Repr s (plug ctx t) ->
  sorted (inorder t) ->
  run (Contains_loop fuel k (ptr_of t)) s (fun b s' =>
    s' = s /\ (b = true <-> has_key k (inorder t))).
Proof.
  induction fuel as [|fuel IH]; intros ctx t s Hfuel HR Hs; [lia|].
  cbn [Contains_loop].
  destruct t as [|a c l kk r]; cbn [ptr_of].
  - apply run_ret. split; [done|]. split; [done|].
    intros (k' & Hin & _). by apply elem_of_nil in Hin.
  - simpl in Hfuel. rewrite length_app in Hfuel.
    pose proof (sorted_node _ _ _ _ _ Hs) as (Hsl & Hsr & _).
    repeat tstep.
    destruct (Z.eqb_spec (compare k kk) 0) as [Heq|Hne].
    { apply run_ret. split; [done|]. split; [|done]. intros _.
      apply has_key_node. auto. }
    destruct (Z.ltb_spec (compare k kk) 0) as [Hlt|Hge].
    + repeat tstep. eapply run_mono.
      { apply (IH (FL a c kk r :: ctx) l s); [lia|exact HR|done]. }
      intros b s' (-> & Hb). split; [done|]. rewrite Hb.
      symmetry. by apply has_key_left.
    + repeat tstep. eapply run_mono.
      { apply (IH (FR a c l kk :: ctx) r s); [lia|exact HR|done]. }
      intros b s' (-> & Hb). split; [done|]. rewrite Hb.
      symmetry. apply has_key_right; [done|lia].
Qed.

Lemma Contains_spec k s t :
  Repr s t -> sorted (inorder t) ->
  run (Contains k) s (fun b s' => s' = s /\ (b = true <-> has_key k (inorder t))).
Proof.
  intros HR Hs. unfold Contains. apply run_bind, run_get_root.
  apply run_with_fuel. destruct HR as (Hroot & HR). rewrite Hroot.
  apply (Contains_loop_spec k _ [] t s); [|by split|done].
  pose proof (Repr_size s t (conj Hroot HR)). lia.
Qed.

Lemma Insert_loop_spec k fuel : forall ctx t s,
  (length (addrs t) < fuel)%nat ->
  Repr s (plug ctx t) ->
  bounds k ctx ->
  run (Insert_loop fuel k (ptr_of t) (caddr ctx)) s (fun res s' =>
    s' = s /\
    match res with
    | None => has_key k (inorder t)
    | Some p => exists ctx', plug ctx' E = plug ctx t /\ p = caddr ctx' /\ bounds k ctx'
    end).
Proof.
  induction fuel as [|fuel IH]; intros ctx t s Hfuel HR Hb; [lia|].
  cbn [Insert_loop].
  destruct t as [|a c l kk r]; cbn [ptr_of].
  - apply run_ret. split; [done|]. by exists ctx.
  - simpl in Hfuel. rewrite length_app in Hfuel.
    repeat tstep.
    destruct (Z.eqb_spec (compare k kk) 0) as [Heq|Hne].
    { apply run_ret. split; [done|]. apply has_key_node. auto. }
    destruct (Z.ltb_spec (compare k kk) 0) as [Hlt|Hge].
    + repeat tstep. eapply run_mono.
      { apply (IH (FL a c kk r :: ctx) l s); [lia|exact HR|by simpl]. }
      intros [p|] s' (-> & Hp); (split; [done|]); [done|].
      apply has_key_node. auto.
    + repeat tstep. eapply run_mono.
      { apply (IH (FR a c l kk :: ctx) r s); [lia|exact HR|].
        simpl. split; [lia|done]. }
      intros [p|] s' (-> & Hp); (split; [done|]); [done|].
      apply has_key_node. auto.
Qed.

(** ** Insert *)

Lemma Repr_ext s s' t :
  heap s' = heap s -> root s' = root s -> Repr s t -> Repr s' t.
Proof. unfold Repr. by intros -> ->. Qed.

Lemma fresh_None (h : gmap positive Node) : h !! fresh (dom h) = None.
Proof. apply not_elem_of_dom, is_fresh. Qed.

Lemma Repr_not_in s t a : Repr s t -> heap s !! a = None -> a ∉ addrs t.
Proof.
  intros (_ & Hwf & _) Ha Hin. apply (wf_lookup _ _ _ _ Hwf) in Hin.
  rewrite Ha in Hin. by destruct Hin.
Qed.

Lemma run_alloc n s P :
  P (Some (fresh (dom (heap s)))) (upd s (fresh (dom (heap s))) n) ->
  run (alloc n) s P.
Proof. done. Qed.

Lemma attach_leaf s f ctx a k :
  Repr s (plug (f :: ctx) E) ->
  heap s !! a = None ->
  Repr (upd (upd s a (mkNode k Red None None (Some (faddr f))))
            (faddr f) (fnode f (Some a) (caddr ctx)))
       (plug (f :: ctx) (T a Red E k E)).
Proof.
  intros HR Ha. pose proof (Repr_not_in _ _ _ HR Ha) as Hnin.
  rewrite addrs_plug in Hnin. apply Repr_plug in HR. apply Repr_plug.
  destruct HR as (Hroot & (Hf & Hsib & Hc) & _ & Hnd).
  destruct f as [p c kp sib|p c sib kp]; simpl in *.
  all: split; [done|]; split; [|split]; simpl; [| |apply NoDup_cons; by split]; nd_all.
  all: assert (p <> a) by done.
  all: try (split; [|done]; lk).
  all: split; [by rewrite lookup_insert_eq|]; split; frame_tac.
Qed.

Lemma insertFixup_spec ctx z l k r n s :
  Repr s (plug ctx (T z Red l k r)) ->
  rb l Red n -> rb r Red n -> rbc ctx n ->
  run (insertFixup (Some z)) s (fun _ s' =>
    exists t', Repr s' t' /\ size s' = size s
      /\ inorder t' = inorder (plug ctx (T z Red l k r))
      /\ exists m, rb t' Red m).
Proof.
  intros HR Hl Hr Hc. unfold insertFixup. apply run_bind, run_with_fuel.
  eapply run_mono.
  { eapply insertFixup_loop_spec; [|exact HR|done..].
    pose proof (Repr_fuel _ _ _ HR). simpl in *. lia. }
  intros _ s' (t' & HR' & Hsz & Hin & m & Hm).
  apply run_bind, run_get_root.
  destruct t' as [|a c tl tk tr].
  { rewrite inorder_plug in Hin. simpl in Hin.
    by destruct (cbefore ctx), (inorder l). }
  destruct HR' as (Hroot & HR'). rewrite Hroot. simpl.
  eapply (set_color_spec s' [] a c tl tk tr); [by split|].
  intros s'' HR'' Hsz'. exists (T a Black tl tk tr).
  split; [done|]. split; [congruence|]. split; [done|]. by exists m.
Qed.

(** The state invariant: the store represents a red-black search tree. *)
Definition Inv (s : SetState) (t : tree) : Prop :=
  Repr s t /\ (exists m, rb t Red m) /\ sorted (inorder t).

Lemma Insert_spec k s t :
  Inv s t ->
  run (Insert k) s (fun b s' =>
    if b then
      ~ has_key k (inorder t) /\ size s' = wrap64 (size s + 1) /\
      exists t' l1 l2, Inv s' t' /\ inorder t = l1 ++ l2 /\ inorder t' = l1 ++ k :: l2
    else has_key k (inorder t) /\ s' = s).
Proof.
  intros (HR & (m & Hrb) & Hs). unfold Insert.
  apply run_bind, run_get_root.
  pose proof HR as (Hroot & Hwf & Hnd). rewrite Hroot.
  destruct t as [|a c l kk r]; cbn [ptr_of].
  - (* empty set *)
    apply run_bind, run_alloc. unfold incr_size. repeat step. simpl.
    split. { intros (k' & Hin & _). by apply elem_of_nil in Hin. }
    split; [done|]. exists (T (fresh (dom (heap s))) Black E k E), [], [].
    split; [|done]. split; [|split].
    + split; [done|]. split; [|apply NoDup_singleton]. simpl.
      by rewrite lookup_insert_eq.
    + by exists 1%nat.
    + apply StronglySorted_cons. split; [apply Forall_nil_2|constructor].
  - (* descent *)
    apply run_bind, run_with_fuel. eapply run_mono.
    { apply (Insert_loop_spec k _ [] (T a c l kk r) s); [|exact HR|done].
      pose proof (Repr_size _ _ HR). lia. }
    intros [p|] s' (-> & Hres); [|by apply run_ret].
    destruct Hres as (ctx & Hplug & -> & Hb).
    destruct ctx as [|f ctx]; [done|].
    assert (Hplug' : T a c l kk r = plug (f :: ctx) E) by (symmetry; exact Hplug).
    rewrite Hplug' in *. clear Hplug Hplug' Hroot Hwf Hnd.
    apply rb_plug_inv in Hrb as (n & Hc & Hn). simpl in Hn. subst n.
    set (z := fresh (dom (heap s))).
    assert (Hz : heap s !! z = None) by apply fresh_None.
    pose proof (attach_leaf s f ctx z k HR Hz) as HR'.
    assert (Hf : heap s !! faddr f = Some (fnode f None (caddr ctx))).
    { apply Repr_plug in HR. by destruct HR as (_ & (Hf & _) & _). }
    assert (Hne : z <> faddr f) by (intros Heq; rewrite Heq in Hz; congruence).
    apply run_bind, run_alloc. fold z.
    assert (Hside : (compare k (key (fnode f None (caddr ctx))) <? 0) =
                    match f with FL _ _ _ _ => true | _ => false end).
    { destruct f; simpl in *; [apply Z.ltb_lt|apply Z.ltb_ge]; lia. }
    repeat step. rewrite Hside.
    assert (Hatt : forall P : unit -> SetState -> Prop,
      (forall s1, heap s1 = heap (upd (upd s z (mkNode k Red None None (Some (faddr f))))
                                      (faddr f) (fnode f (Some z) (caddr ctx))) ->
                  root s1 = root s -> size s1 = size s -> P tt s1) ->
      run (if match f with FL _ _ _ _ => true | _ => false end
           then set_left (Some (faddr f)) (Some z)
           else set_right (Some (faddr f)) (Some z))
          (upd s z (mkNode k Red None None (Some (faddr f)))) P).
    { intros P HP. destruct f; repeat step; by apply HP. }
    apply Hatt. intros s1 Hh1 Hr1 Hs1.
    unfold incr_size. repeat step. unfold set_size, run.
    apply run_bind. eapply run_mono.
    { eapply (insertFixup_spec (f :: ctx) z E k E 0); [|done|done|done].
      eapply Repr_ext; [| |exact HR']; simpl; [exact Hh1|by rewrite Hr1]. }
    intros _ s2 (t' & HR2 & Hsz2 & Hin2 & Hrb2). apply run_ret.
    split. { intros Hk. apply (bounds_no_key _ _ _ Hb Hs) in Hk.
             destruct Hk as (k' & Hin & _). by apply elem_of_nil in Hin. }
    split. { rewrite Hsz2. simpl. by rewrite Hs1. }
    exists t', (cbefore (f :: ctx)), (cafter (f :: ctx)).
    split; [|split].
    + split; [done|]. split; [done|]. rewrite Hin2. by apply sorted_insert.
    + by rewrite inorder_plug.
    + rewrite Hin2. by rewrite inorder_plug.
Qed.

(** ** deleteFixup *)

Definition is_red_tree (t : tree) : bool :=
  match t with T _ Red _ _ _ => true | _ => false end.

(** What [deleteFixup] accepts at the deficient position: a black subtree
    of black height [n], or a red node that becomes one of black height
    [S n] once painted black. *)
Definition fixable (t : tree) (n : nat) : Prop :=
  match t with
  | T _ Red l _ r => rb l Black n /\ rb r Black n
  | _ => rb t Red n
  end.

Lemma rb_black_root t n : rb t Black n -> is_red_tree t = false -> rb t Red n.
Proof. by destruct t as [|a [] l k r]. Qed.

Definition dfix_post (s : SetState) (t0 : tree) (x' : ptr) (s' : SetState) : Prop :=
  exists ctx' xt',
    Repr s' (plug ctx' xt') /\ x' = ptr_of xt' /\ size s' = size s
    /\ inorder (plug ctx' xt') = inorder t0
    /\ exists m, rb (plug ctx' (make_black xt')) Red m.

Ltac prune :=
  cbn [rb rbc fcol fsib ccol fixable] in *; destruct_and?; subst;
  cbn [rb rbc fcol fsib ccol fixable] in *; destruct_and?;
  try done; try discriminate.

Ltac destruct_tree t := is_var t; destruct t as [|? [] ? ? ?]; prune.

Ltac destruct_stuck :=
  lazymatch goal with
  | |- run (nil_or_black (ptr_of ?t)) _ _ => destruct_tree t
  | |- run (get_color (ptr_of ?t)) _ _ => destruct_tree t
  | |- run (get_left (ptr_of ?t)) _ _ => destruct_tree t
  | |- run (get_right (ptr_of ?t)) _ _ => destruct_tree t
  | |- run (set_color (ptr_of ?t) _) _ _ => destruct_tree t
  | |- run (if ptr_of ?t is Some _ then _ else _) _ _ => destruct_tree t
  | |- context [bool_decide (None = Some ?a)] =>
    rewrite (bool_decide_eq_false_2 (None = Some a)) by discriminate
  | |- context [bool_decide (None = ptr_of (T ?a _ _ _ _))] =>
    cbn [ptr_of];
    rewrite (bool_decide_eq_false_2 (None = Some a)) by discriminate
  | |- context [bool_decide (_ = ptr_of ?t)] => destruct_tree t
  end.

Ltac tsteps := repeat first [tstep | destruct_stuck].

Ltac rb_tac2 :=
  cbn [rb rbc fcol fsib ccol fixable make_black] in *; destruct_and?; subst;
  split_and?; eauto using rb_weaken.

Lemma rb_fixable t n : rb t Black n -> fixable t n.
Proof.
  destruct t as [|a [] l k r]; simpl; [done|done|].
  intros (_ & ? & ?). eauto using rb_weaken.
Qed.

Lemma dfix_post_mono s0 s t1 t0 x' s' :
  dfix_post s0 t1 x' s' -> size s0 = size s -> inorder t1 = inorder t0 ->
  dfix_post s t0 x' s'.
Proof.
  intros (ctx' & xt' & ? & ? & ? & ? & ?) ? ?. exists ctx', xt'.
  split_and!; try done; congruence.
Qed.

(** What holds of the variables [x] and [parent] after one iteration
    started at depth [len]: they again denote a fixable position, which
    is the root, or red, or strictly higher in the tree. *)
Definition dbody_post (s : SetState) (t0 : tree) (len : nat)
    (xp : ptr * ptr) (s' : SetState) : Prop :=
  size s' = size s /\
  exists ctx' xt' n',
    Repr s' (plug ctx' xt') /\ fst xp = ptr_of xt'
    /\ (ctx' = [] \/ snd xp = caddr ctx')
    /\ inorder (plug ctx' xt') = inorder t0
    /\ rbc ctx' (S n') /\ fixable xt' n'
    /\ (ctx' = [] \/ is_red_tree xt' = true \/ (length ctx' < len)%nat).

Lemma dbody_post_root s s' t0 len ctx t p n :
  Repr s' (plug ctx t) -> size s' = size s ->
  rbc ctx n -> rb t (ccol ctx) n ->
  inorder (plug ctx t) = inorder t0 ->
  dbody_post s t0 len (root s', p) s'.
Proof.
  intros HR Hsz Hc Ht Hin. split; [done|].
  destruct (rb_plug _ _ _ Hc Ht) as (m & Hm).
  exists [], (plug ctx t), m. split_and!; try done; try by left.
  - by destruct HR.
  - by apply rb_fixable, (rb_weaken _ Red).
Qed.

Lemma dbody_post_step s s' t0 len ctx xt n :
  Repr s' (plug ctx xt) -> size s' = size s ->
  rbc ctx (S n) -> fixable xt n ->
  inorder (plug ctx xt) = inorder t0 ->
  is_red_tree xt = true \/ (length ctx < len)%nat ->
  dbody_post s t0 len (ptr_of xt, caddr ctx) s'.
Proof.
  intros HR Hsz Hc Ht Hin Hm. split; [done|].
  exists ctx, xt, n. split_and!; try done; by right.
Qed.

Ltac dbody_finish :=
  lazymatch goal with
  | |- dbody_post _ _ _ (root ?s, _) ?s =>
    with_repr s ltac:(fun H =>
      lazymatch type of H with
      | Repr _ (plug ?ctx ?t) =>
        eapply (dbody_post_root _ s _ _ ctx t);
        [exact H|done| | |inorder_eq]; [rb_tac2|]; rb_tac2
      end)
  | |- dbody_post _ _ _ (Some ?p, _) ?s =>
    with_repr s ltac:(fun H =>
      focus H p;
      lazymatch type of H with
      | Repr _ (plug ?ctx ?xt) =>
        eapply (dbody_post_step _ s _ _ ctx xt);
        [exact H|done| | |inorder_eq
        |first [by left|right; cbn [length]; lia] ];
        [rb_tac2|]; rb_tac2
      end)
  end.

Lemma deleteFixup_cond_spec s ctx xt :
  Repr s (plug ctx xt) ->
  run (deleteFixup_cond (ptr_of xt)) s (fun b s' =>
    s' = s /\ b = match ctx with [] => false | _ => negb (is_red_tree xt) end).
Proof.
  intros HR. unfold deleteFixup_cond, ptr_eqb. apply run_bind, run_get_root.
  destruct ctx as [|f ctx].
  - destruct HR as (-> & _). rewrite bool_decide_eq_true_2 by done.
    by apply run_ret.
  - pose proof (Repr_root_ne _ _ _ _ HR).
    rewrite bool_decide_eq_false_2 by (by apply not_eq_sym).
    destruct xt as [|x [] l k r]; repeat tstep; done.
Qed.

(** Non-nullity of the sibling: the deficient side has one black node
    less than its sibling needs, so the sibling cannot be empty. *)
Lemma deleteFixup_sibling_spec s f ctx xt n :
  Repr s (plug (f :: ctx) xt) ->
  is_red_tree xt = false -> fixable xt n -> rbc (f :: ctx) (S n) ->
  run (deleteFixup_sibling (ptr_of xt) (Some (faddr f))) s (fun w s' =>
    s' = s /\ w = ptr_of (fsib f) /\ w <> None).
Proof.
  intros HR Hred Hx Hc. unfold deleteFixup_sibling, ptr_eqb.
  destruct xt as [|x [] xl kx xr]; [| |done];
    destruct f as [p [] kp w|p [] w kp]; prune;
    destruct w as [|wa wc wl kw wr]; prune; tsteps; done.
Qed.

Lemma deleteFixup_body_spec s f ctx xt n :
  Repr s (plug (f :: ctx) xt) ->
  is_red_tree xt = false -> fixable xt n -> rbc (f :: ctx) (S n) ->
  run (deleteFixup_body (ptr_of xt) (Some (faddr f))) s
      (dbody_post s (plug (f :: ctx) xt) (length (f :: ctx))).
Proof.
  intros HR Hred Hx Hc. unfold deleteFixup_body, ptr_eqb.
  destruct xt as [|x [] xl kx xr]; [| |done];
    destruct f as [p [] kp w|p [] w kp]; prune; tsteps; dbody_finish.
Qed.

Lemma dfix_exit ctx xt n :
  fixable xt n -> rbc ctx (S n) ->
  ctx = [] \/ is_red_tree xt = true ->
  exists m, rb (plug ctx (make_black xt)) Red m.
Proof.
  intros Hx Hc [-> | Hred].
  - destruct xt as [|a [] l k r]; simpl in *; [by exists n..|]. by exists (S n).
  - destruct xt as [|a [] l k r]; try done. simpl in *.
    by apply (rb_plug ctx _ (S n)).
Qed.

Lemma deleteFixup_loop_gen fuel : forall ctx xt n par s,
  (0 < fuel)%nat ->
  ctx = [] \/ is_red_tree xt = true \/ (length ctx < fuel)%nat ->
  ctx = [] \/ par = caddr ctx ->
  Repr s (plug ctx xt) ->
  fixable xt n -> rbc ctx (S n) ->
  run (deleteFixup_loop fuel (ptr_of xt) par) s (dfix_post s (plug ctx xt)).
Proof.
  induction fuel as [|fuel IH]; intros ctx xt n par s Hpos Hm Hpar HR Hx Hc; [lia|].
  cbn [deleteFixup_loop]. apply run_bind. eapply run_mono.
  { by apply deleteFixup_cond_spec. }
  intros b s' (-> & ->).
  assert (Hexit : ctx = [] \/ is_red_tree xt = true ->
    run (ret (ptr_of xt)) s (dfix_post s (plug ctx xt))).
  { intros He. apply run_ret. exists ctx, xt. split_and!; try done.
    by eapply dfix_exit. }
  destruct ctx as [|f ctx]; [apply Hexit; by left|].
  destruct (is_red_tree xt) eqn:Hred; cbn [negb]; [apply Hexit; by right|].
  clear Hexit. destruct Hpar as [?| ->]; [done|].
  destruct Hm as [?|[?|Hm]]; [done..|].
  apply run_bind. eapply run_mono.
  { by eapply deleteFixup_body_spec. }
  intros [x' p'] s' (Hsz & ctx' & xt' & n' & HR' & Hx' & Hp' & Hin' & Hc' & Hf' & Hm').
  simpl in Hx', Hp'. subst x'. cbn [fst snd].
  eapply run_mono.
  { eapply (IH ctx' xt' n' p' s'); try done; [simpl in Hm; lia|].
    destruct Hm' as [?|[?|?]]; [by left|by right; left|right; right].
    simpl in *. lia. }
  intros x'' s'' Hpost. by eapply dfix_post_mono.
Qed.

Lemma deleteFixup_loop_spec fuel : forall ctx xt n s,
  (length ctx < fuel)%nat ->
  Repr s (plug ctx xt) ->
  fixable xt n -> rbc ctx (S n) ->
  run (deleteFixup_loop fuel (ptr_of xt) (caddr ctx)) s (dfix_post s (plug ctx xt)).
Proof.
  intros ctx xt n s Hfuel HR Hx Hc.
  eapply deleteFixup_loop_gen; try done; [lia|by right; right|by right].
Qed.

Lemma deleteFixup_spec ctx xt n s :
  Repr s (plug ctx xt) ->
  fixable xt n -> rbc ctx (S n) ->
  run (deleteFixup (ptr_of xt) (caddr ctx)) s (fun _ s' =>
    exists t', Repr s' t' /\ size s' = size s
      /\ inorder t' = inorder (plug ctx xt)
      /\ exists m, rb t' Red m).
Proof.
  intros HR Hx Hc. unfold deleteFixup. apply run_bind, run_with_fuel.
  eapply run_mono.
  { eapply deleteFixup_loop_spec; [|exact HR|done..].
    pose proof (Repr_fuel _ _ _ HR). lia. }
  intros x' s' (ctx' & xt' & HR' & -> & Hsz & Hin & Hrb).
  destruct xt' as [|a c l k r]; cbn [ptr_of make_black] in *.
  - apply run_ret. by exists (plug ctx' E).
  - eapply (set_color_spec s' ctx' a c l k r); [done|].
    intros s'' HR'' Hsz'. exists (plug ctx' (T a Black l k r)).
    split_and!; [done|congruence| |done].
    rewrite <- Hin. by apply inorder_plug_ext.
Qed.

(** ** minimum and maximum *)

Definition is_FL (f : frame) : Prop :=
  match f with FL _ _ _ _ => True | _ => False end.

Definition is_FR (f : frame) : Prop :=
  match f with FR _ _ _ _ => True | _ => False end.

Lemma plug_app c1 c2 t : plug (c1 ++ c2) t = plug c2 (plug c1 t).
Proof.
  revert t. induction c1 as [|f c1 IH]; intros t; simpl; [done|]. apply IH.
Qed.

Lemma minimum_loop_spec fuel : forall ctx a c l k r s,
  (length (addrs l) < fuel)%nat ->
  Repr s (plug ctx (T a c l k r)) ->
  run (minimum_loop fuel (Some a)) s (fun y s' =>
    s' = s /\ exists cr ya yc yk yr,
      y = Some ya /\ T a c l k r = plug cr (T ya yc E yk yr) /\ Forall is_FL cr).
Proof.
  induction fuel as [|fuel IH]; intros ctx a c l k r s Hfuel HR; [lia|].
  cbn [minimum_loop]. repeat tstep.
  destruct l as [|b cb bl bk br]; cbn [ptr_of].
  - apply run_ret. split; [done|]. by exists [], a, c, k, r.
  - simpl in Hfuel. rewrite length_app in Hfuel. eapply run_mono.
    { apply (IH (FL a c k r :: ctx) b cb bl bk br s); [lia|exact HR]. }
    intros y s' (-> & cr & ya & yc & yk & yr & -> & Hp & Hcr). split; [done|].
    exists (cr ++ [FL a c k r]), ya, yc, yk, yr. split; [done|].
    split; [by rewrite plug_app, <- Hp|].
    apply Forall_app. split; [done|]. by apply Forall_singleton.
Qed.

Lemma minimum_spec ctx a c l k r s :
  Repr s (plug ctx (T a c l k r)) ->
  run (minimum (Some a)) s (fun y s' =>
    s' = s /\ exists cr ya yc yk yr,
      y = Some ya /\ T a c l k r = plug cr (T ya yc E yk yr) /\ Forall is_FL cr).
Proof.
  intros HR. apply run_with_fuel. eapply minimum_loop_spec; [|exact HR].
  pose proof (Repr_fuel _ _ _ HR) as H. simpl in H. rewrite length_app in H. lia.
Qed.

Lemma maximum_loop_spec fuel : forall ctx a c l k r s,
  (length (addrs r) < fuel)%nat ->
  Repr s (plug ctx (T a c l k r)) ->
  run (maximum_loop fuel (Some a)) s (fun y s' =>
    s' = s /\ exists cr ya yc yl yk,
      y = Some ya /\ T a c l k r = plug cr (T ya yc yl yk E) /\ Forall is_FR cr).
Proof.
  induction fuel as [|fuel IH]; intros ctx a c l k r s Hfuel HR; [lia|].
  cbn [maximum_loop]. repeat tstep.
  destruct r as [|b cb bl bk br]; cbn [ptr_of].
  - apply run_ret. split; [done|]. by exists [], a, c, l, k.
  - simpl in Hfuel. rewrite length_app in Hfuel. eapply run_mono.
    { apply (IH (FR a c l k :: ctx) b cb bl bk br s); [lia|exact HR]. }
    intros y s' (-> & cr & ya & yc & yl & yk & -> & Hp & Hcr). split; [done|].
    exists (cr ++ [FR a c l k]), ya, yc, yl, yk. split; [done|].
    split; [by rewrite plug_app, <- Hp|].
    apply Forall_app. split; [done|]. by apply Forall_singleton.
Qed.

Lemma maximum_spec ctx a c l k r s :
  Repr s (plug ctx (T a c l k r)) ->
  run (maximum (Some a)) s (fun y s' =>
    s' = s /\ exists cr ya yc yl yk,
      y = Some ya /\ T a c l k r = plug cr (T ya yc yl yk E) /\ Forall is_FR cr).
Proof.
  intros HR. apply run_with_fuel. eapply maximum_loop_spec; [|exact HR].
  pose proof (Repr_fuel _ _ _ HR) as H. simpl in H. rewrite length_app in H. lia.
Qed.

(** ** delete *)

(** Unlinking a node with at most one child: the child [xt] takes its
    place.  The cell of the unlinked node [y] is left as it was. *)
Lemma splice_spec {A} s cy y c l k r xt (K : M A) P :
  ZRepr s cy (T y c l k r) ->
  (l = E /\ xt = r) \/ (r = E /\ xt = l) ->
  (forall s',
     ZRepr s' cy xt ->
     heap s' !! y = Some (mkNode k c (ptr_of l) (ptr_of r) (caddr cy)) ->
     size s' = size s -> run K s' P) ->
  run ((if ptr_of xt is Some _
        then do yp <- get_parent (Some y); set_parent (ptr_of xt) yp
        else ret tt) ;;
       do yp <- get_parent (Some y);
       (if yp is None then set_root (ptr_of xt)
        else do ypl <- get_left yp;
             if ptr_eqb (Some y) ypl then set_left yp (ptr_of xt)
             else set_right yp (ptr_of xt)) ;;
       K) s P.
Proof.
  intros (Hroot & Hc & (Hy & Hl & Hr) & Hnd) Hxt HP.
  assert (HP' : forall s',
    root s' = croot cy (ptr_of xt) ->
    wfc (heap s') cy (ptr_of xt) ->
    wf (heap s') (caddr cy) xt ->
    NoDup (addrs xt ++ caddrs cy) ->
    heap s' !! y = Some (mkNode k c (ptr_of l) (ptr_of r) (caddr cy)) ->
    size s' = size s -> run K s' P).
  { intros s' ? ? ? ? ? ?. by apply HP. }
  clear HP.
  assert (Hnd' : NoDup (addrs xt ++ caddrs cy)).
  { simpl in Hnd. apply NoDup_cons in Hnd as (_ & Hnd).
    destruct Hxt as [(-> & ->)|(-> & ->)]; simpl in *; [done|].
    by rewrite app_nil_r in Hnd. }
  specialize (fun s' H1 H2 H3 => HP' s' H1 H2 H3 Hnd').
  clear Hnd'.
  destruct Hxt as [(-> & ->)|(-> & ->)];
    [destruct r as [|x cx xl kx xr]|destruct l as [|x cx xl kx xr]];
    destruct cy as [|[p cp kp pr|p cp pl kp] cy];
    simpl in *; destruct_and?; nd_all; repeat step; ptr_cases; repeat step;
    apply HP'; simpl; try done; split_and?; frame_tac.
Qed.

(** The part of [delete] that follows the choice of the node [y] to
    unlink. *)
Definition delete_from (y z : ptr) : M unit :=
  do yl <- get_left y;
  do x <- (if yl is Some _ then ret yl else get_right y);
  (if x is Some _ then do yp <- get_parent y; set_parent x yp else ret tt) ;;
  do yp <- get_parent y;
  (if yp is None then set_root x
   else do ypl <- get_left yp;
        if ptr_eqb y ypl then set_left yp x else set_right yp x) ;;
  (if negb (ptr_eqb y z) then do yk <- get_key y; set_key z yk else ret tt) ;;
  do yc <- get_color y;
  if color_eqb yc Black then
    do yp <- get_parent y;
    deleteFixup x yp
  else ret tt.

Lemma delete_unfold z :
  delete z =
  (do zl <- get_left z;
   do y <- (if zl is None then ret z
            else do zr <- get_right z;
                 if zr is None then ret z else successor z);
   delete_from y z).
Proof. reflexivity. Qed.

Definition delete_post (s : SetState) (keys : list Key) (s' : SetState) : Prop :=
  exists t', Repr s' t' /\ size s' = size s /\ inorder t' = keys
    /\ exists m, rb t' Red m.

Lemma delete_from_spec s cy cy' y yc yl yk yr xt z m :
  Repr s (plug cy (T y yc yl yk yr)) ->
  (yl = E /\ xt = yr) \/ (yr = E /\ xt = yl) ->
  rb (plug cy (T y yc yl yk yr)) Red m ->
  (forall n, rbc cy n -> rbc cy' n) -> ccol cy' = ccol cy -> caddr cy' = caddr cy ->
  (forall s1 ny (P : unit -> SetState -> Prop),
     Repr s1 (plug cy xt) -> heap s1 !! y = Some ny -> key ny = yk ->
     (forall s2, Repr s2 (plug cy' xt) -> heap s2 !! y = Some ny ->
                 size s2 = size s1 -> P tt s2) ->
     run (if negb (ptr_eqb (Some y) z)
          then do yk <- get_key (Some y); set_key z yk else ret tt) s1 P) ->
  run (delete_from (Some y) z) s (fun _ s' => delete_post s (inorder (plug cy' xt)) s').
Proof.
  intros HR Hxt Hrb Hrbc Hccol Hcaddr Hkey. unfold delete_from.
  repeat tstep.
  assert (Hx : forall P' : ptr -> SetState -> Prop,
    P' (ptr_of xt) s ->
    run (if ptr_of yl is Some _ then ret (ptr_of yl) else get_right (Some y)) s P').
  { intros P' HP'. destruct Hxt as [(-> & ->)|(-> & ->)].
    - simpl. by repeat tstep.
    - destruct yl; simpl; by repeat tstep. }
  apply Hx. clear Hx.
  pose proof HR as HZ. apply Repr_plug in HZ.
  eapply (splice_spec s cy y yc yl yk yr xt); [exact HZ|exact Hxt|].
  intros s1 HR1 Hy1 Hsz1. apply Repr_plug in HR1.
  apply run_bind. eapply Hkey; [exact HR1|exact Hy1|done|].
  intros s2 HR2 Hy2 Hsz2.
  apply run_bind. eapply run_get_color; [exact Hy2|]. cbn [color].
  apply rb_plug_inv in Hrb as (n & Hc & Hn).
  destruct yc; cbn [color_eqb].
  - (* a black node was removed *)
    apply run_bind. eapply run_get_parent; [exact Hy2|]. cbn [parent].
    rewrite <- Hcaddr. simpl in Hn. destruct n as [|n]; [done|].
    destruct Hn as (Hyl & Hyr).
    eapply run_mono.
    { eapply (deleteFixup_spec cy' xt n); [exact HR2| |by apply Hrbc].
      destruct Hxt as [(-> & ->)|(-> & ->)]; by apply rb_fixable. }
    intros _ s3 (t' & HR3 & Hsz3 & Hin3 & Hrb3).
    exists t'. split_and!; [done|congruence|done|done].
  - (* a red node was removed *)
    apply run_ret. simpl in Hn. destruct Hn as (Hcc & Hyl & Hyr).
    exists (plug cy' xt). split_and!; [done|congruence|done|].
    apply (rb_plug cy' xt n); [by apply Hrbc|].
    rewrite Hccol, Hcc.
    destruct Hxt as [(-> & ->)|(-> & ->)]; by eapply rb_weaken.
Qed.

Lemma cbefore_app c1 c2 : cbefore (c1 ++ c2) = cbefore c2 ++ cbefore c1.
Proof.
  induction c1 as [|[] c1 IH]; simpl; [by rewrite app_nil_r|done|].
  by rewrite IH, <- app_assoc.
Qed.

Lemma cafter_app c1 c2 : cafter (c1 ++ c2) = cafter c1 ++ cafter c2.
Proof.
  induction c1 as [|[] c1 IH]; simpl; [done| |done].
  by rewrite IH, <- app_assoc.
Qed.

Lemma cbefore_FL cr : Forall is_FL cr -> cbefore cr = [].
Proof.
  induction 1 as [|[] cr Hf _ IH]; simpl; [done|done|by destruct Hf].
Qed.

Lemma cafter_FR cr : Forall is_FR cr -> cafter cr = [].
Proof.
  induction 1 as [|[] cr Hf _ IH]; simpl; [done|by destruct Hf|done].
Qed.

Lemma rbc_rekey cr z c l k k' ctx n :
  rbc (cr ++ FR z c l k :: ctx) n -> rbc (cr ++ FR z c l k' :: ctx) n.
Proof.
  revert n. induction cr as [|f cr IH]; intros n; simpl; [done|].
  assert (ccol (cr ++ FR z c l k :: ctx) = ccol (cr ++ FR z c l k' :: ctx))
    as <- by by destruct cr.
  destruct (fcol f); intros; destruct_and?; split_and?; auto.
Qed.

Lemma Repr_ctx_ne s cr f ctx y yc yl yk yr :
  Repr s (plug (cr ++ f :: ctx) (T y yc yl yk yr)) -> y <> faddr f.
Proof.
  rewrite Repr_plug. intros (_ & _ & _ & Hnd). simpl in Hnd.
  apply NoDup_cons in Hnd as (Hnd & _). intros ->. apply Hnd.
  apply elem_of_app. right. clear Hnd.
  induction cr as [|g cr IH]; simpl; [left|].
  right. apply elem_of_app. by right.
Qed.

Lemma delete_spec ctx z c l k r s m :
  Repr s (plug ctx (T z c l k r)) ->
  rb (plug ctx (T z c l k r)) Red m ->
  run (delete (Some z)) s (fun _ s' =>
    delete_post s (cbefore ctx ++ inorder l ++ inorder r ++ cafter ctx) s').
Proof.
  intros HR Hrb. rewrite delete_unfold. repeat tstep.
  assert (Hsame : (l = E \/ r = E) ->
    run (delete_from (Some z) (Some z)) s (fun _ s' =>
      delete_post s (cbefore ctx ++ inorder l ++ inorder r ++ cafter ctx) s')).
  { intros Hlr.
    assert (exists xt, ((l = E /\ xt = r) \/ (r = E /\ xt = l))
                       /\ inorder xt = inorder l ++ inorder r) as (xt & Hxt & Hin).
    { destruct Hlr as [-> | ->]; [exists r|exists l]; (split; [tauto|]); simpl;
        by rewrite ?app_nil_r. }
    rewrite (app_assoc (inorder l)), <- Hin, <- inorder_plug.
    eapply (delete_from_spec s ctx ctx z c l k r xt (Some z)); try done.
    intros s1 ny P HR1 Hy1 Hk HP. unfold ptr_eqb.
    rewrite bool_decide_eq_true_2 by done. apply run_ret. by apply HP. }
  destruct l as [|la lc ll lk lr]; cbn [ptr_of].
  { apply run_ret. apply Hsame. by left. }
  repeat tstep.
  destruct r as [|ra rc rl rk rr]; cbn [ptr_of].
  { apply run_ret. apply Hsame. by right. }
  clear Hsame. unfold successor. repeat tstep.
  eapply run_mono.
  { eapply (minimum_spec (FR z c (T la lc ll lk lr) k :: ctx)). exact HR. }
  intros y s' (-> & cr & ya & yc & yk & yr & -> & Hr & Hcr).
  rewrite Hr in *. clear Hr.
  change (plug ctx (T z c (T la lc ll lk lr) k (plug cr (T ya yc E yk yr))))
    with (plug (FR z c (T la lc ll lk lr) k :: ctx) (plug cr (T ya yc E yk yr))) in *.
  rewrite <- plug_app in *.
  pose proof (Repr_ctx_ne _ _ _ _ _ _ _ _ _ HR) as Hne. simpl in Hne.
  eapply run_mono.
  { eapply (delete_from_spec s (cr ++ FR z c (T la lc ll lk lr) k :: ctx)
              (cr ++ FR z c (T la lc ll lk lr) yk :: ctx) ya yc E yk yr yr (Some z));
      [exact HR|by left|exact Hrb|apply rbc_rekey|by destruct cr|by destruct cr|].
    intros s1 ny P HR1 Hy1 Hk HP. unfold ptr_eqb.
    rewrite bool_decide_eq_false_2 by congruence. cbn [negb].
    apply run_bind. eapply run_get_key; [exact Hy1|]. rewrite Hk.
    rewrite plug_app in HR1. cbn [plug fill] in HR1.
    pose proof (Repr_lookup _ _ _ _ _ _ _ HR1) as Hz.
    eapply run_set_key; [exact Hz|]. cbn [key color left right parent].
    apply HP.
    - rewrite plug_app. cbn [plug fill]. apply Repr_plug.
      apply Repr_plug in HR1.
      exact (ZRepr_set_focus _ _ _ _ _ _ _ c yk HR1).
    - simpl. by rewrite lookup_insert_ne.
    - done. }
  intros _ s2 (t' & HR2 & Hsz2 & Hin2 & Hrb2).
  exists t'. split_and!; try done. rewrite Hin2.
  rewrite !inorder_plug, !cbefore_app, !cafter_app. simpl.
  rewrite (cbefore_FL cr) by done. simpl.
  by rewrite <- !app_assoc.
Qed.

(** ** Remove *)

Lemma Remove_loop_spec k m fuel : forall ctx t s,
  (length (addrs t) < fuel)%nat ->
  Repr s (plug ctx t) ->
  rb (plug ctx t) Red m ->
  sorted (inorder t) ->
  run (Remove_loop fuel k (ptr_of t)) s (fun b s' =>
    if b then
      size s' = wrap64 (size s - 1) /\
      exists t' l1 kz l2,
        inorder (plug ctx t) = l1 ++ kz :: l2 /\ compare k kz = 0 /\
        Repr s' t' /\ inorder t' = l1 ++ l2 /\ exists m', rb t' Red m'
    else ~ has_key k (inorder t) /\ s' = s).
Proof.
  induction fuel as [|fuel IH]; intros ctx t s Hfuel HR Hrb Hs; [lia|].
  cbn [Remove_loop].
  destruct t as [|a c l kk r]; cbn [ptr_of].
  - apply run_ret. split; [|done].
    intros (k' & Hin & _). by apply elem_of_nil in Hin.
  - simpl in Hfuel. rewrite length_app in Hfuel.
    pose proof (sorted_node _ _ _ _ _ Hs) as (Hsl & Hsr & _).
    repeat tstep.
    destruct (Z.eqb_spec (compare k kk) 0) as [Heq|Hne].
    { apply run_bind. eapply run_mono; [by eapply delete_spec|].
      intros _ s1 (t' & HR1 & Hsz1 & Hin1 & Hrb1).
      unfold decr_size. repeat step. simpl.
      split; [by rewrite Hsz1|].
      exists t', (cbefore ctx ++ inorder l), kk, (inorder r ++ cafter ctx).
      split_and!; [|done| | |done].
      - rewrite inorder_plug. simpl. by rewrite <- !app_assoc.
      - by eapply Repr_ext.
      - by rewrite Hin1, <- !app_assoc. }
    destruct (Z.ltb_spec (compare k kk) 0) as [Hlt|Hge].
    + repeat tstep. eapply run_mono.
      { apply (IH (FL a c kk r :: ctx) l s); [lia|exact HR|exact Hrb|done]. }
      intros [] s'; [done|]. intros (Hb & ->). split; [|done].
      by rewrite has_key_left.
    + repeat tstep. eapply run_mono.
      { apply (IH (FR a c l kk :: ctx) r s); [lia|exact HR|exact Hrb|done]. }
      intros [] s'; [done|]. intros (Hb & ->). split; [|done].
      rewrite has_key_right; [done|done|lia].
Qed.

Lemma sorted_remove l1 kz l2 : sorted (l1 ++ kz :: l2) -> sorted (l1 ++ l2).
Proof.
  unfold sorted. rewrite !StronglySorted_app, StronglySorted_cons.
  intros (H1 & H2 & H3 & H4). split_and!; try done.
  intros x1 x2 Hx1 Hx2. apply H1; [done|by right].
Qed.

Lemma sorted_remove_no_key k l1 kz l2 :
  sorted (l1 ++ kz :: l2) -> compare k kz = 0 -> ~ has_key k (l1 ++ l2).
Proof.
  unfold sorted. rewrite StronglySorted_app, StronglySorted_cons, Forall_forall.
  intros (H1 & H2 & H3 & H4) Hk (k' & Hin & Hk').
  apply elem_of_app in Hin as [Hin|Hin].
  - assert (lt k' kz) as Hlt by (apply H1; [done|left]).
    pose proof (compare_eq_lt _ _ _ Hk' Hlt). lia.
  - apply H3 in Hin. pose proof (compare_eq_lt _ _ _ Hk Hin). lia.
Qed.

Lemma Remove_spec k s t :
  Inv s t ->
  run (Remove k) s (fun b s' =>
    if b then
      has_key k (inorder t) /\ size s' = wrap64 (size s - 1) /\
      exists t' l1 kz l2, Inv s' t' /\ inorder t = l1 ++ kz :: l2 /\
        compare k kz = 0 /\ inorder t' = l1 ++ l2
    else ~ has_key k (inorder t) /\ s' = s).
Proof.
  intros (HR & (m & Hrb) & Hs). unfold Remove.
  apply run_bind, run_get_root. apply run_with_fuel.
  pose proof HR as (Hroot & _). rewrite Hroot.
  eapply run_mono.
  { apply (Remove_loop_spec k m _ [] t s); [|exact HR|exact Hrb|exact Hs].
    pose proof (Repr_size _ _ HR). lia. }
  intros [] s'; [|done].
  intros (Hsz & t' & l1 & kz & l2 & Hin & Hk & HR' & Hin' & Hrb').
  simpl in Hin. split_and!; [|done|].
  - exists kz. split; [|done]. rewrite Hin. apply elem_of_app. right. left.
  - exists t', l1, kz, l2. split_and!; try done.
    split; [done|]. split; [done|].
    rewrite Hin'. apply (sorted_remove _ kz). by rewrite <- Hin.
Qed.

(** ** The four red-black invariants *)

(** A missing child counts as black. *)
Definition root_color (t : tree) : Color :=
  match t with E => Black | T _ c _ _ _ => c end.

Definition root_black (t : tree) : Prop := root_color t = Black.

Fixpoint no_red_red (t : tree) : Prop :=
  match t with
  | E => True
  | T _ c l _ r =>
    (c = Red -> root_color l = Black /\ root_color r = Black)
    /\ no_red_red l /\ no_red_red r
  end.

(** The number of black nodes on each path from the root to a null leaf. *)
Fixpoint black_counts (t : tree) : list nat :=
  match t with
  | E => [O]
  | T _ c l _ r =>
    map (fun n => match c with Black => S n | Red => n end)
        (black_counts l ++ black_counts r)
  end.

Definition black_balanced (t : tree) : Prop :=
  forall n m, n ∈ black_counts t -> m ∈ black_counts t -> n = m.

Definition red_black (t : tree) : Prop :=
  root_black t /\ no_red_red t /\ black_balanced t /\ sorted (inorder t).

Lemma rb_shape t : forall pc n,
  rb t pc n ->
  no_red_red t /\ (forall x, x ∈ black_counts t -> x = n)
  /\ (pc = Red -> root_color t = Black).
Proof.
  induction t as [|a c l IHl k r IHr]; intros pc n; simpl.
  - intros ->. split_and!; [done| |done].
    intros x Hx. by apply list_elem_of_singleton in Hx.
  - destruct c.
    + destruct n as [|n]; [done|]. intros (Hl & Hr).
      destruct (IHl _ _ Hl) as (Hl1 & Hl2 & _).
      destruct (IHr _ _ Hr) as (Hr1 & Hr2 & _).
      split_and!; try done.
      intros x Hx. apply list_elem_of_fmap in Hx as (y & -> & Hy).
      apply elem_of_app in Hy as [Hy|Hy]; f_equal; auto.
    + intros (-> & Hl & Hr).
      destruct (IHl _ _ Hl) as (Hl1 & Hl2 & Hl3).
      destruct (IHr _ _ Hr) as (Hr1 & Hr2 & Hr3).
      split_and!; try done; [auto|].
      intros x Hx. apply list_elem_of_fmap in Hx as (y & -> & Hy).
      apply elem_of_app in Hy as [Hy|Hy]; auto.
Qed.

Lemma Inv_red_black s t : Inv s t -> red_black t.
Proof.
  intros (_ & (m & Hrb) & Hs).
  destruct (rb_shape _ _ _ Hrb) as (H1 & H2 & H3).
  split_and!; [by apply H3|done| |done].
  intros x y Hx Hy. apply H2 in Hx, Hy. congruence.
Qed.

(** ** The size field *)

Lemma wrap64_small z : - 2 ^ 63 <= z < 2 ^ 63 -> wrap64 z = z.
Proof. intros Hz. unfold wrap64. rewrite Z.mod_small; lia. Qed.

Lemma wrap64_add a b : wrap64 (wrap64 a + b) = wrap64 (a + b).
Proof.
  unfold wrap64.
  replace ((a + 2 ^ 63) mod 2 ^ 64 - 2 ^ 63 + b + 2 ^ 63)
    with ((a + 2 ^ 63) mod 2 ^ 64 + b) by lia.
  rewrite Zplus_mod_idemp_l. f_equal. f_equal. lia.
Qed.

(** A well-formed state: the store represents a red-black search tree
    and [size] counts its nodes (modulo the width of [int]). *)
Definition WF (s : SetState) (t : tree) : Prop :=
  Inv s t /\ size s = wrap64 (Z.of_nat (length (inorder t))).

Lemma WF_NewSet : WF NewSet E.
Proof.
  split; [|reflexivity]. split; [|split].
  - split; [done|]. split; [done|constructor].
  - by exists O.
  - constructor.
Qed.

Lemma Insert_WF k s t :
  WF s t ->
  run (Insert k) s (fun b s' =>
    if b then
      ~ has_key k (inorder t) /\ size s' = wrap64 (size s + 1) /\
      exists t' l1 l2, WF s' t' /\ inorder t = l1 ++ l2 /\ inorder t' = l1 ++ k :: l2
    else has_key k (inorder t) /\ s' = s).
Proof.
  intros (HI & Hsz). eapply run_mono; [by apply Insert_spec|].
  intros [] s'; [|done].
  intros (Hk & Hsz' & t' & l1 & l2 & HI' & Hin & Hin').
  split_and!; try done. exists t', l1, l2. split_and!; try done.
  split; [done|]. rewrite Hsz', Hsz, wrap64_add, Hin, Hin', !length_app.
  simpl. f_equal. lia.
Qed.

Lemma Remove_WF k s t :
  WF s t ->
  run (Remove k) s (fun b s' =>
    if b then
      has_key k (inorder t) /\ size s' = wrap64 (size s - 1) /\
      exists t' l1 kz l2, WF s' t' /\ inorder t = l1 ++ kz :: l2 /\
        compare k kz = 0 /\ inorder t' = l1 ++ l2
    else ~ has_key k (inorder t) /\ s' = s).
Proof.
  intros (HI & Hsz). eapply run_mono; [by apply Remove_spec|].
  intros [] s'; [|done].
  intros (Hk & Hsz' & t' & l1 & kz & l2 & HI' & Hin & Hkz & Hin').
  split_and!; try done. exists t', l1, kz, l2. split_and!; try done.
  split; [done|]. rewrite Hsz', Hsz.
  replace (wrap64 (Z.of_nat (length (inorder t))) - 1)
    with (wrap64 (Z.of_nat (length (inorder t))) + (-1)) by lia.
  rewrite wrap64_add, Hin, Hin', !length_app. simpl. f_equal. lia.
Qed.

Lemma Clear_WF s : run Clear s (fun _ s' => WF s' E).
Proof. unfold Clear, run. simpl. apply WF_NewSet. Qed.

(** ** Reachable states *)

Inductive Op : Type :=
| OpInsert (k : Key)
| OpRemove (k : Key)
| OpClear.

Definition do_op (o : Op) : M unit :=
  match o with
  | OpInsert k => Insert k ;; ret tt
  | OpRemove k => Remove k ;; ret tt
  | OpClear => Clear
  end.

Fixpoint do_ops (ops : list Op) : M unit :=
  match ops with
  | [] => ret tt
  | o :: ops => do_op o ;; do_ops ops
  end.

Lemma do_op_WF o s t : WF s t -> run (do_op o) s (fun _ s' => exists t', WF s' t').
Proof.
  intros HW. destruct o as [k|k|]; simpl.
  - apply run_bind. eapply run_mono; [by apply Insert_WF|].
    intros [] s'.
    + intros (_ & _ & t' & ? & ? & HW' & _). apply run_ret. by exists t'.
    + intros (_ & ->). apply run_ret. by exists t.
  - apply run_bind. eapply run_mono; [by apply Remove_WF|].
    intros [] s'.
    + intros (_ & _ & t' & ? & ? & ? & HW' & _). apply run_ret. by exists t'.
    + intros (_ & ->). apply run_ret. by exists t.
  - eapply run_mono; [apply Clear_WF|]. intros [] s' HW'. by exists E.
Qed.

Lemma do_ops_WF ops : forall s t,
  WF s t -> run (do_ops ops) s (fun _ s' => exists t', WF s' t').
Proof.
  induction ops as [|o ops IH]; intros s t HW; simpl.
  - apply run_ret. by exists t.
  - apply run_bind. eapply run_mono; [by eapply do_op_WF|].
    intros [] s' (t' & HW'). by eapply IH.
Qed.

(** C1. Every state reached from the empty set by a sequence of Insert,
    Remove and Clear calls represents a tree whose root is black, in which
    no red node has a red child, all of whose root-to-leaf paths hold the
    same number of black nodes, and whose in-order key sequence is strictly
    increasing under the comparator; in particular every call of the
    sequence returns. *)
Theorem reachable_red_black (ops : list Op) :
  run (do_ops ops) NewSet (fun _ s =>
    exists t, Repr s t /\ root_black t /\ no_red_red t /\ black_balanced t
              /\ sorted (inorder t)).
Proof.
  eapply run_mono; [apply (do_ops_WF ops NewSet E), WF_NewSet|].
  intros [] s (t & HI & _). exists t. split; [by destruct HI|].
  by apply (Inv_red_black s).
Qed.

(** C3. In a well-formed set holding fewer than 2^63 - 1 keys, Insert(key)
    returns true exactly when no key comparing equal is present.  When it
    returns true, Size() has grown by one and a subsequent Contains(key)
    returns true; when it returns false, nothing has been mutated: the
    whole state (store, root, size) is the one before the call. *)
Theorem Insert_postcondition (s : SetState) (t : tree) (k : Key) :
  WF s t ->
  Z.of_nat (length (inorder t)) < 2 ^ 63 - 1 ->
  run (Insert k) s (fun b s' =>
    (b = true <-> ~ has_key k (inorder t)) /\
    if b then
      Size s' = Ok (size s + 1, s') /\
      run (Contains k) s' (fun b' s'' => b' = true /\ s'' = s')
    else s' = s).
Proof.
  intros HW Hlen. pose proof HW as (_ & Hsz).
  eapply run_mono; [by apply Insert_WF|].
  intros [] s'.
  - intros (Hk & Hsz' & t' & l1 & l2 & ((HR' & _ & Hs') & _) & Hin & Hin').
    split; [done|]. split.
    + unfold Size, get_size. do 2 f_equal. rewrite Hsz', Hsz.
      rewrite (wrap64_small (Z.of_nat _)) by lia. apply wrap64_small. lia.
    + eapply run_mono; [by apply Contains_spec|].
      intros b' s'' (-> & Hb'). split; [|done]. apply Hb'.
      exists k. split; [|apply compare_refl]. rewrite Hin'.
      apply elem_of_app. right. left.
  - intros (Hk & ->). split; [|done]. split; [done|]. intros Hn. by destruct Hn.
Qed.

(** C4. In a well-formed set holding fewer than 2^63 keys, Remove(key)
    returns true exactly when a key comparing equal is present.  When it
    returns true, Size() has shrunk by one and a subsequent Contains(key)
    returns false; when it returns false, the whole state (store, root,
    size, hence keys, shape and colours) is unchanged. *)
Theorem Remove_postcondition (s : SetState) (t : tree) (k : Key) :
  WF s t ->
  Z.of_nat (length (inorder t)) < 2 ^ 63 ->
  run (Remove k) s (fun b s' =>
    (b = true <-> has_key k (inorder t)) /\
    if b then
      Size s' = Ok (size s - 1, s') /\
      run (Contains k) s' (fun b' s'' => b' = false /\ s'' = s')
    else s' = s).
Proof.
  intros HW Hlen. pose proof HW as ((_ & _ & Hs) & Hsz).
  eapply run_mono; [by apply Remove_WF|].
  intros [] s'.
  - intros (Hk & Hsz' & t' & l1 & kz & l2 & ((HR' & _ & Hs') & _) & Hin & Hkz & Hin').
    split; [done|]. split.
    + unfold Size, get_size. do 2 f_equal. rewrite Hsz', Hsz.
      rewrite (wrap64_small (Z.of_nat _)) by lia. apply wrap64_small.
      rewrite Hin, length_app in Hlen |- *. cbn [length] in Hlen |- *. lia.
    + eapply run_mono; [by apply Contains_spec|].
      intros b' s'' (-> & Hb'). split; [|done].
      destruct b'; [|done]. exfalso.
      eapply (sorted_remove_no_key k l1 kz l2); [by rewrite <- Hin|done|].
      rewrite <- Hin'. by apply Hb'.
  - intros (Hk & ->). split; [|done]. split; [done|]. intros Hn. by destruct Hk.
Qed.

(** ** The calls of deleteFixup made by delete *)

(** [delete] up to, and without, its final [if y.color == Black]: the
    node [y] is unlinked and its key moved; the result is the pair
    [(x, y)]. *)
Definition unlink_from (y z : ptr) : M (ptr * ptr) :=
  do yl <- get_left y;
  do x <- (if yl is Some _ then ret yl else get_right y);
  (if x is Some _ then do yp <- get_parent y; set_parent x yp else ret tt) ;;
  do yp <- get_parent y;
  (if yp is None then set_root x
   else do ypl <- get_left yp;
        if ptr_eqb y ypl then set_left yp x else set_right yp x) ;;
  (if negb (ptr_eqb y z) then do yk <- get_key y; set_key z yk else ret tt) ;;
  ret (x, y).

Definition delete_unlink (z : ptr) : M (ptr * ptr) :=
  do zl <- get_left z;
  do y <- (if zl is None then ret z
           else do zr <- get_right z;
                if zr is None then ret z else successor z);
  unlink_from y z.

Lemma bind_assoc_at {A B C} (m : M A) (f : A -> M B) (g : B -> M C) s :
  bind (bind m f) g s = bind m (fun a => bind (f a) g) s.
Proof. unfold bind. by destruct (m s) as [[a s']| |]. Qed.

Lemma bind_ext_at {A B} (m : M A) (f g : A -> M B) s :
  (forall a s', f a s' = g a s') -> bind m f s = bind m g s.
Proof. intros H. unfold bind. by destruct (m s) as [[a s']| |]. Qed.

(** [delete] is [delete_unlink] followed by the conditional call of
    [deleteFixup]. *)
Lemma delete_unlink_eq z s :
  delete z s =
  (do xy <- delete_unlink z;
   do yc <- get_color (snd xy);
   if color_eqb yc Black then
     do yp <- get_parent (snd xy);
     deleteFixup (fst xy) yp
   else ret tt) s.
Proof.
  unfold delete, delete_unlink, unlink_from.
  repeat (rewrite bind_assoc_at; apply bind_ext_at; intros ? ?).
  reflexivity.
Qed.

Lemma unlink_from_spec s cy cy' y yc yl yk yr xt z :
  Repr s (plug cy (T y yc yl yk yr)) ->
  (yl = E /\ xt = yr) \/ (yr = E /\ xt = yl) ->
  (forall s1 ny (P : unit -> SetState -> Prop),
     Repr s1 (plug cy xt) -> heap s1 !! y = Some ny -> key ny = yk ->
     (forall s2, Repr s2 (plug cy' xt) -> heap s2 !! y = Some ny ->
                 size s2 = size s1 -> P tt s2) ->
     run (if negb (ptr_eqb (Some y) z)
          then do yk <- get_key (Some y); set_key z yk else ret tt) s1 P) ->
  run (unlink_from (Some y) z) s (fun xy s' =>
    xy = (ptr_of xt, Some y) /\ Repr s' (plug cy' xt)
    /\ heap s' !! y = Some (mkNode yk yc (ptr_of yl) (ptr_of yr) (caddr cy))).
Proof.
  intros HR Hxt Hkey. unfold unlink_from.
  repeat tstep.
  assert (Hx : forall P' : ptr -> SetState -> Prop,
    P' (ptr_of xt) s ->
    run (if ptr_of yl is Some _ then ret (ptr_of yl) else get_right (Some y)) s P').
  { intros P' HP'. destruct Hxt as [(-> & ->)|(-> & ->)].
    - simpl. by repeat tstep.
    - destruct yl; simpl; by repeat tstep. }
  apply Hx. clear Hx.
  pose proof HR as HZ. apply Repr_plug in HZ.
  eapply (splice_spec s cy y yc yl yk yr xt); [exact HZ|exact Hxt|].
  intros s1 HR1 Hy1 Hsz1. apply Repr_plug in HR1.
  apply run_bind. eapply Hkey; [exact HR1|exact Hy1|done|].
  intros s2 HR2 Hy2 Hsz2. by apply run_ret.
Qed.

Lemma unlink_fixable cy cy' y yl yk yr xt m :
  rb (plug cy (T y Black yl yk yr)) Red m ->
  (yl = E /\ xt = yr) \/ (yr = E /\ xt = yl) ->
  (forall n, rbc cy n -> rbc cy' n) ->
  exists n, fixable xt n /\ rbc cy' (S n).
Proof.
  intros Hrb Hxt Hrbc. apply rb_plug_inv in Hrb as (n & Hc & Hn).
  simpl in Hn. destruct n as [|n]; [done|]. destruct Hn as (Hyl & Hyr).
  exists n. split; [|by apply Hrbc].
  destruct Hxt as [(-> & ->)|(-> & ->)]; by apply rb_fixable.
Qed.

Lemma delete_unlink_spec ctx z c l k r s m :
  Repr s (plug ctx (T z c l k r)) ->
  rb (plug ctx (T z c l k r)) Red m ->
  run (delete_unlink (Some z)) s (fun xy s' =>
    exists cy' xt ya yn,
      xy = (ptr_of xt, Some ya) /\ Repr s' (plug cy' xt)
      /\ heap s' !! ya = Some yn /\ parent yn = caddr cy'
      /\ (color yn = Black -> exists n, fixable xt n /\ rbc cy' (S n))).
Proof.
  intros HR Hrb. unfold delete_unlink. repeat tstep.
  assert (Hsame : (l = E \/ r = E) ->
    run (unlink_from (Some z) (Some z)) s (fun xy s' =>
      exists cy' xt ya yn,
        xy = (ptr_of xt, Some ya) /\ Repr s' (plug cy' xt)
        /\ heap s' !! ya = Some yn /\ parent yn = caddr cy'
        /\ (color yn = Black -> exists n, fixable xt n /\ rbc cy' (S n)))).
  { intros Hlr.
    assert (exists xt, (l = E /\ xt = r) \/ (r = E /\ xt = l)) as (xt & Hxt).
    { destruct Hlr as [-> | ->]; [exists r|exists l]; tauto. }
    eapply run_mono.
    { eapply (unlink_from_spec s ctx ctx z c l k r xt (Some z)); try done.
      intros s1 ny P HR1 Hy1 Hk HP. unfold ptr_eqb.
      rewrite bool_decide_eq_true_2 by done. apply run_ret. by apply HP. }
    intros xy s' (-> & HR' & Hy'). eexists ctx, xt, z, _.
    split_and!; [done|done|exact Hy'|done|]. simpl. intros ->.
    by eapply unlink_fixable. }
  destruct l as [|la lc ll lk lr]; cbn [ptr_of].
  { apply run_ret. apply Hsame. by left. }
  repeat tstep.
  destruct r as [|ra rc rl rk rr]; cbn [ptr_of].
  { apply run_ret. apply Hsame. by right. }
  clear Hsame. unfold successor. repeat tstep.
  eapply run_mono.
  { eapply (minimum_spec (FR z c (T la lc ll lk lr) k :: ctx)). exact HR. }
  intros y s' (-> & cr & ya & yc & yk & yr & -> & Hr & Hcr).
  rewrite Hr in *. clear Hr.
  change (plug ctx (T z c (T la lc ll lk lr) k (plug cr (T ya yc E yk yr))))
    with (plug (FR z c (T la lc ll lk lr) k :: ctx) (plug cr (T ya yc E yk yr))) in *.
  rewrite <- plug_app in *.
  pose proof (Repr_ctx_ne _ _ _ _ _ _ _ _ _ HR) as Hne. simpl in Hne.
  eapply run_mono.
  { eapply (unlink_from_spec s (cr ++ FR z c (T la lc ll lk lr) k :: ctx)
              (cr ++ FR z c (T la lc ll lk lr) yk :: ctx) ya yc E yk yr yr (Some z));
      [exact HR|by left|].
    intros s1 ny P HR1 Hy1 Hk HP. unfold ptr_eqb.
    rewrite bool_decide_eq_false_2 by congruence. cbn [negb].
    apply run_bind. eapply run_get_key; [exact Hy1|]. rewrite Hk.
    rewrite plug_app in HR1. cbn [plug fill] in HR1.
    pose proof (Repr_lookup _ _ _ _ _ _ _ HR1) as Hz.
    eapply run_set_key; [exact Hz|]. cbn [key color left right parent].
    apply HP.
    - rewrite plug_app. cbn [plug fill]. apply Repr_plug.
      apply Repr_plug in HR1.
      exact (ZRepr_set_focus _ _ _ _ _ _ _ c yk HR1).
    - simpl. by rewrite lookup_insert_ne.
    - done. }
  intros xy s2 (-> & HR2 & Hy2).
  eexists (cr ++ FR z c (T la lc ll lk lr) yk :: ctx), yr, ya, _.
  split_and!; [done|done|exact Hy2|by destruct cr|]. simpl. intros ->.
  eapply unlink_fixable; [exact Hrb|by left|apply rbc_rekey].
Qed.

(** The states at the head of the loop of a call [deleteFixup(x0, p0)]
    started in [s0]; each one but the first is reached by running the
    loop body from a state in which the loop test held. *)
Inductive dfix_iter (s0 : SetState) (x0 p0 : ptr) : SetState -> ptr -> ptr -> Prop :=
| dfix_iter_start : dfix_iter s0 x0 p0 s0 x0 p0
| dfix_iter_next s x p s' x' p' :
    dfix_iter s0 x0 p0 s x p ->
    deleteFixup_cond x s = Ok (true, s) ->
    deleteFixup_body x p s = Ok ((x', p'), s') ->
    dfix_iter s0 x0 p0 s' x' p'.

(** The loop invariant: [x] is a fixable position whose parent is
    [p]. *)
Definition dfix_inv (s : SetState) (x p : ptr) : Prop :=
  exists ctx xt n,
    Repr s (plug ctx xt) /\ x = ptr_of xt /\ (ctx = [] \/ p = caddr ctx)
    /\ fixable xt n /\ rbc ctx (S n).

Lemma run_Ok_inv {A} (m : M A) s P a s' : run m s P -> m s = Ok (a, s') -> P a s'.
Proof. unfold run. intros H Heq. by rewrite Heq in H. Qed.

Lemma dfix_inv_cond s x p :
  dfix_inv s x p -> deleteFixup_cond x s = Ok (true, s) ->
  exists f ctx xt n,
    Repr s (plug (f :: ctx) xt) /\ x = ptr_of xt /\ p = Some (faddr f)
    /\ is_red_tree xt = false /\ fixable xt n /\ rbc (f :: ctx) (S n).
Proof.
  intros (ctx & xt & n & HR & -> & Hp & Hx & Hc) Hcond.
  pose proof (run_Ok_inv _ _ _ _ _ (deleteFixup_cond_spec s ctx xt HR) Hcond) as (_ & Hb).
  destruct ctx as [|f ctx]; [done|]. destruct Hp as [?| ->]; [done|].
  exists f, ctx, xt, n. split_and!; try done. by destruct (is_red_tree xt).
Qed.

Lemma dfix_iter_inv s0 x0 p0 s x p :
  dfix_inv s0 x0 p0 -> dfix_iter s0 x0 p0 s x p -> dfix_inv s x p.
Proof.
  intros H0. induction 1 as [|s x p s' x' p' _ IH Hcond Hbody]; [done|].
  destruct (dfix_inv_cond _ _ _ IH Hcond)
    as (f & ctx & xt & n & HR & -> & -> & Hred & Hx & Hc).
  pose proof (run_Ok_inv _ _ _ _ _
    (deleteFixup_body_spec s f ctx xt n HR Hred Hx Hc) Hbody)
    as (_ & ctx' & xt' & n' & HR' & Hx' & Hp' & _ & Hc' & Hf' & _).
  by exists ctx', xt', n'.
Qed.

(** C8. Let [delete(z)] run on a node [z] of a red-black tree, let
    [(x, y)] be the replacement child and the unlinked node, and suppose
    [y] is black, so that [deleteFixup(x, y.parent)] is called.  Take any
    iteration of its loop: a loop-head state, reached from the start of
    the call by running the loop body any number of times, in which the
    loop test holds.  Then

    - the sibling [w] of [x], read as [parent.right] or [parent.left], is
      a non-nil pointer to an allocated node;
    - the whole iteration runs to its end: the body returns, so none of
      its field reads and writes is on nil (a read or write through nil
      is [Panic] in this model) -- the read of [w.color], the reads of
      [w.left] and [w.right] and of their colours, the rotations, and
      the sibling read again ([w = parent.right], [w = parent.left])
      after each rotation; the state it leaves is again a loop-head
      state of the same call;
    - the call [deleteFixup(x, y.parent)] as a whole returns. *)
Theorem deleteFixup_sibling_non_nil
    (ctx : list frame) (z : addr) (c : Color) (l : tree) (k : Key) (r : tree)
    (m : nat) (s s1 s2 : SetState) (xy : ptr * ptr) (yn : Node) (x p : ptr) :
  Repr s (plug ctx (T z c l k r)) ->
  rb (plug ctx (T z c l k r)) Red m ->
  delete_unlink (Some z) s = Ok (xy, s1) ->
  load (snd xy) s1 = Ok (yn, s1) ->
  color yn = Black ->
  dfix_iter s1 (fst xy) (parent yn) s2 x p ->
  deleteFixup_cond x s2 = Ok (true, s2) ->
  (exists w wn,
     deleteFixup_sibling x p s2 = Ok (Some w, s2) /\
     load (Some w) s2 = Ok (wn, s2)) /\
  (exists x' p' s3,
     deleteFixup_body x p s2 = Ok ((x', p'), s3) /\
     dfix_iter s1 (fst xy) (parent yn) s3 x' p') /\
  (exists s', deleteFixup (fst xy) (parent yn) s1 = Ok (tt, s')).
Proof.
  intros HR Hrb Hunlink Hload Hblack Hiter Hcond.
  pose proof (run_Ok_inv _ _ _ _ _ (delete_unlink_spec _ _ _ _ _ _ _ _ HR Hrb) Hunlink)
    as (cy' & xt & ya & yn' & -> & HR1 & Hy & Hp & Hfix).
  simpl in *. unfold load in Hload. rewrite Hy in Hload. simplify_eq.
  destruct (Hfix Hblack) as (n & Hx & Hc).
  assert (Hinv : dfix_inv s1 (ptr_of xt) (parent yn)).
  { exists cy', xt, n. split_and!; try done. by right. }
  pose proof (dfix_iter_inv _ _ _ _ _ _ Hinv Hiter) as Hinv2.
  destruct (dfix_inv_cond _ _ _ Hinv2 Hcond)
    as (f & ctx2 & xt2 & n2 & HR2 & -> & -> & Hred & Hx2 & Hc2).
  split; [|split].
  - pose proof (deleteFixup_sibling_spec s2 f ctx2 xt2 n2 HR2 Hred Hx2 Hc2) as Hs.
    apply run_Ok in Hs as (w & s' & Hw & -> & -> & Hne).
    destruct f as [pa pc pk [|wa wc wl wk wr]|pa pc [|wa wc wl wk wr] pk];
      cbn [fsib ptr_of] in *; try done; eexists wa, _; (split; [exact Hw|]);
      unfold load.
    + by rewrite (Repr_lookup s2 (FR pa pc xt2 pk :: ctx2) wa wc wl wk wr HR2).
    + by rewrite (Repr_lookup s2 (FL pa pc pk xt2 :: ctx2) wa wc wl wk wr HR2).
  - pose proof (deleteFixup_body_spec s2 f ctx2 xt2 n2 HR2 Hred Hx2 Hc2) as Hb.
    apply run_Ok in Hb as ([x' p'] & s3 & Hb & _).
    exists x', p', s3. split; [exact Hb|].
    exact (dfix_iter_next _ _ _ _ _ _ _ _ _ Hiter Hcond Hb).
  - rewrite Hp.
    pose proof (deleteFixup_spec cy' xt n s1 HR1 Hx Hc) as Hd.
    apply run_Ok in Hd as ([] & s' & Hd & _). by exists s'.
Qed.

(** ** successor and predecessor *)

(** The node in focus has its in-order successors in its right subtree
    and then in the part of the context after the hole. *)
Definition next_of (t0 : tree) (rest : list Key) (y : ptr) : Prop :=
  match y with
  | None => rest = []
  | Some ya =>
    exists ctx' yc yl yk yr,
      plug ctx' (T ya yc yl yk yr) = t0 /\ rest = yk :: inorder yr ++ cafter ctx'
  end.

Definition prev_of (t0 : tree) (rest : list Key) (y : ptr) : Prop :=
  match y with
  | None => rest = []
  | Some ya =>
    exists ctx' yc yl yk yr,
      plug ctx' (T ya yc yl yk yr) = t0 /\ rest = (cbefore ctx' ++ inorder yl) ++ [yk]
  end.

Lemma successor_loop_spec fuel : forall ctx a c l k r s,
  (length ctx < fuel)%nat ->
  Repr s (plug ctx (T a c l k r)) ->
  run (successor_loop fuel (Some a) (caddr ctx)) s (fun y s' =>
    s' = s /\ next_of (plug ctx (T a c l k r)) (cafter ctx) y).
Proof.
  induction fuel as [|fuel IH]; intros ctx a c l k r s Hfuel HR; [lia|].
  cbn [successor_loop]. unfold ptr_eqb.
  destruct ctx as [|[p cp kp pr|p cp pl kp] ctx]; cbn [caddr faddr].
  - by apply run_ret.
  - repeat tstep. split; [done|]. by exists ctx, cp, (T a c l k r), kp, pr.
  - repeat tstep. simpl in Hfuel.
    eapply run_mono.
    { apply (IH ctx p cp pl kp (T a c l k r) s); [lia|exact HR]. }
    intros y s' (-> & Hy). done.
Qed.

Lemma successor_spec ctx a c l k r s :
  Repr s (plug ctx (T a c l k r)) ->
  run (successor (Some a)) s (fun y s' =>
    s' = s /\ next_of (plug ctx (T a c l k r)) (inorder r ++ cafter ctx) y).
Proof.
  intros HR. unfold successor. repeat tstep.
  destruct r as [|ra rc rl rk rr]; cbn [ptr_of].
  - repeat tstep. apply run_with_fuel. eapply run_mono.
    { apply (successor_loop_spec _ ctx a c l k E s); [|exact HR].
      pose proof (Repr_fuel _ _ _ HR). lia. }
    intros y s' (-> & Hy). done.
  - eapply run_mono.
    { eapply (minimum_spec (FR a c l k :: ctx)). exact HR. }
    intros y s' (-> & cr & ya & yc & yk & yr & -> & Hr & Hcr).
    split; [done|]. cbn [next_of].
    exists (cr ++ FR a c l k :: ctx), yc, E, yk, yr. split.
    + by rewrite plug_app, <- Hr.
    + rewrite Hr, inorder_plug, cafter_app, (cbefore_FL cr) by done. simpl.
      by rewrite <- !app_assoc.
Qed.

Lemma predecessor_loop_spec fuel : forall ctx a c l k r s,
  (length ctx < fuel)%nat ->
  Repr s (plug ctx (T a c l k r)) ->
  run (predecessor_loop fuel (Some a) (caddr ctx)) s (fun y s' =>
    s' = s /\ prev_of (plug ctx (T a c l k r)) (cbefore ctx) y).
Proof.
  induction fuel as [|fuel IH]; intros ctx a c l k r s Hfuel HR; [lia|].
  cbn [predecessor_loop]. unfold ptr_eqb.
  destruct ctx as [|[p cp kp pr|p cp pl kp] ctx]; cbn [caddr faddr].
  - by apply run_ret.
  - repeat tstep. simpl in Hfuel.
    eapply run_mono.
    { apply (IH ctx p cp (T a c l k r) kp pr s); [lia|exact HR]. }
    intros y s' (-> & Hy). done.
  - repeat tstep. split; [done|]. exists ctx, cp, pl, kp, (T a c l k r).
    split; [done|]. simpl. by rewrite <- !app_assoc.
Qed.

Lemma predecessor_spec ctx a c l k r s :
  Repr s (plug ctx (T a c l k r)) ->
  run (predecessor (Some a)) s (fun y s' =>
    s' = s /\ prev_of (plug ctx (T a c l k r)) (cbefore ctx ++ inorder l) y).
Proof.
  intros HR. unfold predecessor. repeat tstep.
  destruct l as [|la lc ll lk lr]; cbn [ptr_of].
  - repeat tstep. apply run_with_fuel. eapply run_mono.
    { apply (predecessor_loop_spec _ ctx a c E k r s); [|exact HR].
      pose proof (Repr_fuel _ _ _ HR). lia. }
    intros y s' (-> & Hy). split; [done|]. simpl. by rewrite app_nil_r.
  - eapply run_mono.
    { eapply (maximum_spec (FL a c k r :: ctx)). exact HR. }
    intros y s' (-> & cr & ya & yc & yl & yk & -> & Hl & Hcr).
    split; [done|]. cbn [prev_of].
    exists (cr ++ FL a c k r :: ctx), yc, yl, yk, E. split.
    + by rewrite plug_app, <- Hl.
    + rewrite Hl, inorder_plug, cbefore_app, (cafter_FR cr) by done. simpl.
      by rewrite app_nil_r, <- !app_assoc.
Qed.

(** ** Iteration

    The traversal a caller writes with an iterator:

      for it := s.Begin(); it.Valid(); it.Next() { out = append(out, it.Value()) }

    [iterate] is that loop from a given cursor; [to_list] starts it at
    [Begin], [to_rlist] at [RBegin]. *)

Fixpoint iterate (fuel : nat) (it : Iterator) : M (list Key) :=
  match fuel with
  | O => diverge
  | S fuel =>
    do v <- Valid it;
    if v then
      do k <- Value it;
      do bi <- Next it;
      do ks <- iterate fuel (snd bi);
      ret (k :: ks)
    else ret []
  end.

Definition to_list : M (list Key) :=
  do it <- Begin; with_fuel (fun fuel => iterate fuel it).

Definition to_rlist : M (list Key) :=
  do it <- RBegin; with_fuel (fun fuel => iterate fuel it).

Fixpoint insert_all (ks : list Key) : M unit :=
  match ks with
  | [] => ret tt
  | k :: ks => Insert k ;; insert_all ks
  end.

(** No two keys of the list compare equal. *)
Fixpoint distinct (ks : list Key) : Prop :=
  match ks with
  | [] => True
  | k :: ks => ~ has_key k ks /\ distinct ks
  end.

Lemma length_inorder t : length (inorder t) = length (addrs t).
Proof.
  induction t as [|a c l IHl k r IHr]; simpl; [done|].
  rewrite !length_app. simpl. lia.
Qed.

Lemma iterate_forward fuel : forall t s rest y,
  Repr s t ->
  next_of t rest y ->
  (length rest < fuel)%nat ->
  run (iterate fuel (mkIter y false)) s (fun ks s' => s' = s /\ ks = rest).
Proof.
  induction fuel as [|fuel IH]; intros t s rest y HR Hy Hfuel; [lia|].
  cbn [iterate]. unfold Valid, Value, Next. cbn [node reverse].
  destruct y as [ya|]; cbn [next_of] in Hy.
  - destruct Hy as (ctx & yc & yl & yk & yr & <- & ->).
    apply run_bind, run_ret.
    repeat tstep.
    eapply run_mono; [by apply (successor_spec ctx ya yc yl yk yr s)|].
    intros y s' (-> & Hy). apply run_ret. cbn [snd]. apply run_bind.
    eapply run_mono.
    { apply (IH _ s _ y HR Hy). simpl in Hfuel. lia. }
    intros ks s' (-> & ->). by apply run_ret.
  - subst rest. apply run_bind, run_ret. by apply run_ret.
Qed.

Lemma iterate_backward fuel : forall t s rest y,
  Repr s t ->
  prev_of t rest y ->
  (length rest < fuel)%nat ->
  run (iterate fuel (mkIter y true)) s (fun ks s' => s' = s /\ ks = rev rest).
Proof.
  induction fuel as [|fuel IH]; intros t s rest y HR Hy Hfuel; [lia|].
  cbn [iterate]. unfold Valid, Value, Next. cbn [node reverse].
  destruct y as [ya|]; cbn [prev_of] in Hy.
  - destruct Hy as (ctx & yc & yl & yk & yr & <- & ->).
    apply run_bind, run_ret.
    repeat tstep.
    eapply run_mono; [by apply (predecessor_spec ctx ya yc yl yk yr s)|].
    intros y s' (-> & Hy). apply run_ret. cbn [snd]. apply run_bind.
    eapply run_mono.
    { apply (IH _ s _ y HR Hy). rewrite length_app in Hfuel. simpl in Hfuel. lia. }
    intros ks s' (-> & ->). apply run_ret. split; [done|].
    by rewrite rev_unit.
  - subst rest. apply run_bind, run_ret. by apply run_ret.
Qed.

Lemma Begin_spec s t :
  Repr s t ->
  run Begin s (fun it s' =>
    s' = s /\ reverse it = false /\ next_of t (inorder t) (node it)).
Proof.
  intros HR. unfold Begin. apply run_bind, run_get_root.
  destruct HR as (Hroot & Hwf & Hnd). rewrite Hroot.
  destruct t as [|a c l k r]; cbn [ptr_of].
  - by apply run_ret.
  - apply run_bind. eapply run_mono.
    { apply (minimum_spec [] a c l k r s). by split. }
    intros y s' (-> & cr & ya & yc & yk & yr & -> & Ht & Hcr).
    apply run_ret. split_and!; [done..|]. cbn [node next_of].
    exists cr, yc, E, yk, yr. split; [done|].
    by rewrite Ht, inorder_plug, (cbefore_FL cr).
Qed.

Lemma RBegin_spec s t :
  Repr s t ->
  run RBegin s (fun it s' =>
    s' = s /\ reverse it = true /\ prev_of t (inorder t) (node it)).
Proof.
  intros HR. unfold RBegin. apply run_bind, run_get_root.
  destruct HR as (Hroot & Hwf & Hnd). rewrite Hroot.
  destruct t as [|a c l k r]; cbn [ptr_of].
  - by apply run_ret.
  - apply run_bind. eapply run_mono.
    { apply (maximum_spec [] a c l k r s). by split. }
    intros y s' (-> & cr & ya & yc & yl & yk & -> & Ht & Hcr).
    apply run_ret. split_and!; [done..|]. cbn [node prev_of].
    exists cr, yc, yl, yk, E. split; [done|].
    rewrite Ht, inorder_plug, (cafter_FR cr) by done. simpl.
    by rewrite app_nil_r, <- !app_assoc.
Qed.

Lemma to_list_spec s t :
  Repr s t -> run to_list s (fun ks s' => s' = s /\ ks = inorder t).
Proof.
  intros HR. unfold to_list. apply run_bind.
  eapply run_mono; [by apply Begin_spec|].
  intros [y rv] s' (-> & Hrv & Hy). simpl in Hrv, Hy. subst rv.
  apply run_with_fuel. apply (iterate_forward _ t); [done..|].
  pose proof (Repr_size _ _ HR). rewrite length_inorder. lia.
Qed.

Lemma to_rlist_spec s t :
  Repr s t -> run to_rlist s (fun ks s' => s' = s /\ ks = rev (inorder t)).
Proof.
  intros HR. unfold to_rlist. apply run_bind.
  eapply run_mono; [by apply RBegin_spec|].
  intros [y rv] s' (-> & Hrv & Hy). simpl in Hrv, Hy. subst rv.
  apply run_with_fuel. apply (iterate_backward _ t); [done..|].
  pose proof (Repr_size _ _ HR). rewrite length_inorder. lia.
Qed.

Lemma has_key_perm k l l' : l ≡ₚ l' -> has_key k l -> has_key k l'.
Proof.
  intros Hp (k' & Hin & Hk). exists k'. split; [|done]. by rewrite <- Hp.
Qed.

Lemma has_key_cons k k' l : has_key k (k' :: l) <-> compare k k' = 0 \/ has_key k l.
Proof.
  unfold has_key. setoid_rewrite elem_of_cons. split.
  - intros (x & [->|Hx] & Hk); eauto.
  - intros [Hk|(x & Hx & Hk)]; eauto.
Qed.

Lemma distinct_perm l l' : l ≡ₚ l' -> distinct l -> distinct l'.
Proof.
  induction 1 as [|x l l' Hp IH|x y l|l l' l'' _ IH1 _ IH2]; simpl.
  - done.
  - intros (Hx & Hl). split; [|by apply IH].
    intros Hk. apply Hx. by apply (has_key_perm x l' l).
  - rewrite !has_key_cons. intros (Hy & Hx & Hl). split_and!; [|tauto|done].
    intros [Hxy|Hxl]; [|tauto]. apply Hy. left. by apply compare_sym_eq.
  - auto.
Qed.

Lemma insert_all_spec ks : forall s t,
  WF s t ->
  distinct (ks ++ inorder t) ->
  run (insert_all ks) s (fun _ s' =>
    exists t', WF s' t' /\ inorder t' ≡ₚ ks ++ inorder t).
Proof.
  induction ks as [|k ks IH]; intros s t HW Hd; cbn [insert_all].
  - apply run_ret. by exists t.
  - apply run_bind. eapply run_mono; [by apply Insert_WF|].
    intros [] s'.
    + intros (_ & _ & t' & l1 & l2 & HW' & Ht & Ht').
      assert (Hp : ks ++ inorder t' ≡ₚ (k :: ks) ++ inorder t).
      { rewrite Ht, Ht'. by solve_Permutation. }
      eapply run_mono.
      { apply (IH s' t' HW'). apply (distinct_perm _ _ (symmetry Hp)). exact Hd. }
      intros [] s'' (t'' & HW'' & Hp''). exists t''. split; [done|].
      by rewrite Hp''.
    + intros (Hk & _). destruct Hd as (Hd & _). exfalso. apply Hd.
      destruct Hk as (k' & Hin & Hk). exists k'. split; [|done].
      apply elem_of_app. by right.
Qed.

(** C5.  Insert pairwise-distinct keys, in any order, into a fresh set.
    The traversal from [Begin] by [Next] until the cursor is invalid then
    yields exactly those keys, strictly ascending under the comparator,
    and the traversal from [RBegin] by [Next] yields the reverse of that
    sequence.  Neither traversal changes the set. *)
Theorem iteration_round_trip (ks : list Key) :
  distinct ks ->
  run (insert_all ks) NewSet (fun _ s =>
    run to_list s (fun fwd s1 =>
      run to_rlist s1 (fun bwd s2 =>
        sorted fwd /\ fwd ≡ₚ ks /\ bwd = rev fwd /\ s1 = s /\ s2 = s))).
Proof.
  intros Hd. eapply run_mono.
  { apply (insert_all_spec ks NewSet E WF_NewSet). simpl. by rewrite app_nil_r. }
  intros [] s (t & ((HR & _ & Hs) & _) & Hp). simpl in Hp. rewrite app_nil_r in Hp.
  eapply run_mono; [by apply to_list_spec|].
  intros fwd s1 (-> & ->).
  eapply run_mono; [by apply to_rlist_spec|].
  intros bwd s2 (-> & ->). done.
Qed.

(** ** Cursor operations *)

Lemma Value_at s ctx a c l k r rv :
  Repr s (plug ctx (T a c l k r)) -> Value (mkIter (Some a) rv) s = Ok (k, s).
Proof.
  intros HR. apply Repr_lookup in HR.
  unfold Value, get_key, bind, load. cbn [node]. by rewrite HR.
Qed.

Lemma sorted_last l k x : sorted (l ++ [k]) -> x ∈ l ++ [k] -> compare x k <= 0.
Proof.
  unfold sorted. rewrite StronglySorted_app. intros (H & _ & _).
  rewrite elem_of_app, list_elem_of_singleton. intros [Hx| ->].
  - specialize (H x k Hx). unfold lt in H. rewrite list_elem_of_singleton in H.
    specialize (H eq_refl). lia.
  - rewrite compare_refl. lia.
Qed.

Lemma sorted_first l k x : sorted (k :: l) -> x ∈ k :: l -> compare k x <= 0.
Proof.
  unfold sorted. rewrite StronglySorted_cons. intros (H & _).
  rewrite elem_of_cons. intros [->|Hx].
  - rewrite compare_refl. lia.
  - rewrite Forall_forall in H. specialize (H x Hx). unfold lt in H. lia.
Qed.

(** C6.  On a non-empty set, [Prev] on the [End] cursor returns true and
    leaves the cursor on the greatest key; on the [REnd] cursor it returns
    true and leaves the cursor on the least key.  The set is unchanged and
    the cursor keeps its direction. *)
Theorem Prev_from_sentinel (s : SetState) (t : tree) :
  WF s t -> t <> E ->
  run End s (fun it s1 =>
    run (Prev it) s1 (fun bi s2 =>
      s2 = s /\ fst bi = true /\ reverse (snd bi) = false /\
      Valid (snd bi) s = Ok (true, s) /\
      exists k, Value (snd bi) s = Ok (k, s) /\ k ∈ inorder t /\
                forall x, x ∈ inorder t -> compare x k <= 0)) /\
  run REnd s (fun it s1 =>
    run (Prev it) s1 (fun bi s2 =>
      s2 = s /\ fst bi = true /\ reverse (snd bi) = true /\
      Valid (snd bi) s = Ok (true, s) /\
      exists k, Value (snd bi) s = Ok (k, s) /\ k ∈ inorder t /\
                forall x, x ∈ inorder t -> compare k x <= 0)).
Proof.
  intros ((HR & _ & Hs) & _) Hne.
  destruct t as [|a c l k r]; [done|].
  pose proof HR as (Hroot & _). cbn [ptr_of] in Hroot.
  split; apply run_ret; unfold Prev; cbn [node reverse];
    apply run_bind, run_get_root; rewrite Hroot; apply run_bind.
  - eapply run_mono; [by apply (maximum_spec [] a c l k r s)|].
    intros y s' (-> & cr & ya & yc & yl & yk & -> & Ht & Hcr).
    apply run_ret. cbn [fst snd reverse]. split_and!; [done..|].
    rewrite Ht in HR, Hs |- *. exists yk. split; [by apply (Value_at s cr ya yc yl yk E)|].
    rewrite inorder_plug, (cafter_FR cr) in Hs |- * by done.
    simpl in Hs |- *. rewrite app_nil_r, app_assoc in Hs |- *. split.
    + apply elem_of_app. right. by apply list_elem_of_singleton.
    + intros x. by apply sorted_last.
  - eapply run_mono; [by apply (minimum_spec [] a c l k r s)|].
    intros y s' (-> & cr & ya & yc & yk & yr & -> & Ht & Hcr).
    apply run_ret. cbn [fst snd reverse]. split_and!; [done..|].
    rewrite Ht in HR, Hs |- *. exists yk. split; [by apply (Value_at s cr ya yc E yk yr)|].
    rewrite inorder_plug, (cbefore_FL cr) in Hs |- * by done.
    simpl in Hs |- *. split.
    + by left.
    + intros x. by apply sorted_first.
Qed.

(** C7.  [Next] on a cursor whose node is nil, forward or reverse, returns
    false; the cursor is the same sentinel afterwards, still invalid, and
    the set is unchanged. *)
Theorem Next_from_sentinel (s : SetState) (rv : bool) :
  Next (mkIter None rv) s = Ok ((false, mkIter None rv), s) /\
  Valid (mkIter None rv) s = Ok (false, s).
Proof. done. Qed.

(** C9, as the code has it.  At a sentinel [Value] returns nil; at a node
    it returns the key stored there, whatever that key is, so a result
    other than nil shows that the cursor is on a node.  [Valid] returns
    true exactly when the cursor is on a node. *)
Theorem Value_Valid_observability (it : Iterator) (s : SetState) :
  (node it = None -> Value it s = Ok (None, s)) /\
  (forall a nd, node it = Some a -> heap s !! a = Some nd ->
     Value it s = Ok (key nd, s)) /\
  (forall v s', Value it s = Ok (Some v, s') -> node it <> None) /\
  (Valid it s = Ok (true, s) <-> node it <> None) /\
  (Valid it s = Ok (false, s) <-> node it = None).
Proof.
  destruct it as [[a|] rv]; unfold Value, Valid; cbn [node]; split_and!; try done.
  intros a' nd [= <-] Hnd. unfold get_key, bind, load. by rewrite Hnd.
Qed.

(** C2 fails for [Prev] on a sentinel of an empty set: with a nil root,
    [minimum] and [maximum] read a field of nil. *)
Theorem Prev_sentinel_empty_panics (h : gmap positive Node) (sz : Z) (rv : bool) :
  Prev (mkIter None rv) NewSet = Panic /\
  Prev (mkIter None rv) (mkSet h None sz) = Panic.
Proof. by destruct rv. Qed.

(** ** Read-only operations *)

(** [pure m]: whenever the call [m] returns, the set is what it was: the
    root, the size and every node of the store. *)
Definition pure {A} (m : M A) : Prop :=
  forall s, match m s with Ok (_, s') => s' = s | _ => True end.

Lemma pure_ret {A} (a : A) : pure (ret a).
Proof. by intros s. Qed.

Lemma pure_diverge {A} : pure (@diverge A).
Proof. by intros s. Qed.

Lemma pure_bind {A B} (m : M A) (f : A -> M B) :
  pure m -> (forall a, pure (f a)) -> pure (bind m f).
Proof.
  intros Hm Hf s. unfold bind. specialize (Hm s).
  destruct (m s) as [[a s']| |]; [|done..]. subst s'. apply Hf.
Qed.

Lemma pure_load p : pure (load p).
Proof.
  intros s. unfold load. destruct p as [a|]; [|done]. by destruct (heap s !! a).
Qed.

Lemma pure_with_fuel {A} (f : nat -> M A) : (forall n, pure (f n)) -> pure (with_fuel f).
Proof. intros Hf s. apply Hf. Qed.

Lemma pure_get_root : pure get_root.
Proof. by intros s. Qed.

Lemma pure_get_size : pure get_size.
Proof. by intros s. Qed.

Ltac pure_tac :=
  repeat lazymatch goal with
  | |- pure (ret _) => apply pure_ret
  | |- pure diverge => apply pure_diverge
  | |- pure (load _) => apply pure_load
  | |- pure get_root => apply pure_get_root
  | |- pure get_size => apply pure_get_size
  | |- pure (get_key _) => unfold get_key
  | |- pure (get_color _) => unfold get_color
  | |- pure (get_left _) => unfold get_left
  | |- pure (get_right _) => unfold get_right
  | |- pure (get_parent _) => unfold get_parent
  | |- pure (bind _ _) => apply pure_bind; [|intros ?]
  | |- pure (with_fuel _) => apply pure_with_fuel; intros ?
  | |- pure (if ?b then _ else _) => destruct b
  | |- pure (let x := _ in _) => cbv zeta
  | _ => fail
  end.

Lemma pure_Contains_loop k fuel : forall nd, pure (Contains_loop fuel k nd).
Proof.
  induction fuel as [|fuel IH]; intros nd; cbn [Contains_loop]; pure_tac; apply IH.
Qed.

Lemma pure_minimum_loop fuel : forall x, pure (minimum_loop fuel x).
Proof.
  induction fuel as [|fuel IH]; intros x; cbn [minimum_loop]; pure_tac; apply IH.
Qed.

Lemma pure_maximum_loop fuel : forall x, pure (maximum_loop fuel x).
Proof.
  induction fuel as [|fuel IH]; intros x; cbn [maximum_loop]; pure_tac; apply IH.
Qed.

Lemma pure_successor_loop fuel : forall x y, pure (successor_loop fuel x y).
Proof.
  induction fuel as [|fuel IH]; intros x y; cbn [successor_loop]; pure_tac; apply IH.
Qed.

Lemma pure_predecessor_loop fuel : forall x y, pure (predecessor_loop fuel x y).
Proof.
  induction fuel as [|fuel IH]; intros x y; cbn [predecessor_loop]; pure_tac; apply IH.
Qed.

Lemma pure_minimum x : pure (minimum x).
Proof. unfold minimum. pure_tac. apply pure_minimum_loop. Qed.

Lemma pure_maximum x : pure (maximum x).
Proof. unfold maximum. pure_tac. apply pure_maximum_loop. Qed.

Lemma pure_successor x : pure (successor x).
Proof.
  unfold successor. pure_tac; [apply pure_minimum|apply pure_successor_loop].
Qed.

Lemma pure_predecessor x : pure (predecessor x).
Proof.
  unfold predecessor. pure_tac; [apply pure_maximum|apply pure_predecessor_loop].
Qed.

(** C10.  [Contains], [Size], [IsEmpty], [Begin], [End], [RBegin], [REnd],
    [Value], [Valid], [Next] and [Prev] leave the set as it was, on every
    state: the root, the size field and every node, with its key, colour
    and links.  [Next] and [Prev] return the moved cursor as a value. *)
Theorem read_operations_pure (k : Key) (it : Iterator) :
  pure (Contains k) /\ pure Size /\ pure IsEmpty /\
  pure Begin /\ pure End /\ pure RBegin /\ pure REnd /\
  pure (Value it) /\ pure (Valid it) /\ pure (Next it) /\ pure (Prev it).
Proof.
  split_and!.
  - unfold Contains. pure_tac. apply pure_Contains_loop.
  - apply pure_get_size.
  - unfold IsEmpty. pure_tac.
  - unfold Begin. pure_tac. apply pure_minimum.
  - apply pure_ret.
  - unfold RBegin. pure_tac. apply pure_maximum.
  - apply pure_ret.
  - unfold Value. pure_tac.
  - apply pure_ret.
  - unfold Next. pure_tac; [apply pure_predecessor|apply pure_successor].
  - unfold Prev. pure_tac;
      first [apply pure_predecessor|apply pure_successor
            |apply pure_minimum|apply pure_maximum].
Qed.

(** ** The set against a sorted list

    A model of the set as the sorted list of its keys: [list_insert]
    keeps the first of two keys that compare equal, [list_remove] drops
    the keys comparing equal to the one given. *)

Fixpoint list_insert (k : Key) (l : list Key) : list Key :=
  match l with
  | [] => [k]
  | x :: l' =>
    if compare k x <? 0 then k :: l
    else if compare k x =? 0 then l
    else x :: list_insert k l'
  end.

Fixpoint list_mem (k : Key) (l : list Key) : bool :=
  match l with
  | [] => false
  | x :: l' => (compare k x =? 0) || list_mem k l'
  end.

Fixpoint list_remove (k : Key) (l : list Key) : list Key :=
  match l with
  | [] => []
  | x :: l' => if compare k x =? 0 then list_remove k l' else x :: list_remove k l'
  end.

(** The result of a call: the boolean of [Insert] and [Remove], nothing
    for [Clear]. *)
Definition do_op_result (o : Op) : M (option bool) :=
  match o with
  | OpInsert k => do b <- Insert k; ret (Some b)
  | OpRemove k => do b <- Remove k; ret (Some b)
  | OpClear => Clear ;; ret None
  end.

Fixpoint do_ops_results (ops : list Op) : M (list (option bool)) :=
  match ops with
  | [] => ret []
  | o :: ops =>
    do b <- do_op_result o;
    do bs <- do_ops_results ops;
    ret (b :: bs)
  end.

Definition model_op (o : Op) (l : list Key) : option bool * list Key :=
  match o with
  | OpInsert k => (Some (negb (list_mem k l)), list_insert k l)
  | OpRemove k => (Some (list_mem k l), list_remove k l)
  | OpClear => (None, [])
  end.

Fixpoint model_ops (ops : list Op) (l : list Key) : list (option bool) * list Key :=
  match ops with
  | [] => ([], l)
  | o :: ops =>
    let bl := model_op o l in
    let bsl := model_ops ops (snd bl) in
    (fst bl :: fst bsl, snd bsl)
  end.

Lemma list_mem_has_key k l : list_mem k l = true <-> has_key k l.
Proof.
  induction l as [|x l IH]; simpl.
  - split; [done|]. intros (k' & Hin & _). by apply elem_of_nil in Hin.
  - rewrite has_key_cons, orb_true_iff, Z.eqb_eq, IH. done.
Qed.

Lemma list_mem_false k l : list_mem k l = false <-> ~ has_key k l.
Proof. rewrite <- list_mem_has_key. by destruct (list_mem k l). Qed.

Lemma list_insert_at l1 k l2 :
  sorted (l1 ++ k :: l2) -> list_insert k (l1 ++ l2) = l1 ++ k :: l2.
Proof.
  unfold sorted. induction l1 as [|x l1 IH]; simpl.
  - rewrite StronglySorted_cons. intros (Hk & _). destruct l2 as [|y l2]; [done|].
    apply Forall_cons in Hk as (Hy & _). unfold lt in Hy. simpl.
    by destruct (Z.ltb_spec (compare k y) 0); [|lia].
  - rewrite StronglySorted_cons. intros (Hx & Hs).
    rewrite Forall_forall in Hx. specialize (Hx k). unfold lt in Hx.
    assert (Hgt : 0 < compare k x).
    { apply compare_antisym, Hx, elem_of_app. right. by left. }
    destruct (Z.ltb_spec (compare k x) 0); [lia|].
    destruct (Z.eqb_spec (compare k x) 0); [lia|].
    by rewrite IH.
Qed.

Lemma list_insert_present k l : sorted l -> has_key k l -> list_insert k l = l.
Proof.
  unfold sorted. induction l as [|x l IH]; simpl.
  - intros _ (k' & Hin & _). by apply elem_of_nil in Hin.
  - rewrite StronglySorted_cons, has_key_cons. intros (Hx & Hs) Hk.
    destruct (Z.ltb_spec (compare k x) 0) as [Hlt|Hge].
    { exfalso. destruct Hk as [Hk|(y & Hy & Hk)]; [lia|].
      rewrite Forall_forall in Hx. specialize (Hx y Hy). unfold lt in Hx.
      pose proof (compare_trans _ _ _ Hlt Hx). lia. }
    destruct (Z.eqb_spec (compare k x) 0) as [Heq|Hne]; [done|].
    rewrite IH; [done|done|]. by destruct Hk.
Qed.

Lemma list_remove_absent k l : ~ has_key k l -> list_remove k l = l.
Proof.
  induction l as [|x l IH]; simpl; [done|].
  rewrite has_key_cons. intros Hk.
  destruct (Z.eqb_spec (compare k x) 0); [tauto|]. rewrite IH; [done|tauto].
Qed.

Lemma list_remove_app k l1 l2 :
  list_remove k (l1 ++ l2) = list_remove k l1 ++ list_remove k l2.
Proof.
  induction l1 as [|x l1 IH]; simpl; [done|].
  destruct (compare k x =? 0); [done|]. by rewrite IH.
Qed.

Lemma has_key_app k l1 l2 : has_key k (l1 ++ l2) <-> has_key k l1 \/ has_key k l2.
Proof.
  unfold has_key. setoid_rewrite elem_of_app. split.
  - intros (x & [Hx|Hx] & Hk); eauto.
  - intros [(x & Hx & Hk)|(x & Hx & Hk)]; eauto.
Qed.

Lemma list_remove_at k l1 kz l2 :
  sorted (l1 ++ kz :: l2) -> compare k kz = 0 ->
  list_remove k (l1 ++ kz :: l2) = l1 ++ l2.
Proof.
  intros Hs Hk. pose proof (sorted_remove_no_key k l1 kz l2 Hs Hk) as Hno.
  rewrite has_key_app in Hno. rewrite list_remove_app. simpl.
  destruct (Z.eqb_spec (compare k kz) 0); [|done].
  rewrite !list_remove_absent; tauto.
Qed.

Lemma do_op_model o s t :
  WF s t ->
  run (do_op_result o) s (fun b s' =>
    exists t', WF s' t' /\ (b, inorder t') = model_op o (inorder t)).
Proof.
  intros HW. pose proof HW as ((_ & _ & Hs) & _).
  destruct o as [k|k|]; cbn [do_op_result model_op].
  - apply run_bind. eapply run_mono; [by apply Insert_WF|].
    intros [] s'.
    + intros (Hno & _ & t' & l1 & l2 & HW' & Ht & Ht'). apply run_ret.
      exists t'. split; [done|]. apply list_mem_false in Hno. rewrite Hno.
      pose proof HW' as ((_ & _ & Hs') & _). rewrite Ht' in Hs' |- *.
      by rewrite Ht, list_insert_at.
    + intros (Hk & ->). apply run_ret. exists t. split; [done|].
      rewrite list_insert_present by done. apply list_mem_has_key in Hk.
      by rewrite Hk.
  - apply run_bind. eapply run_mono; [by apply Remove_WF|].
    intros [] s'.
    + intros (Hk & _ & t' & l1 & kz & l2 & HW' & Ht & Hkz & Ht'). apply run_ret.
      exists t'. split; [done|]. apply list_mem_has_key in Hk. rewrite Hk.
      rewrite Ht in Hs |- *. by rewrite Ht', list_remove_at.
    + intros (Hno & ->). apply run_ret. exists t. split; [done|].
      rewrite list_remove_absent by done. apply list_mem_false in Hno.
      by rewrite Hno.
  - apply run_bind. eapply run_mono; [apply Clear_WF|].
    intros [] s' HW'. apply run_ret. by exists E.
Qed.

Lemma do_ops_model ops : forall s t,
  WF s t ->
  run (do_ops_results ops) s (fun bs s' =>
    exists t', WF s' t' /\ (bs, inorder t') = model_ops ops (inorder t)).
Proof.
  induction ops as [|o ops IH]; intros s t HW; cbn [do_ops_results model_ops].
  - apply run_ret. by exists t.
  - apply run_bind. eapply run_mono; [by apply do_op_model|].
    intros b s1 (t1 & HW1 & Hb). apply run_bind.
    eapply run_mono; [by apply IH|].
    intros bs s2 (t2 & HW2 & Hbs). apply run_ret. exists t2. split; [done|].
    rewrite <- Hb. cbn [fst snd]. by rewrite <- Hbs.
Qed.

(** X1.  The results of any sequence of [Insert], [Remove] and [Clear] calls
    on a fresh set, and the keys the tree holds afterwards, in order, are
    those of the sorted-list model. *)
Theorem set_refines_sorted_list (ops : list Op) :
  run (do_ops_results ops) NewSet (fun bs s =>
    exists t, Repr s t /\ (bs, inorder t) = model_ops ops []).
Proof.
  eapply run_mono; [apply (do_ops_model ops NewSet E WF_NewSet)|].
  intros bs s (t & ((HR & _) & _) & H). by exists t.
Qed.
(** X2.  After any sequence of [Insert], [Remove] and [Clear] calls on a
    fresh set, [Contains] returns true exactly for the keys that compare
    equal to a key of the model, and changes nothing. *)
Theorem Contains_after_ops (ops : list Op) (k : Key) :
  run (do_ops_results ops) NewSet (fun _ s =>
    run (Contains k) s (fun b s' =>
      s' = s /\ b = list_mem k (snd (model_ops ops [])))).
Proof.
  eapply run_mono; [apply (do_ops_model ops NewSet E WF_NewSet)|].
  intros bs s (t & ((HR & _ & Hs) & _) & H). simpl in H. rewrite <- H. cbn [snd].
  eapply run_mono; [by apply Contains_spec|].
  intros b s' (-> & Hb). split; [done|].
  rewrite <- list_mem_has_key in Hb. destruct b, (list_mem k (inorder t)); try done.
  - by destruct Hb as [-> _].
  - by destruct Hb as [_ ->].
Qed.

(** X3.  After any sequence of [Insert], [Remove] and [Clear] calls on a
    fresh set, the traversal from [Begin] by [Next] yields the keys of the
    model, a strictly ascending list, the traversal from [RBegin] yields
    them in the opposite order, and neither changes the set. *)
Theorem traversal_after_ops (ops : list Op) :
  run (do_ops_results ops) NewSet (fun _ s =>
    run to_list s (fun fwd s1 =>
      run to_rlist s1 (fun bwd s2 =>
        fwd = snd (model_ops ops []) /\ bwd = rev fwd /\ sorted fwd
        /\ s1 = s /\ s2 = s))).
Proof.
  eapply run_mono; [apply (do_ops_model ops NewSet E WF_NewSet)|].
  intros bs s (t & ((HR & _ & Hs) & _) & H). simpl in H. rewrite <- H. cbn [snd].
  eapply run_mono; [by apply to_list_spec|].
  intros fwd s1 (-> & ->).
  eapply run_mono; [by apply to_rlist_spec|].
  intros bwd s2 (-> & ->). done.
Qed.

Lemma list_insert_length k l : (length (list_insert k l) <= S (length l))%nat.
Proof.
  induction l as [|x l IH]; simpl; [lia|].
  destruct (compare k x <? 0); [simpl; lia|].
  destruct (compare k x =? 0); simpl; lia.
Qed.

Lemma list_remove_length k l : (length (list_remove k l) <= length l)%nat.
Proof.
  induction l as [|x l IH]; simpl; [lia|].
  destruct (compare k x =? 0); simpl; lia.
Qed.

Lemma model_ops_length ops : forall l,
  (length (snd (model_ops ops l)) <= length l + length ops)%nat.
Proof.
  induction ops as [|o ops IH]; intros l; cbn [model_ops snd length]; [lia|].
  specialize (IH (snd (model_op o l))).
  assert (length (snd (model_op o l)) <= S (length l))%nat; [|lia].
  destruct o as [k|k|]; cbn [model_op snd].
  - apply list_insert_length.
  - pose proof (list_remove_length k l). lia.
  - simpl. lia.
Qed.

(** X4.  After fewer than 2^63 [Insert], [Remove] and [Clear] calls on a
    fresh set, [Size] returns the number of keys of the model, [IsEmpty]
    returns true exactly when there is none, and [Begin] returns a valid
    cursor exactly when [IsEmpty] returns false. *)
Theorem Size_after_ops (ops : list Op) :
  Z.of_nat (length ops) < 2 ^ 63 ->
  run (do_ops_results ops) NewSet (fun _ s =>
    Size s = Ok (Z.of_nat (length (snd (model_ops ops []))), s) /\
    exists e, IsEmpty s = Ok (e, s) /\
      (e = true <-> snd (model_ops ops []) = []) /\
      run Begin s (fun it s' => Valid it s' = Ok (negb e, s'))).
Proof.
  intros Hlen.
  eapply run_mono; [apply (do_ops_model ops NewSet E WF_NewSet)|].
  intros bs s (t & ((HR & _ & Hs) & Hsz) & H). simpl in H.
  pose proof (model_ops_length ops []) as Hle. rewrite <- H in Hle |- *.
  cbn [snd length] in Hle |- *.
  rewrite wrap64_small in Hsz by lia.
  split; [unfold Size, get_size; by rewrite Hsz|].
  exists (size s =? 0). split; [done|]. rewrite Hsz. split.
  - rewrite Z.eqb_eq. destruct (inorder t); simpl; [done|]. split; [lia|done].
  - eapply run_mono; [by apply Begin_spec|].
    intros [y rv] s' (-> & _ & Hy). unfold Valid. cbn [node] in Hy |- *.
    destruct y as [ya|]; cbn [next_of] in Hy.
    + destruct Hy as (cy & yc & yl & yk & yr & _ & ->). cbn [length].
      by destruct (Z.eqb_spec (Z.of_nat (S (length (inorder yr ++ cafter cy)))) 0);
        [lia|].
    + by rewrite Hy.
Qed.
(** ** Cursors along the in-order list of nodes *)

(** The nodes of a tree in order, each with its address and key. *)
Fixpoint nodes (t : tree) : list (addr * Key) :=
  match t with
  | E => []
  | T a _ l k r => nodes l ++ (a, k) :: nodes r
  end.

Fixpoint nbefore (ctx : list frame) : list (addr * Key) :=
  match ctx with
  | [] => []
  | FL _ _ _ _ :: ctx => nbefore ctx
  | FR a _ l k :: ctx => nbefore ctx ++ nodes l ++ [(a, k)]
  end.

Fixpoint nafter (ctx : list frame) : list (addr * Key) :=
  match ctx with
  | [] => []
  | FL a _ k r :: ctx => (a, k) :: nodes r ++ nafter ctx
  | FR _ _ _ _ :: ctx => nafter ctx
  end.

Lemma nodes_keys t : (nodes t).*2 = inorder t.
Proof.
  induction t as [|a c l IHl k r IHr]; simpl; [done|].
  by rewrite fmap_app, fmap_cons, IHl, IHr.
Qed.

Lemma nodes_addrs t : (nodes t).*1 ≡ₚ addrs t.
Proof.
  induction t as [|a c l IHl k r IHr]; simpl; [done|].
  rewrite fmap_app, fmap_cons, IHl, IHr. simpl. by rewrite <- Permutation_middle.
Qed.

Lemma nodes_plug ctx t : nodes (plug ctx t) = nbefore ctx ++ nodes t ++ nafter ctx.
Proof.
  revert t. induction ctx as [|f ctx IH]; intros t; simpl.
  - by rewrite app_nil_r.
  - rewrite IH. destruct f; simpl; by rewrite <- ?app_assoc.
Qed.

Lemma nbefore_FL cr : Forall is_FL cr -> nbefore cr = [].
Proof.
  induction 1 as [|[] cr Hf _ IH]; simpl; [done|done|by destruct Hf].
Qed.

Lemma nafter_FR cr : Forall is_FR cr -> nafter cr = [].
Proof.
  induction 1 as [|[] cr Hf _ IH]; simpl; [done|by destruct Hf|done].
Qed.

(** Every node of a tree is the focus of one of its contexts. *)
Lemma addrs_focus t a :
  a ∈ addrs t -> exists ctx c l k r, t = plug ctx (T a c l k r).
Proof.
  induction t as [|a0 c0 l IHl k0 r IHr]; simpl.
  - intros H. by apply elem_of_nil in H.
  - rewrite elem_of_cons, elem_of_app. intros [->|[H|H]].
    + by exists [], c0, l, k0, r.
    + destruct (IHl H) as (ctx & c & l' & k & r' & ->).
      exists (ctx ++ [FL a0 c0 k0 r]), c, l', k, r'. by rewrite plug_app.
    + destruct (IHr H) as (ctx & c & l' & k & r' & ->).
      exists (ctx ++ [FR a0 c0 l k0]), c, l', k, r'. by rewrite plug_app.
Qed.

Lemma split_unique (p1 p2 q1 q2 : list (addr * Key)) a k1 k2 :
  NoDup (p1 ++ (a, k1) :: q1).*1 ->
  p1 ++ (a, k1) :: q1 = p2 ++ (a, k2) :: q2 ->
  p1 = p2 /\ k1 = k2 /\ q1 = q2.
Proof.
  revert p2. induction p1 as [|[b kb] p1 IH]; intros [|[b' kb'] p2];
    rewrite ?app_nil_l, <- ?app_comm_cons, ?fmap_cons; intros Hnd Heq;
    simplify_eq; apply NoDup_cons in Hnd as (Hnin & Hnd).
  - done.
  - exfalso. apply Hnin. rewrite fmap_app, fmap_cons. apply elem_of_app. right. by left.
  - exfalso. apply Hnin. rewrite fmap_app, fmap_cons. apply elem_of_app. right. by left.
  - match goal with H : _ ++ _ = _ ++ _ |- _ =>
      destruct (IH p2 Hnd H) as (-> & -> & ->) end. done.
Qed.

(** A node of the in-order list, as a focus. *)
Lemma nodes_focus s t pre a k post :
  Repr s t -> nodes t = pre ++ (a, k) :: post ->
  exists ctx c l r,
    t = plug ctx (T a c l k r) /\ pre = nbefore ctx ++ nodes l
    /\ post = nodes r ++ nafter ctx.
Proof.
  intros (_ & _ & Hnd) Ht.
  assert (Ha : a ∈ addrs t).
  { rewrite <- nodes_addrs, Ht, fmap_app, fmap_cons. apply elem_of_app. right. by left. }
  destruct (addrs_focus t a Ha) as (ctx & c & l & k' & r & Ht').
  rewrite <- nodes_addrs, Ht in Hnd.
  rewrite Ht', nodes_plug in Ht. simpl in Ht. rewrite <- app_assoc in Ht.
  rewrite app_assoc in Ht. symmetry in Ht.
  destruct (split_unique _ _ _ _ _ _ _ Hnd Ht) as (-> & -> & ->).
  by exists ctx, c, l, r.
Qed.

Lemma successor_loop_nodes fuel : forall ctx a c l k r s,
  (length ctx < fuel)%nat ->
  Repr s (plug ctx (T a c l k r)) ->
  run (successor_loop fuel (Some a) (caddr ctx)) s (fun y s' =>
    s' = s /\ y = fst <$> head (nafter ctx)).
Proof.
  induction fuel as [|fuel IH]; intros ctx a c l k r s Hfuel HR; [lia|].
  cbn [successor_loop]. unfold ptr_eqb.
  destruct ctx as [|[p cp kp pr|p cp pl kp] ctx]; cbn [caddr faddr].
  - by apply run_ret.
  - repeat tstep. done.
  - repeat tstep. simpl in Hfuel.
    eapply run_mono.
    { apply (IH ctx p cp pl kp (T a c l k r) s); [lia|exact HR]. }
    intros y s' (-> & Hy). done.
Qed.

Lemma successor_nodes ctx a c l k r s :
  Repr s (plug ctx (T a c l k r)) ->
  run (successor (Some a)) s (fun y s' =>
    s' = s /\ y = fst <$> head (nodes r ++ nafter ctx)).
Proof.
  intros HR. unfold successor. repeat tstep.
  destruct r as [|ra rc rl rk rr]; cbn [ptr_of].
  - repeat tstep. apply run_with_fuel. eapply run_mono.
    { apply (successor_loop_nodes _ ctx a c l k E s); [|exact HR].
      pose proof (Repr_fuel _ _ _ HR). lia. }
    intros y s' (-> & Hy). done.
  - eapply run_mono.
    { eapply (minimum_spec (FR a c l k :: ctx)). exact HR. }
    intros y s' (-> & cr & ya & yc & yk & yr & -> & Hr & Hcr).
    split; [done|]. by rewrite Hr, nodes_plug, (nbefore_FL cr).
Qed.

Lemma predecessor_loop_nodes fuel : forall ctx a c l k r s,
  (length ctx < fuel)%nat ->
  Repr s (plug ctx (T a c l k r)) ->
  run (predecessor_loop fuel (Some a) (caddr ctx)) s (fun y s' =>
    s' = s /\ y = fst <$> last (nbefore ctx)).
Proof.
  induction fuel as [|fuel IH]; intros ctx a c l k r s Hfuel HR; [lia|].
  cbn [predecessor_loop]. unfold ptr_eqb.
  destruct ctx as [|[p cp kp pr|p cp pl kp] ctx]; cbn [caddr faddr].
  - by apply run_ret.
  - repeat tstep. simpl in Hfuel.
    eapply run_mono.
    { apply (IH ctx p cp (T a c l k r) kp pr s); [lia|exact HR]. }
    intros y s' (-> & Hy). done.
  - repeat tstep. split; [done|]. cbn [nbefore].
    by rewrite !app_assoc, last_snoc.
Qed.

Lemma predecessor_nodes ctx a c l k r s :
  Repr s (plug ctx (T a c l k r)) ->
  run (predecessor (Some a)) s (fun y s' =>
    s' = s /\ y = fst <$> last (nbefore ctx ++ nodes l)).
Proof.
  intros HR. unfold predecessor. repeat tstep.
  destruct l as [|la lc ll lk lr]; cbn [ptr_of].
  - repeat tstep. apply run_with_fuel. eapply run_mono.
    { apply (predecessor_loop_nodes _ ctx a c E k r s); [|exact HR].
      pose proof (Repr_fuel _ _ _ HR). lia. }
    intros y s' (-> & Hy). split; [done|]. simpl. by rewrite app_nil_r.
  - eapply run_mono.
    { eapply (maximum_spec (FL a c k r :: ctx)). exact HR. }
    intros y s' (-> & cr & ya & yc & yl & yk & -> & Hl & Hcr).
    split; [done|].
    rewrite Hl, nodes_plug, (nafter_FR cr) by done. simpl.
    by rewrite app_nil_r, !app_assoc, last_snoc.
Qed.

(** The cursor an iterator method leaves: on node [n] of the list, or
    the sentinel. *)
Definition moved (n : option (addr * Key)) (rv : bool) : bool * Iterator :=
  (is_some (fst <$> n), mkIter (fst <$> n) rv).

Lemma cursor_step s t pre a k post rv :
  Repr s t ->
  nodes t = pre ++ (a, k) :: post ->
  Value (mkIter (Some a) rv) s = Ok (k, s) /\
  Next (mkIter (Some a) rv) s
    = Ok (moved (if rv then last pre else head post) rv, s) /\
  Prev (mkIter (Some a) rv) s
    = Ok (moved (if rv then head post else last pre) rv, s).
Proof.
  intros HR Ht.
  destruct (nodes_focus s t pre a k post HR Ht) as (ctx & c & l & r & -> & -> & ->).
  pose proof (successor_nodes ctx a c l k r s HR) as Hs.
  pose proof (predecessor_nodes ctx a c l k r s HR) as Hp.
  apply run_Ok in Hs as (y1 & s1 & Hs & -> & ->).
  apply run_Ok in Hp as (y2 & s2 & Hp & -> & ->).
  split; [by apply (Value_at s ctx a c l k r)|].
  unfold Next, Prev, moved, bind, ret. cbn [node reverse].
  destruct rv; by rewrite ?Hs, ?Hp.
Qed.

(** X5.  A cursor on a node of the tree reads that node's key; [Next] moves
    a forward cursor to the following node of the in-order list and a
    reverse cursor to the preceding one, [Prev] the other way round; each
    returns false, leaving the sentinel, when there is no such node.  The
    set is unchanged. *)
Theorem cursor_moves_in_order (s : SetState) (t : tree)
    (pre : list (addr * Key)) (a : addr) (k : Key) (post : list (addr * Key))
    (rv : bool) :
  Repr s t ->
  nodes t = pre ++ (a, k) :: post ->
  Value (mkIter (Some a) rv) s = Ok (k, s) /\
  Next (mkIter (Some a) rv) s
    = Ok (moved (if rv then last pre else head post) rv, s) /\
  Prev (mkIter (Some a) rv) s
    = Ok (moved (if rv then head post else last pre) rv, s).
Proof.
  intros HR Ht.
  destruct (nodes_focus s t pre a k post HR Ht) as (ctx & c & l & r & -> & -> & ->).
  pose proof (successor_nodes ctx a c l k r s HR) as Hs.
  pose proof (predecessor_nodes ctx a c l k r s HR) as Hp.
  apply run_Ok in Hs as (y1 & s1 & Hs & -> & ->).
  apply run_Ok in Hp as (y2 & s2 & Hp & -> & ->).
  split; [by apply (Value_at s ctx a c l k r)|].
  unfold Next, Prev, moved, bind, ret. cbn [node reverse].
  destruct rv; by rewrite ?Hs, ?Hp.
Qed.
Lemma nodes_split t a :
  a ∈ addrs t -> exists pre k post, nodes t = pre ++ (a, k) :: post.
Proof.
  rewrite <- nodes_addrs. intros Ha.
  apply list_elem_of_fmap in Ha as ([a' k] & -> & Hin).
  apply list_elem_of_split in Hin as (pre & post & ->). by exists pre, k, post.
Qed.

(** X6.  [Prev] undoes [Next] and [Next] undoes [Prev]: when a cursor on a
    node of the tree is moved by one of them and the call returns true, the
    other brings it back to the node it was on, and returns true. *)
Theorem Next_Prev_inverse (s : SetState) (t : tree) (a : addr) (rv : bool) :
  Repr s t -> a ∈ addrs t ->
  run (Next (mkIter (Some a) rv)) s (fun bi s1 =>
    fst bi = true -> Prev (snd bi) s1 = Ok ((true, mkIter (Some a) rv), s1)) /\
  run (Prev (mkIter (Some a) rv)) s (fun bi s1 =>
    fst bi = true -> Next (snd bi) s1 = Ok ((true, mkIter (Some a) rv), s1)).
Proof.
  intros HR Ha. destruct (nodes_split t a Ha) as (pre & k & post & Ht).
  destruct (cursor_step s t pre a k post rv HR Ht) as (_ & HN & HP).
  assert (Hfwd : forall b kb post', post = (b, kb) :: post' -> forall rv',
    Value (mkIter (Some b) rv') s = Ok (kb, s) /\
    Next (mkIter (Some b) rv') s
      = Ok (moved (if rv' then Some (a, k) else head post') rv', s) /\
    Prev (mkIter (Some b) rv') s
      = Ok (moved (if rv' then head post' else Some (a, k)) rv', s)).
  { intros b kb post' -> rv'.
    rewrite <- (last_snoc (a, k) pre).
    apply (cursor_step s t (pre ++ [(a, k)]) b kb post' rv' HR).
    by rewrite Ht, <- app_assoc. }
  assert (Hbwd : forall b kb pre', pre = pre' ++ [(b, kb)] -> forall rv',
    Value (mkIter (Some b) rv') s = Ok (kb, s) /\
    Next (mkIter (Some b) rv') s
      = Ok (moved (if rv' then last pre' else Some (a, k)) rv', s) /\
    Prev (mkIter (Some b) rv') s
      = Ok (moved (if rv' then Some (a, k) else last pre') rv', s)).
  { intros b kb pre' -> rv'.
    apply (cursor_step s t pre' b kb ((a, k) :: post) rv' HR).
    by rewrite Ht, <- app_assoc. }
  unfold run. rewrite HN, HP. unfold moved. cbn [fst snd].
  destruct rv; split.
  - destruct pre as [|x pre _] using rev_ind; [done|]. destruct x as [b kb].
    rewrite last_snoc. simpl. intros _.
    by destruct (Hbwd b kb pre eq_refl true) as (_ & _ & ->).
  - destruct post as [|[b kb] post]; [done|]. simpl. intros _.
    by destruct (Hfwd b kb post eq_refl true) as (_ & -> & _).
  - destruct post as [|[b kb] post]; [done|]. simpl. intros _.
    by destruct (Hfwd b kb post eq_refl false) as (_ & _ & ->).
  - destruct pre as [|x pre _] using rev_ind; [done|]. destruct x as [b kb].
    rewrite last_snoc. simpl. intros _.
    by destruct (Hbwd b kb pre eq_refl false) as (_ & -> & _).
Qed.

(** ** The key a cursor moves to *)

Lemma lt_irrefl x : ~ lt x x.
Proof. unfold lt. rewrite compare_refl. lia. Qed.

Lemma lt_asym x y : lt x y -> ~ lt y x.
Proof. unfold lt. intros H. apply compare_antisym in H. lia. Qed.

Lemma sorted_mid pre k post :
  sorted (pre ++ k :: post) ->
  (forall x, x ∈ pre -> lt x k) /\ (forall x, x ∈ post -> lt k x).
Proof.
  unfold sorted. rewrite StronglySorted_app, StronglySorted_cons.
  intros (H1 & _ & H2 & _). split.
  - intros x Hx. apply H1; [done|by left].
  - intros x Hx. rewrite Forall_forall in H2. by apply H2.
Qed.

(** [ahead rv x y]: [y] comes after [x] in the direction of a cursor,
    ascending for a forward one, descending for a reverse one. *)
Definition ahead (rv : bool) (x y : Key) : Prop := if rv then lt y x else lt x y.

Lemma sorted_step pre k post :
  sorted (pre ++ k :: post) ->
  (forall x, x ∈ pre ++ k :: post -> lt k x -> x ∈ post) /\
  (forall x, x ∈ pre ++ k :: post -> lt x k -> x ∈ pre).
Proof.
  intros Hs. destruct (sorted_mid _ _ _ Hs) as (H1 & H2).
  split; intros x Hx Hlt; apply elem_of_app in Hx as [Hx|Hx];
    try apply elem_of_cons in Hx as [->|Hx]; try done.
  - by apply H1, lt_asym in Hx.
  - by apply lt_irrefl in Hlt.
  - by apply lt_irrefl in Hlt.
  - by apply H2, lt_asym in Hx.
Qed.

(** X7.  On a set in a reachable state, [Next] on a cursor at key [k]
    returns true and moves to the nearest key after [k] in the cursor's
    direction (the least greater key for a forward cursor, the greatest
    smaller one for a reverse cursor), or returns false and leaves the
    sentinel when no key lies after [k]. *)
Theorem Next_nearest_key (s : SetState) (t : tree) (a : addr) (rv : bool) :
  WF s t -> a ∈ addrs t ->
  exists k, Value (mkIter (Some a) rv) s = Ok (k, s) /\ k ∈ inorder t /\
  run (Next (mkIter (Some a) rv)) s (fun bi s' =>
    s' = s /\ reverse (snd bi) = rv /\
    if fst bi then
      exists k', Value (snd bi) s = Ok (k', s) /\ k' ∈ inorder t /\ ahead rv k k' /\
        forall x, x ∈ inorder t -> ahead rv k x -> ~ ahead rv x k'
    else node (snd bi) = None /\ forall x, x ∈ inorder t -> ~ ahead rv k x).
Proof.
  intros ((HR & _ & Hs) & _) Ha.
  destruct (nodes_split t a Ha) as (pre & k & post & Ht).
  destruct (cursor_step s t pre a k post rv HR Ht) as (HV & HN & _).
  rewrite <- nodes_keys, Ht, fmap_app, fmap_cons in Hs |- *. cbn [snd] in Hs |- *.
  exists k. split; [done|]. split; [apply elem_of_app; right; by left|].
  unfold run. rewrite HN. unfold moved. cbn [fst snd reverse node].
  split; [done|]. split; [done|].
  destruct (sorted_mid _ _ _ Hs) as (Hpre & Hpost).
  destruct (sorted_step _ _ _ Hs) as (Hup & Hdown).
  destruct rv; unfold ahead.
  - destruct pre as [|[b kb] pre _] using rev_ind.
    + split; [done|]. intros x Hx Hlt. apply (Hdown x Hx) in Hlt.
      by apply elem_of_nil in Hlt.
    + rewrite last_snoc. cbn [fmap option_fmap option_map fst is_some node].
      assert (Ht' : nodes t = pre ++ (b, kb) :: (a, k) :: post).
      { by rewrite Ht, <- app_assoc. }
      destruct (cursor_step s t pre b kb _ true HR Ht') as (HV' & _).
      rewrite fmap_app, fmap_cons in Hs, Hpre, Hdown |- *.
      rewrite fmap_nil in Hs, Hpre, Hdown |- *. cbn [snd] in Hs, Hpre, Hdown |- *.
      exists kb.
      split; [done|]. split; [rewrite !elem_of_app, !elem_of_cons; auto|].
      split; [apply Hpre, elem_of_app; right; by left|].
      intros x Hx Hlt. apply (Hdown x Hx) in Hlt.
      assert (Hs2 : sorted (pre.*2 ++ kb :: k :: post.*2)) by (by rewrite <- app_assoc in Hs).
      destruct (sorted_mid _ _ _ Hs2) as (Hb & _).
      apply elem_of_app in Hlt as [Hlt|Hlt].
      * by apply lt_asym, Hb.
      * apply list_elem_of_singleton in Hlt as ->. apply lt_irrefl.
  - destruct post as [|[b kb] post].
    + split; [done|]. intros x Hx Hlt. apply (Hup x Hx) in Hlt.
      by apply elem_of_nil in Hlt.
    + cbn [head fmap option_fmap option_map fst is_some node].
      assert (Ht' : nodes t = (pre ++ [(a, k)]) ++ (b, kb) :: post).
      { by rewrite Ht, <- app_assoc. }
      destruct (cursor_step s t _ b kb post false HR Ht') as (HV' & _).
      rewrite fmap_cons in Hs, Hpost, Hup |- *. cbn [snd] in Hs, Hpost, Hup |- *.
      exists kb.
      split; [done|]. split; [rewrite !elem_of_app, !elem_of_cons; auto|].
      split; [apply Hpost; by left|].
      intros x Hx Hlt. apply (Hup x Hx) in Hlt.
      assert (Hs2 : sorted ((pre.*2 ++ [k]) ++ kb :: post.*2)) by (by rewrite <- app_assoc).
      destruct (sorted_mid _ _ _ Hs2) as (_ & Hb).
      apply elem_of_cons in Hlt as [->|Hlt].
      * apply lt_irrefl.
      * by apply lt_asym, Hb.
Qed.

(** ** The ends of the set *)

(** X8.  On a set in a reachable state, [Begin] returns a forward cursor on
    the least key and [RBegin] a reverse cursor on the greatest key; on an
    empty set each returns its sentinel.  The set is unchanged. *)
Theorem Begin_RBegin_extrema (s : SetState) (t : tree) :
  WF s t ->
  run Begin s (fun it s' =>
    s' = s /\ reverse it = false /\
    if node it is Some _ then
      exists k, Value it s = Ok (k, s) /\ k ∈ inorder t /\
                forall x, x ∈ inorder t -> compare k x <= 0
    else inorder t = []) /\
  run RBegin s (fun it s' =>
    s' = s /\ reverse it = true /\
    if node it is Some _ then
      exists k, Value it s = Ok (k, s) /\ k ∈ inorder t /\
                forall x, x ∈ inorder t -> compare x k <= 0
    else inorder t = []).
Proof.
  intros ((HR & _ & Hs) & _). split.
  - eapply run_mono; [by apply Begin_spec|].
    intros [[ya|] rv] s' (-> & Hrv & Hy); cbn [node reverse next_of] in *;
      (split; [done|]); (split; [done|]); [|done].
    destruct Hy as (ctx & yc & yl & yk & yr & Ht & Hin). rewrite <- Ht in HR.
    exists yk. split; [by apply (Value_at s ctx ya yc yl yk yr)|].
    rewrite Hin in Hs |- *. split; [by left|]. intros x. by apply sorted_first.
  - eapply run_mono; [by apply RBegin_spec|].
    intros [[ya|] rv] s' (-> & Hrv & Hy); cbn [node reverse prev_of] in *;
      (split; [done|]); (split; [done|]); [|done].
    destruct Hy as (ctx & yc & yl & yk & yr & Ht & Hin). rewrite <- Ht in HR.
    exists yk. split; [by apply (Value_at s ctx ya yc yl yk yr)|].
    rewrite Hin in Hs |- *. split.
    + apply elem_of_app. right. by left.
    + intros x. by apply sorted_last.
Qed.

(** ** Walking back from the end

    The traversal a caller writes with [Prev]:

      for it := s.End(); it.Prev(); { out = append(out, it.Value()) } *)

Fixpoint iterate_back (fuel : nat) (it : Iterator) : M (list Key) :=
  match fuel with
  | O => diverge
  | S fuel =>
    do bi <- Prev it;
    if fst bi then
      do k <- Value (snd bi);
      do ks <- iterate_back fuel (snd bi);
      ret (k :: ks)
    else ret []
  end.

Definition to_list_back : M (list Key) :=
  do it <- End; with_fuel (fun fuel => iterate_back fuel it).

Definition to_rlist_back : M (list Key) :=
  do it <- REnd; with_fuel (fun fuel => iterate_back fuel it).

Lemma Prev_sentinel_nodes s t rv :
  Repr s t -> t <> E ->
  Prev (mkIter None rv) s
    = Ok (moved (if rv then head (nodes t) else last (nodes t)) rv, s).
Proof.
  intros HR Hne. destruct t as [|a c l k r]; [done|].
  pose proof HR as (Hroot & _). cbn [ptr_of] in Hroot.
  unfold Prev, bind, get_root, moved. cbn [node reverse]. rewrite Hroot.
  destruct rv.
  - pose proof (minimum_spec [] a c l k r s HR) as H.
    apply run_Ok in H as (y & s' & -> & -> & cr & ya & yc & yk & yr & -> & Ht & Hcr).
    by rewrite Ht, nodes_plug, (nbefore_FL cr).
  - pose proof (maximum_spec [] a c l k r s HR) as H.
    apply run_Ok in H as (y & s' & -> & -> & cr & ya & yc & yl & yk & -> & Ht & Hcr).
    rewrite Ht, nodes_plug, (nafter_FR cr) by done. simpl.
    by rewrite app_nil_r, app_assoc, last_snoc.
Qed.

Lemma iterate_back_forward s t fuel : forall pre a k post,
  Repr s t ->
  nodes t = pre ++ (a, k) :: post ->
  (length pre < fuel)%nat ->
  run (iterate_back fuel (mkIter (Some a) false)) s (fun ks s' =>
    s' = s /\ ks = rev pre.*2).
Proof.
  induction fuel as [|fuel IH]; intros pre a k post HR Ht Hfuel; [lia|].
  cbn [iterate_back].
  destruct (cursor_step s t pre a k post false HR Ht) as (_ & _ & HP).
  apply run_bind. unfold run at 1. rewrite HP. unfold moved. cbn [fst snd].
  destruct pre as [|[b kb] pre _] using rev_ind.
  - by apply run_ret.
  - rewrite last_snoc. cbn [fmap option_fmap option_map fst is_some].
    assert (Ht' : nodes t = pre ++ (b, kb) :: (a, k) :: post).
    { by rewrite Ht, <- app_assoc. }
    destruct (cursor_step s t pre b kb _ false HR Ht') as (HV & _).
    apply run_bind. unfold run at 1. rewrite HV.
    apply run_bind. eapply run_mono.
    { apply (IH pre b kb _ HR Ht'). rewrite length_app in Hfuel. simpl in Hfuel. lia. }
    intros ks s' (-> & ->). apply run_ret. split; [done|].
    rewrite fmap_app, fmap_cons, fmap_nil. cbn [snd]. by rewrite rev_unit.
Qed.

Lemma iterate_back_reverse s t fuel : forall pre a k post,
  Repr s t ->
  nodes t = pre ++ (a, k) :: post ->
  (length post < fuel)%nat ->
  run (iterate_back fuel (mkIter (Some a) true)) s (fun ks s' =>
    s' = s /\ ks = post.*2).
Proof.
  induction fuel as [|fuel IH]; intros pre a k post HR Ht Hfuel; [lia|].
  cbn [iterate_back].
  destruct (cursor_step s t pre a k post true HR Ht) as (_ & _ & HP).
  apply run_bind. unfold run at 1. rewrite HP. unfold moved. cbn [fst snd].
  destruct post as [|[b kb] post].
  - by apply run_ret.
  - cbn [head fmap option_fmap option_map fst is_some].
    assert (Ht' : nodes t = (pre ++ [(a, k)]) ++ (b, kb) :: post).
    { by rewrite Ht, <- app_assoc. }
    destruct (cursor_step s t _ b kb post true HR Ht') as (HV & _).
    apply run_bind. unfold run at 1. rewrite HV.
    apply run_bind. eapply run_mono.
    { apply (IH _ b kb post HR Ht'). simpl in Hfuel. lia. }
    intros ks s' (-> & ->). by apply run_ret.
Qed.

Lemma nodes_nil t : nodes t = [] -> t = E.
Proof. destruct t as [|a c l k r]; [done|]. simpl. by destruct (nodes l). Qed.

(** X9.  On a non-empty set, stepping back from [End] with [Prev] until it
    returns false visits every key once, in descending order; stepping back
    from [REnd] visits them in ascending order.  The set is unchanged. *)
Theorem Prev_traversal (s : SetState) (t : tree) :
  Repr s t -> t <> E ->
  run to_list_back s (fun ks s' => s' = s /\ ks = rev (inorder t)) /\
  run to_rlist_back s (fun ks s' => s' = s /\ ks = inorder t).
Proof.
  intros HR Hne.
  pose proof (Repr_size _ _ HR) as Hsz. rewrite <- length_inorder, <- nodes_keys in Hsz.
  rewrite length_fmap in Hsz.
  assert (Hns : nodes t <> []) by (intros H; by apply nodes_nil in H).
  split; apply run_bind, run_ret, run_with_fuel; cbn [iterate_back];
    apply run_bind; unfold run at 1;
    rewrite (Prev_sentinel_nodes s t _ HR Hne); unfold moved; cbn [fst snd];
    rewrite <- nodes_keys.
  - assert (exists pre b kb, nodes t = pre ++ [(b, kb)]) as (pre & b & kb & Ht').
    { destruct (nodes t) as [|[b kb] pre _] using rev_ind; [done|eauto]. }
    rewrite Ht' in Hsz |- *.
    rewrite last_snoc. cbn [fmap option_fmap option_map fst is_some].
    destruct (cursor_step s t pre b kb _ false HR Ht') as (HV & _).
    apply run_bind. unfold run at 1. rewrite HV.
    apply run_bind. eapply run_mono.
    { apply (iterate_back_forward s t _ pre b kb [] HR Ht').
      rewrite length_app in Hsz. simpl in Hsz. lia. }
    intros ks s' (-> & ->). apply run_ret. split; [done|].
    rewrite fmap_app, fmap_cons, fmap_nil. cbn [snd]. by rewrite rev_unit.
  - destruct (nodes t) as [|[b kb] post] eqn:Ht; [done|].
    cbn [head fmap option_fmap option_map fst is_some].
    assert (Ht' : nodes t = [] ++ (b, kb) :: post) by done.
    destruct (cursor_step s t [] b kb post true HR Ht') as (HV & _).
    apply run_bind. unfold run at 1. rewrite HV.
    apply run_bind. eapply run_mono.
    { apply (iterate_back_reverse s t _ [] b kb post HR Ht').
      simpl in Hsz. lia. }
    intros ks s' (-> & ->). by apply run_ret.
Qed.

(** ** Rotations *)

(** X10.  [leftRotate x], where [x] has a right child [y], makes [y] the
    parent of [x] and keeps every other link consistent: the store
    represents the rotated tree, with the same keys in the same order and
    the same size field.  [rightRotate y] then undoes it. *)
Theorem rotate_round_trip (s : SetState) (ctx : list frame)
    (x : addr) (cx : Color) (a : tree) (kx : Key)
    (y : addr) (cy : Color) (b : tree) (ky : Key) (c : tree) :
  Repr s (plug ctx (T x cx a kx (T y cy b ky c))) ->
  run (leftRotate (Some x)) s (fun _ s1 =>
    Repr s1 (plug ctx (T y cy (T x cx a kx b) ky c)) /\
    inorder (plug ctx (T y cy (T x cx a kx b) ky c))
      = inorder (plug ctx (T x cx a kx (T y cy b ky c))) /\
    size s1 = size s /\
    run (rightRotate (Some y)) s1 (fun _ s2 =>
      Repr s2 (plug ctx (T x cx a kx (T y cy b ky c))) /\ size s2 = size s)).
Proof.
  intros HR. eapply leftRotate_Repr; [exact HR|].
  intros s1 HR1 Hsz1. split_and!; [done| |done|].
  - rewrite !inorder_plug. simpl.
    by rewrite <- !app_assoc, <- !app_comm_cons, <- !app_assoc.
  - eapply rightRotate_Repr; [exact HR1|].
    intros s2 HR2 Hsz2. split; [done|]. by rewrite Hsz2.
Qed.

(** X11.  A rotation reads the child that moves up without testing it:
    [leftRotate] panics on a node with no right child, [rightRotate] on a
    node with no left child. *)
Theorem rotate_nil_child_panics (s : SetState) (x : addr) (n : Node) :
  heap s !! x = Some n ->
  (right n = None -> leftRotate (Some x) s = Panic) /\
  (left n = None -> rightRotate (Some x) s = Panic).
Proof.
  intros Hx. split; intros Hn.
  - unfold leftRotate, bind, get_right, get_left, load, bind, ret.
    by rewrite Hx, Hn.
  - unfold rightRotate, bind, get_right, get_left, load, bind, ret.
    by rewrite Hx, Hn.
Qed.

(** ** Height *)

Fixpoint height (t : tree) : nat :=
  match t with
  | E => O
  | T _ _ l _ r => S (Nat.max (height l) (height r))
  end.

Lemma rb_height t : forall pc n,
  rb t pc n ->
  (height t <= 2 * n + 1)%nat /\ (pc = Red -> height t <= 2 * n)%nat
  /\ (2 ^ n <= S (length (inorder t)))%nat.
Proof.
  induction t as [|a c l IHl k r IHr]; intros pc n; simpl.
  - intros ->. simpl. lia.
  - rewrite length_app. simpl. destruct c.
    + destruct n as [|m]; [done|]. intros (Hl & Hr).
      destruct (IHl _ _ Hl) as (Hl1 & _ & Hl3).
      destruct (IHr _ _ Hr) as (Hr1 & _ & Hr3).
      rewrite Nat.pow_succ_r'. lia.
    + intros (-> & Hl & Hr).
      destruct (IHl _ _ Hl) as (_ & Hl2 & Hl3).
      destruct (IHr _ _ Hr) as (_ & Hr2 & Hr3).
      specialize (Hl2 eq_refl). specialize (Hr2 eq_refl).
      split_and!; [lia|done|lia].
Qed.

Lemma WF_height s t :
  WF s t -> (height t <= 2 * Nat.log2 (S (length (inorder t))))%nat.
Proof.
  intros ((_ & (m & Hrb) & _) & _).
  destruct (rb_height _ _ _ Hrb) as (_ & H & Hsz). specialize (H eq_refl).
  apply Nat.log2_le_pow2 in Hsz; lia.
Qed.

(** X12.  After any sequence of [Insert], [Remove] and [Clear] calls on a
    fresh set holding [n] keys in the end, no path from the root has more
    than [2 * log2 (n + 1)] nodes. *)
Theorem height_logarithmic (ops : list Op) :
  run (do_ops_results ops) NewSet (fun _ s =>
    exists t, Repr s t /\ inorder t = snd (model_ops ops []) /\
      (height t <= 2 * Nat.log2 (S (length (inorder t))))%nat).
Proof.
  eapply run_mono; [apply (do_ops_model ops NewSet E WF_NewSet)|].
  intros bs s (t & HW & H). simpl in H. exists t.
  split; [apply HW|]. split; [by rewrite <- H|]. by apply (WF_height s).
Qed.

Lemma Contains_loop_height k fuel : forall ctx t s,
  (height t < fuel)%nat ->
  Repr s (plug ctx t) ->
  sorted (inorder t) ->
  run (Contains_loop fuel k (ptr_of t)) s (fun b s' =>
    s' = s /\ (b = true <-> has_key k (inorder t))).
Proof.
  induction fuel as [|fuel IH]; intros ctx t s Hfuel HR Hs; [lia|].
  cbn [Contains_loop].
  destruct t as [|a c l kk r]; cbn [ptr_of].
  - apply run_ret. split; [done|]. split; [done|].
    intros (k' & Hin & _). by apply elem_of_nil in Hin.
  - simpl in Hfuel.
    pose proof (sorted_node _ _ _ _ _ Hs) as (Hsl & Hsr & _).
    repeat tstep.
    destruct (Z.eqb_spec (compare k kk) 0) as [Heq|Hne].
    { apply run_ret. split; [done|]. split; [|done]. intros _.
      apply has_key_node. auto. }
    destruct (Z.ltb_spec (compare k kk) 0) as [Hlt|Hge].
    + repeat tstep. eapply run_mono.
      { apply (IH (FL a c kk r :: ctx) l s); [lia|exact HR|done]. }
      intros b s' (-> & Hb). split; [done|]. rewrite Hb.
      symmetry. by apply has_key_left.
    + repeat tstep. eapply run_mono.
      { apply (IH (FR a c l kk :: ctx) r s); [lia|exact HR|done]. }
      intros b s' (-> & Hb). split; [done|]. rewrite Hb.
      symmetry. apply has_key_right; [done|lia].
Qed.

(** X13.  After any sequence of [Insert], [Remove] and [Clear] calls on a
    fresh set holding [n] keys in the end, the descent of [Contains] ends
    within [2 * log2 (n + 1) + 1] evaluations of its loop test, with the
    answer of the model. *)
Theorem Contains_logarithmic (ops : list Op) (k : Key) :
  run (do_ops_results ops) NewSet (fun _ s =>
    run (do r <- get_root;
         Contains_loop (S (2 * Nat.log2 (S (length (snd (model_ops ops [])))))) k r)
      s (fun b s' => s' = s /\ b = list_mem k (snd (model_ops ops [])))).
Proof.
  eapply run_mono; [apply (do_ops_model ops NewSet E WF_NewSet)|].
  intros bs s (t & HW & H). simpl in H. rewrite <- H. cbn [snd].
  pose proof (WF_height s t HW) as Hh.
  destruct HW as ((HR & _ & Hs) & _).
  apply run_bind, run_get_root. pose proof HR as (Hroot & _). rewrite Hroot.
  eapply run_mono.
  { apply (Contains_loop_height k _ [] t s); [lia|exact HR|exact Hs]. }
  intros b s' (-> & Hb). split; [done|].
  rewrite <- list_mem_has_key in Hb. destruct b, (list_mem k (inorder t)); try done.
  - by destruct Hb as [-> _].
  - by destruct Hb as [_ ->].
Qed.

(** ** Insert and Remove, one after the other *)

Lemma sorted_replace k l1 kz l2 :
  sorted (l1 ++ kz :: l2) -> compare k kz = 0 -> sorted (l1 ++ k :: l2).
Proof.
  unfold sorted. rewrite !StronglySorted_app, !StronglySorted_cons.
  intros (H1 & H2 & H3 & H4) Hk. split_and!; try done.
  - intros x1 x2 Hx1 Hx2. apply elem_of_cons in Hx2 as [->|Hx2].
    + apply (compare_lt_eq x1 kz k); [|by apply compare_sym_eq].
      apply H1; [done|by left].
    + apply H1; [done|by right].
  - rewrite Forall_forall in H3 |- *. intros x Hx.
    by apply (compare_eq_lt k kz x), H3.
Qed.

(** X14.  On a set in a reachable state, inserting an absent key and
    removing it again succeeds twice and leaves the keys, in order, and
    [Size] as they were. *)
Theorem Insert_then_Remove (s : SetState) (t : tree) (k : Key) :
  WF s t -> ~ has_key k (inorder t) ->
  run (Insert k) s (fun b1 s1 =>
    b1 = true /\
    run (Remove k) s1 (fun b2 s2 =>
      b2 = true /\
      exists t2, WF s2 t2 /\ inorder t2 = inorder t /\ size s2 = size s)).
Proof.
  intros HW Hno. eapply run_mono; [by apply Insert_WF|].
  intros [] s1; [|by intros (Hk & _)].
  intros (_ & _ & t1 & l1 & l2 & HW1 & Ht & Ht1). split; [done|].
  pose proof HW1 as ((_ & _ & Hs1) & _).
  eapply run_mono; [by apply Remove_WF|].
  intros [] s2.
  - intros (_ & _ & t2 & l1' & kz & l2' & HW2 & Ht1' & Hkz & Ht2). split; [done|].
    exists t2. split; [done|].
    assert (Heq : inorder t2 = inorder t).
    { rewrite Ht2, Ht.
      assert (Hs1' : sorted (l1' ++ kz :: l2')) by (by rewrite <- Ht1').
      rewrite <- (list_remove_at k l1' kz l2' Hs1' Hkz).
      rewrite <- Ht1', Ht1. apply list_remove_at; [by rewrite <- Ht1|].
      apply compare_refl. }
    split; [done|]. destruct HW as (_ & ->), HW2 as (_ & ->). by rewrite Heq.
  - intros (Hno' & _). exfalso. apply Hno'. exists k. rewrite Ht1. split.
    + apply elem_of_app. right. by left.
    + apply compare_refl.
Qed.

(** X15.  On a set in a reachable state, removing a key that is present and
    inserting it again succeeds twice; the key that compared equal is
    replaced by the key given, every other key stays in place, and [Size] is
    as it was. *)
Theorem Remove_then_Insert (s : SetState) (t : tree) (k : Key) :
  WF s t -> has_key k (inorder t) ->
  run (Remove k) s (fun b1 s1 =>
    b1 = true /\
    run (Insert k) s1 (fun b2 s2 =>
      b2 = true /\
      exists t2 l1 kz l2,
        WF s2 t2 /\ inorder t = l1 ++ kz :: l2 /\ compare k kz = 0 /\
        inorder t2 = l1 ++ k :: l2 /\ size s2 = size s)).
Proof.
  intros HW Hk. pose proof HW as ((_ & _ & Hs) & _).
  eapply run_mono; [by apply Remove_WF|].
  intros [] s1; [|by intros (Hno & _)].
  intros (_ & _ & t1 & l1 & kz & l2 & HW1 & Ht & Hkz & Ht1). split; [done|].
  rewrite Ht in Hs.
  pose proof (sorted_remove_no_key k l1 kz l2 Hs Hkz) as Hno.
  eapply run_mono; [by apply Insert_WF|].
  intros [] s2.
  - intros (_ & _ & t2 & l1' & l2' & HW2 & Ht1' & Ht2). split; [done|].
    exists t2, l1, kz, l2. split_and!; [done..| |].
    + pose proof HW2 as ((_ & _ & Hs2) & _).
      assert (Hs2' : sorted (l1' ++ k :: l2')) by (by rewrite <- Ht2).
      rewrite Ht2. rewrite <- (list_insert_at l1' k l2' Hs2').
      rewrite <- Ht1', Ht1. apply list_insert_at. by apply (sorted_replace k l1 kz l2).
    + destruct HW as (_ & ->), HW2 as (_ & ->).
      rewrite Ht2, Ht, !length_app. cbn [length].
      apply (f_equal (@length _)) in Ht1'. rewrite Ht1, !length_app in Ht1'.
      do 2 f_equal. lia.
  - intros (Hk' & _). by rewrite Ht1 in Hk'.
Qed.

(** ** Clear *)

(** X16.  [Clear] needs nothing of the state it is called in.  It keeps
    every node allocated; afterwards [Size] is 0, [IsEmpty] is true,
    [Contains] is false for every key, [Begin] and [RBegin] return their
    sentinels and both traversals are empty. *)
Theorem Clear_empties (s : SetState) (k : Key) :
  run Clear s (fun _ s' =>
    heap s' = heap s /\
    Size s' = Ok (0, s') /\ IsEmpty s' = Ok (true, s') /\
    Contains k s' = Ok (false, s') /\
    Begin s' = Ok (mkIter None false, s') /\
    RBegin s' = Ok (mkIter None true, s') /\
    to_list s' = Ok ([], s') /\ to_rlist s' = Ok ([], s')).
Proof. unfold Clear, run. simpl. by split_and!. Qed.

(** ** Links *)

(** The nodes a traversal can reach: the root, and the children of a
    node it can reach. *)
Inductive reach (s : SetState) : addr -> Prop :=
| reach_root a : root s = Some a -> reach s a
| reach_left a n b :
    reach s a -> heap s !! a = Some n -> left n = Some b -> reach s b
| reach_right a n b :
    reach s a -> heap s !! a = Some n -> right n = Some b -> reach s b.

(** Node [a] is allocated, its children name it as their parent, and its
    parent names it as a child; the node with no parent is the root. *)
Definition linked (s : SetState) (a : addr) : Prop :=
  exists n, heap s !! a = Some n /\
    (forall b, left n = Some b ->
       exists m, heap s !! b = Some m /\ parent m = Some a) /\
    (forall b, right n = Some b ->
       exists m, heap s !! b = Some m /\ parent m = Some a) /\
    match parent n with
    | None => root s = Some a
    | Some p => exists m, heap s !! p = Some m /\ (left m = Some a \/ right m = Some a)
    end.

Lemma plug_addrs_in ctx t a : a ∈ addrs t -> a ∈ addrs (plug ctx t).
Proof. rewrite addrs_plug, elem_of_app. auto. Qed.

Lemma reach_addrs s t a : Repr s t -> reach s a -> a ∈ addrs t.
Proof.
  intros HR. induction 1 as [a Hroot|a n b _ IH Hn Hb|a n b _ IH Hn Hb].
  - destruct HR as (Hr & _). rewrite Hroot in Hr.
    destruct t as [|a' c l k r]; [done|]. simpl in Hr. injection Hr as ->. by left.
  - destruct (addrs_focus t a IH) as (ctx & c & l & k & r & ->).
    rewrite (Repr_lookup s ctx a c l k r HR) in Hn. injection Hn as <-.
    cbn [left] in Hb. destruct l as [|b' ? ? ? ?]; [done|]. simpl in Hb.
    injection Hb as ->. apply plug_addrs_in. simpl. right. by left.
  - destruct (addrs_focus t a IH) as (ctx & c & l & k & r & ->).
    rewrite (Repr_lookup s ctx a c l k r HR) in Hn. injection Hn as <-.
    cbn [right] in Hb. destruct r as [|b' ? ? ? ?]; [done|]. simpl in Hb.
    injection Hb as ->. apply plug_addrs_in. simpl. right.
    apply elem_of_app. right. by left.
Qed.

Lemma Repr_linked s t a : Repr s t -> a ∈ addrs t -> linked s a.
Proof.
  intros HR Ha. destruct (addrs_focus t a Ha) as (ctx & c & l & k & r & ->).
  eexists. split; [exact (Repr_lookup s ctx a c l k r HR)|]. cbn [left right parent].
  split_and!.
  - intros b Hb. destruct l as [|b' lc ll lk lr]; [done|]. simpl in Hb.
    injection Hb as ->. eexists.
    split; [exact (Repr_lookup s (FL a c k r :: ctx) b lc ll lk lr HR)|done].
  - intros b Hb. destruct r as [|b' rc rl rk rr]; [done|]. simpl in Hb.
    injection Hb as ->. eexists.
    split; [exact (Repr_lookup s (FR a c l k :: ctx) b rc rl rk rr HR)|done].
  - destruct ctx as [|[p cp kp pr|p cp pl kp] ctx]; cbn [caddr faddr].
    + by destruct HR as (-> & _).
    + eexists. split; [exact (Repr_lookup s ctx p cp _ kp pr HR)|]. by left.
    + eexists. split; [exact (Repr_lookup s ctx p cp pl kp _ HR)|]. by right.
Qed.

(** X17.  After any sequence of [Insert], [Remove] and [Clear] calls on a
    fresh set, every node reachable from the root is allocated and linked
    both ways: children point back to their parent, the parent points to the
    node, and only the root has a nil parent. *)
Theorem links_consistent (ops : list Op) :
  run (do_ops ops) NewSet (fun _ s => forall a, reach s a -> linked s a).
Proof.
  eapply run_mono; [apply (do_ops_WF ops NewSet E WF_NewSet)|].
  intros [] s (t & (HR & _) & _) a Ha.
  apply (Repr_linked s t a HR). by apply (reach_addrs s t).
Qed.

(** ** The empty set *)

(** X18.  On a set with a nil root no operation consults the comparator:
    [Insert] allocates a black root holding the key as given, adds one to
    the size and returns true; [Contains] and [Remove] return false and
    change nothing. *)
Theorem empty_set_no_comparison (s : SetState) (k : Key) :
  root s = None ->
  Insert k s
    = Ok (true, mkSet (<[fresh (dom (heap s)) := mkNode k Black None None None]> (heap s))
                      (Some (fresh (dom (heap s)))) (wrap64 (size s + 1))) /\
  Contains k s = Ok (false, s) /\
  Remove k s = Ok (false, s).
Proof.
  intros Hroot. unfold Insert, Contains, Remove, bind, get_root, with_fuel.
  rewrite Hroot. by split_and!.
Qed.

(** ** Insert and the cursors already taken *)

(** [keeps_keys m]: whenever the call [m] returns, every node allocated
    before is still allocated and holds the key it held. *)
Definition keeps_keys {A} (m : M A) : Prop :=
  forall s, match m s with
            | Ok (_, s') =>
              forall a n, heap s !! a = Some n ->
                exists n', heap s' !! a = Some n' /\ key n' = key n
            | _ => True
            end.

Lemma kk_ret {A} (a : A) : keeps_keys (ret a).
Proof. intros s a' n Hn. by exists n. Qed.

Lemma kk_diverge {A} : keeps_keys (@diverge A).
Proof. by intros s. Qed.

Lemma kk_bind {A B} (m : M A) (f : A -> M B) :
  keeps_keys m -> (forall a, keeps_keys (f a)) -> keeps_keys (bind m f).
Proof.
  intros Hm Hf s. unfold bind. specialize (Hm s).
  destruct (m s) as [[a s']| |]; [|done..]. specialize (Hf a s').
  destruct (f a s') as [[b s'']| |]; [|done..].
  intros a' n Hn. destruct (Hm a' n Hn) as (n' & Hn' & Hk).
  destruct (Hf a' n' Hn') as (n'' & Hn'' & Hk'). exists n''. split; [done|congruence].
Qed.

Lemma kk_pure {A} (m : M A) : pure m -> keeps_keys m.
Proof.
  intros Hm s. specialize (Hm s). destruct (m s) as [[a s']| |]; [|done..].
  subst s'. intros a' n Hn. by exists n.
Qed.

Lemma kk_with_fuel {A} (f : nat -> M A) :
  (forall n, keeps_keys (f n)) -> keeps_keys (with_fuel f).
Proof. intros Hf s. apply Hf. Qed.

Lemma kk_store p n' :
  (forall s a n, p = Some a -> heap s !! a = Some n -> key n' = key n) ->
  keeps_keys (store p n').
Proof.
  intros Hk s. unfold store. destruct p as [a|]; [|done]. cbn [heap].
  intros a' n Hn. destruct (decide (a' = a)) as [->|Hne].
  - exists n'. rewrite lookup_insert_eq. split; [done|]. by apply (Hk s a n).
  - exists n. by rewrite lookup_insert_ne.
Qed.

Lemma kk_update p (f : Node -> Node) :
  (forall n, key (f n) = key n) ->
  keeps_keys (do n <- load p; store p (f n)).
Proof.
  intros Hf s. unfold bind, load, store. destruct p as [a|]; [|done].
  destruct (heap s !! a) as [n0|] eqn:Ha; [|done]. cbn [heap].
  intros a' n Hn. destruct (decide (a' = a)) as [->|Hne].
  - exists (f n0). rewrite lookup_insert_eq. split; [done|]. rewrite Hf. congruence.
  - exists n. by rewrite lookup_insert_ne.
Qed.

Lemma kk_set_color p c : keeps_keys (set_color p c).
Proof. by apply (kk_update p (fun n => mkNode (key n) c (left n) (right n) (parent n))). Qed.

Lemma kk_set_left p v : keeps_keys (set_left p v).
Proof. by apply (kk_update p (fun n => mkNode (key n) (color n) v (right n) (parent n))). Qed.

Lemma kk_set_right p v : keeps_keys (set_right p v).
Proof. by apply (kk_update p (fun n => mkNode (key n) (color n) (left n) v (parent n))). Qed.

Lemma kk_set_parent p v : keeps_keys (set_parent p v).
Proof. by apply (kk_update p (fun n => mkNode (key n) (color n) (left n) (right n) v)). Qed.

Lemma kk_set_root p : keeps_keys (set_root p).
Proof. intros s a n Hn. by exists n. Qed.

Lemma kk_set_size z : keeps_keys (set_size z).
Proof. intros s a n Hn. by exists n. Qed.

Lemma kk_alloc n0 : keeps_keys (alloc n0).
Proof.
  intros s a n Hn. exists n. split; [|done]. cbn [heap].
  rewrite lookup_insert_ne; [done|]. intros <-. by rewrite fresh_None in Hn.
Qed.

Ltac kk_tac :=
  repeat lazymatch goal with
  | |- keeps_keys (ret _) => apply kk_ret
  | |- keeps_keys diverge => apply kk_diverge
  | |- keeps_keys (load _) => apply kk_pure, pure_load
  | |- keeps_keys get_root => apply kk_pure, pure_get_root
  | |- keeps_keys get_size => apply kk_pure, pure_get_size
  | |- keeps_keys (get_key _) => unfold get_key
  | |- keeps_keys (get_color _) => unfold get_color
  | |- keeps_keys (get_left _) => unfold get_left
  | |- keeps_keys (get_right _) => unfold get_right
  | |- keeps_keys (get_parent _) => unfold get_parent
  | |- keeps_keys (set_color _ _) => apply kk_set_color
  | |- keeps_keys (set_left _ _) => apply kk_set_left
  | |- keeps_keys (set_right _ _) => apply kk_set_right
  | |- keeps_keys (set_parent _ _) => apply kk_set_parent
  | |- keeps_keys (set_root _) => apply kk_set_root
  | |- keeps_keys (set_size _) => apply kk_set_size
  | |- keeps_keys (alloc _) => apply kk_alloc
  | |- keeps_keys incr_size => unfold incr_size
  | |- keeps_keys (is_red _) => unfold is_red
  | |- keeps_keys (bind _ _) => apply kk_bind; [|intros ?]
  | |- keeps_keys (with_fuel _) => apply kk_with_fuel; intros ?
  | |- keeps_keys (if ?b then _ else _) => destruct b
  | |- keeps_keys (match ?b with Some _ => _ | None => _ end) => destruct b
  | |- keeps_keys (let x := _ in _) => cbv zeta
  | _ => fail
  end.

Lemma kk_leftRotate x : keeps_keys (leftRotate x).
Proof. unfold leftRotate. kk_tac. Qed.

Lemma kk_rightRotate x : keeps_keys (rightRotate x).
Proof. unfold rightRotate. kk_tac. Qed.

Lemma kk_insertFixup_loop fuel : forall z, keeps_keys (insertFixup_loop fuel z).
Proof.
  induction fuel as [|fuel IH]; intros z; cbn [insertFixup_loop]; kk_tac;
    first [apply IH|apply kk_leftRotate|apply kk_rightRotate].
Qed.

Lemma kk_Insert_loop k fuel : forall nd par, keeps_keys (Insert_loop fuel k nd par).
Proof.
  induction fuel as [|fuel IH]; intros nd par; cbn [Insert_loop]; kk_tac; apply IH.
Qed.

Lemma kk_Insert k : keeps_keys (Insert k).
Proof.
  unfold Insert, insertFixup. kk_tac;
    first [apply kk_Insert_loop|apply kk_insertFixup_loop].
Qed.

(** X19.  [Insert] never rewrites a key and never frees a node: on a set in
    a reachable state, a cursor that reads a key before the call, wherever
    it stands, reads the same key after it. *)
Theorem Insert_keeps_Value (s : SetState) (t : tree) (k : Key)
    (it : Iterator) (v : Key) :
  WF s t ->
  Value it s = Ok (v, s) ->
  run (Insert k) s (fun _ s' => Value it s' = Ok (v, s')).
Proof.
  intros HW Hv. pose proof (kk_Insert k s) as Hkk.
  pose proof (Insert_WF k s t HW) as Hrun. unfold run in *.
  destruct (Insert k s) as [[b s']| |]; [|done..].
  destruct it as [[a|] rv]; unfold Value, get_key, bind, load, ret in *;
    cbn [node] in *; [|congruence].
  destruct (heap s !! a) as [n|] eqn:Ha; [|done].
  destruct (Hkk a n Ha) as (n' & -> & Hk). congruence.
Qed.

End RBSet.

(** * An instance: integer keys

    The comparator orders the nil key below every integer and integers
    by their difference.  The states below are those the methods
    themselves build from the empty set. *)

Definition zcmp (a b : option Z) : Z :=
  match a, b with
  | None, None => 0
  | None, Some _ => -1
  | Some _, None => 1
  | Some x, Some y => x - y
  end.

Lemma zcmp_antisym a b : zcmp a b < 0 <-> 0 < zcmp b a.
Proof. destruct a, b; simpl; lia. Qed.

Lemma zcmp_trans a b c : zcmp a b < 0 -> zcmp b c < 0 -> zcmp a c < 0.
Proof. destruct a, b, c; simpl; lia. Qed.

Lemma zcmp_eq_lt a b c : zcmp a b = 0 -> zcmp b c < 0 -> zcmp a c < 0.
Proof. destruct a, b, c; simpl; lia. Qed.

Definition state_of {A} (r : Res (A * SetState (V:=Z))) : SetState (V:=Z) :=
  match r with
  | Ok (_, s) => s
  | _ => NewSet
  end.

(** Insert 10, 20, 5, 15. *)
Definition set4 : SetState (V:=Z) :=
  state_of (do_ops zcmp [OpInsert (Some 10); OpInsert (Some 20);
                         OpInsert (Some 5); OpInsert (Some 15)] NewSet).

Definition tree4 : tree (V:=Z) :=
  T 1 Black (T 3 Black E (Some 5) E) (Some 10)
    (T 2 Black (T 4 Red E (Some 15) E) (Some 20) E).

Lemma WF_set4 : WF zcmp set4 tree4.
Proof.
  split; [split; [|split]|].
  - split_and!; [by vm_compute|vm_compute; by split_and!|].
    by apply (bool_decide_unpack _); vm_compute.
  - exists 2%nat. vm_compute. by split_and!.
  - unfold sorted, lt. cbn [tree4 inorder app].
    repeat (apply StronglySorted_cons; split; [repeat constructor; simpl; lia|]).
    constructor.
  - by vm_compute.
Qed.

(** Insert 1, 2, ..., 14.  The node of key [i] is at address [i]. *)
Definition set14 : SetState (V:=Z) :=
  state_of (do_ops zcmp
    (map (fun i => OpInsert (Some (Z.of_nat i))) (seq 1 14)) NewSet).

Definition leaf (a : positive) (c : Color) (k : Z) : tree (V:=Z) :=
  T a c E (Some k) E.

(** The right subtree of the root of [set14]. *)
Definition right14 : tree (V:=Z) :=
  T 8 Red
    (T 6 Black (leaf 5 Black 5) (Some 6) (leaf 7 Black 7))
    (Some 8)
    (T 10 Black (leaf 9 Black 9) (Some 10)
       (T 12 Red (leaf 11 Black 11) (Some 12)
          (T 13 Black E (Some 13) (leaf 14 Red 14)))).

(** The context of the node of key 1 in [set14]. *)
Definition ctx14 : list (frame (V:=Z)) :=
  [FL 2 Black (Some 2) (leaf 3 Black 3); FL 4 Black (Some 4) right14].

(** [set14] once [delete] has unlinked the node of key 1, and then after
    the first iteration of [deleteFixup], which colours node 3 red and
    moves up to node 2.  The sibling of node 2 is node 8, which is red:
    the second iteration recolours, rotates at node 4 and reads the
    sibling again. *)
Definition set14_unlinked : SetState (V:=Z) :=
  state_of (delete_unlink (Some 1%positive) set14).

Definition set14_second : SetState (V:=Z) :=
  state_of (deleteFixup_body None (Some 2%positive) set14_unlinked).

(** ** The theorems at these states *)

Lemma reachable_red_black_witness :
  run (do_ops zcmp [OpInsert (Some 10); OpInsert (Some 20); OpInsert (Some 5);
                    OpRemove (Some 10); OpClear; OpInsert (Some 7);
                    OpInsert (Some 7); OpRemove (Some 3)]) NewSet
    (fun _ s =>
       exists t, Repr s t /\ root_black t /\ no_red_red t /\ black_balanced t
                 /\ sorted zcmp (inorder t)).
Proof.
  apply (reachable_red_black zcmp zcmp_antisym zcmp_trans).
Defined.

Lemma Insert_postcondition_witness :
  WF zcmp set4 tree4 /\
  Z.of_nat (length (inorder tree4)) < 2 ^ 63 - 1 /\
  run (Insert zcmp (Some 7)) set4 (fun b s' =>
    (b = true <-> ~ has_key zcmp (Some 7) (inorder tree4)) /\
    if b then Size s' = Ok (size set4 + 1, s') /\
              run (Contains zcmp (Some 7)) s' (fun b' s'' => b' = true /\ s'' = s')
    else s' = set4).
Proof.
  assert (Hlen : Z.of_nat (length (inorder tree4)) < 2 ^ 63 - 1) by (simpl; lia).
  split_and!; [exact WF_set4|exact Hlen|].
  exact (Insert_postcondition zcmp zcmp_antisym zcmp_trans set4 tree4 (Some 7)
           WF_set4 Hlen).
Defined.

Lemma Remove_postcondition_witness :
  WF zcmp set4 tree4 /\
  Z.of_nat (length (inorder tree4)) < 2 ^ 63 /\
  run (Remove zcmp (Some 10)) set4 (fun b s' =>
    (b = true <-> has_key zcmp (Some 10) (inorder tree4)) /\
    if b then Size s' = Ok (size set4 - 1, s') /\
              run (Contains zcmp (Some 10)) s' (fun b' s'' => b' = false /\ s'' = s')
    else s' = set4).
Proof.
  assert (Hlen : Z.of_nat (length (inorder tree4)) < 2 ^ 63) by (simpl; lia).
  split_and!; [exact WF_set4|exact Hlen|].
  exact (Remove_postcondition zcmp zcmp_antisym zcmp_trans zcmp_eq_lt set4 tree4
           (Some 10) WF_set4 Hlen).
Defined.

Lemma distinct_example : distinct zcmp [Some 10; Some 20; None; Some 5; Some 15].
Proof.
  simpl. split_and!; try done;
    intros (k & Hk & Hc); rewrite ?elem_of_cons, elem_of_nil in Hk;
    destruct_or?; subst; simpl in Hc; try lia; done.
Qed.

Lemma iteration_round_trip_witness :
  distinct zcmp [Some 10; Some 20; None; Some 5; Some 15] /\
  run (insert_all zcmp [Some 10; Some 20; None; Some 5; Some 15]) NewSet (fun _ s =>
    run to_list s (fun fwd s1 =>
      run to_rlist s1 (fun bwd s2 =>
        sorted zcmp fwd /\ fwd ≡ₚ [Some 10; Some 20; None; Some 5; Some 15]
        /\ bwd = rev fwd /\ s1 = s /\ s2 = s))).
Proof.
  split; [exact distinct_example|].
  exact (iteration_round_trip zcmp zcmp_antisym zcmp_trans _ distinct_example).
Defined.

Lemma Prev_from_sentinel_witness :
  WF zcmp set4 tree4 /\ tree4 <> E /\
  (run End set4 (fun it s1 =>
    run (Prev it) s1 (fun bi s2 =>
      s2 = set4 /\ fst bi = true /\ reverse (snd bi) = false /\
      Valid (snd bi) set4 = Ok (true, set4) /\
      exists k, Value (snd bi) set4 = Ok (k, set4) /\ k ∈ inorder tree4 /\
                forall x, x ∈ inorder tree4 -> zcmp x k <= 0)) /\
   run REnd set4 (fun it s1 =>
    run (Prev it) s1 (fun bi s2 =>
      s2 = set4 /\ fst bi = true /\ reverse (snd bi) = true /\
      Valid (snd bi) set4 = Ok (true, set4) /\
      exists k, Value (snd bi) set4 = Ok (k, set4) /\ k ∈ inorder tree4 /\
                forall x, x ∈ inorder tree4 -> zcmp k x <= 0))).
Proof.
  assert (Hne : tree4 <> E (V:=Z)) by done.
  split; [exact WF_set4|]. split; [exact Hne|].
  exact (Prev_from_sentinel zcmp zcmp_antisym set4 tree4 WF_set4 Hne).
Defined.

Lemma deleteFixup_sibling_non_nil_witness :
  let t1 := leaf 1 Black 1 in
  let y1 := mkNode (Some 1) Black None None (Some 2%positive) in
  let x0 : ptr := None in
  let x2 : ptr := Some 2%positive in
  let p2 : ptr := Some 4%positive in
  Repr set14 (plug ctx14 t1) /\
  rb (plug ctx14 t1) Red 3 /\
  delete_unlink (Some 1%positive) set14 = Ok ((x0, Some 1%positive), set14_unlinked) /\
  load (Some 1%positive) set14_unlinked = Ok (y1, set14_unlinked) /\
  color y1 = Black /\
  dfix_iter set14_unlinked x0 (parent y1) set14_second x2 p2 /\
  deleteFixup_cond x2 set14_second = Ok (true, set14_second) /\
  (exists w wn,
     deleteFixup_sibling x2 p2 set14_second = Ok (Some w, set14_second) /\
     load (Some w) set14_second = Ok (wn, set14_second)) /\
  (exists x' p' s3,
     deleteFixup_body x2 p2 set14_second = Ok ((x', p'), s3) /\
     dfix_iter set14_unlinked x0 (parent y1) s3 x' p') /\
  (exists s', deleteFixup x0 (parent y1) set14_unlinked = Ok (tt, s')).
Proof.
  intros t1 y1 x0 x2 p2.
  assert (H1 : Repr set14 (plug ctx14 t1)).
  { split_and!; [by vm_compute|vm_compute; by split_and!|].
    by apply (bool_decide_unpack _); vm_compute. }
  assert (H2 : rb (plug ctx14 t1) Red 3) by (vm_compute; by split_and!).
  assert (H3 : delete_unlink (Some 1%positive) set14
               = Ok ((x0, Some 1%positive), set14_unlinked)) by (by vm_compute).
  assert (H4 : load (Some 1%positive) set14_unlinked = Ok (y1, set14_unlinked))
    by (by vm_compute).
  assert (H5 : color y1 = Black) by done.
  assert (Hc1 : deleteFixup_cond x0 set14_unlinked = Ok (true, set14_unlinked))
    by (by vm_compute).
  assert (Hb1 : deleteFixup_body x0 (parent y1) set14_unlinked
                = Ok ((x2, p2), set14_second)) by (by vm_compute).
  assert (H6 : dfix_iter set14_unlinked x0 (parent y1) set14_second x2 p2).
  { exact (dfix_iter_next _ _ _ _ _ _ _ _ _ (dfix_iter_start _ _ _) Hc1 Hb1). }
  assert (H7 : deleteFixup_cond x2 set14_second = Ok (true, set14_second))
    by (by vm_compute).
  do 7 (split; [assumption|]).
  exact (deleteFixup_sibling_non_nil zcmp ctx14 1%positive Black E (Some 1) E 3
           set14 set14_unlinked set14_second (x0, Some 1%positive) y1
           x2 p2 H1 H2 H3 H4 H5 H6 H7).
Defined.

(** C9, the reading the code does not have.  The first key inserted
    into a fresh set is stored as given, nil included; the cursor [Begin]
    returns is then on a node, [Valid] is true, and [Value] is nil. *)
Lemma Value_nil_at_valid_cursor :
  run (Insert zcmp None) NewSet (fun b s =>
    b = true /\
    run Begin s (fun it s' =>
      is_some (node it) = true /\
      Valid it s' = Ok (true, s') /\ Value it s' = Ok (None, s'))).
Proof. vm_compute. by split_and!. Qed.

(** ** The further theorems at these states *)

Definition ops_example : list (Op (V:=Z)) :=
  [OpInsert (Some 10); OpInsert (Some 20); OpInsert (Some 10); OpInsert (Some 5);
   OpRemove (Some 7); OpRemove (Some 10); OpInsert None; OpClear;
   OpInsert (Some 3); OpInsert (Some 1); OpInsert (Some 2)].

Ltac zcmp_laws := first [exact zcmp_antisym | exact zcmp_trans | exact zcmp_eq_lt].

Lemma Repr_set4 : Repr set4 tree4.
Proof. apply WF_set4. Qed.

Lemma set_refines_sorted_list_witness :
  run (do_ops_results zcmp ops_example) NewSet (fun bs s =>
    exists t, Repr s t /\ (bs, inorder t) = model_ops zcmp ops_example []).
Proof. apply set_refines_sorted_list; zcmp_laws. Defined.

Lemma Contains_after_ops_witness :
  run (do_ops_results zcmp ops_example) NewSet (fun _ s =>
    run (Contains zcmp (Some 2)) s (fun b s' =>
      s' = s /\ b = list_mem zcmp (Some 2) (snd (model_ops zcmp ops_example [])))).
Proof. apply Contains_after_ops; zcmp_laws. Defined.

Lemma traversal_after_ops_witness :
  run (do_ops_results zcmp ops_example) NewSet (fun _ s =>
    run to_list s (fun fwd s1 =>
      run to_rlist s1 (fun bwd s2 =>
        fwd = snd (model_ops zcmp ops_example []) /\ bwd = rev fwd /\ sorted zcmp fwd
        /\ s1 = s /\ s2 = s))).
Proof. apply traversal_after_ops; zcmp_laws. Defined.

Lemma Size_after_ops_witness :
  Z.of_nat (length ops_example) < 2 ^ 63 /\
  run (do_ops_results zcmp ops_example) NewSet (fun _ s =>
    Size s = Ok (Z.of_nat (length (snd (model_ops zcmp ops_example []))), s) /\
    exists e, IsEmpty s = Ok (e, s) /\
      (e = true <-> snd (model_ops zcmp ops_example []) = []) /\
      run Begin s (fun it s' => Valid it s' = Ok (negb e, s'))).
Proof.
  assert (Hlen : Z.of_nat (length ops_example) < 2 ^ 63) by (simpl; lia).
  split; [exact Hlen|]. apply Size_after_ops; first [zcmp_laws|exact Hlen].
Defined.

Lemma cursor_moves_in_order_witness :
  Repr set4 tree4 /\
  nodes tree4 = [(3%positive, Some 5)] ++ (1%positive, Some 10)
                  :: [(4%positive, Some 15); (2%positive, Some 20)] /\
  Value (mkIter (Some 1%positive) true) set4 = Ok (Some 10, set4) /\
  Next (mkIter (Some 1%positive) true) set4
    = Ok (moved (if true then last [(3%positive, Some 5)]
                 else head [(4%positive, Some 15); (2%positive, Some 20)]) true, set4) /\
  Prev (mkIter (Some 1%positive) true) set4
    = Ok (moved (if true then head [(4%positive, Some 15); (2%positive, Some 20)]
                 else last [(3%positive, Some 5)]) true, set4).
Proof.
  assert (Hn : nodes tree4 = [(3%positive, Some 5)] ++ (1%positive, Some 10)
                 :: [(4%positive, Some 15); (2%positive, Some 20)]) by reflexivity.
  split; [exact Repr_set4|]. split; [exact Hn|].
  exact (cursor_moves_in_order zcmp set4 tree4 _ _ _ _ true Repr_set4 Hn).
Defined.

Lemma addr1_in_tree4 : 1%positive ∈ addrs tree4.
Proof. simpl. by left. Qed.

Lemma Next_Prev_inverse_witness :
  Repr set4 tree4 /\ 1%positive ∈ addrs tree4 /\
  (run (Next (mkIter (Some 1%positive) false)) set4 (fun bi s1 =>
     fst bi = true ->
     Prev (snd bi) s1 = Ok ((true, mkIter (Some 1%positive) false), s1)) /\
   run (Prev (mkIter (Some 1%positive) false)) set4 (fun bi s1 =>
     fst bi = true ->
     Next (snd bi) s1 = Ok ((true, mkIter (Some 1%positive) false), s1))).
Proof.
  split; [exact Repr_set4|]. split; [exact addr1_in_tree4|].
  exact (Next_Prev_inverse zcmp set4 tree4 1%positive false Repr_set4 addr1_in_tree4).
Defined.

Lemma Next_nearest_key_witness :
  WF zcmp set4 tree4 /\ 1%positive ∈ addrs tree4 /\
  exists k, Value (mkIter (Some 1%positive) true) set4 = Ok (k, set4) /\
    k ∈ inorder tree4 /\
    run (Next (mkIter (Some 1%positive) true)) set4 (fun bi s' =>
      s' = set4 /\ reverse (snd bi) = true /\
      if fst bi then
        exists k', Value (snd bi) set4 = Ok (k', set4) /\ k' ∈ inorder tree4 /\
          ahead zcmp true k k' /\
          forall x, x ∈ inorder tree4 -> ahead zcmp true k x -> ~ ahead zcmp true x k'
      else node (snd bi) = None /\
           forall x, x ∈ inorder tree4 -> ~ ahead zcmp true k x).
Proof.
  split; [exact WF_set4|]. split; [exact addr1_in_tree4|].
  apply Next_nearest_key; first [zcmp_laws|exact WF_set4|exact addr1_in_tree4].
Defined.

Lemma Begin_RBegin_extrema_witness :
  WF zcmp set4 tree4 /\
  (run Begin set4 (fun it s' =>
     s' = set4 /\ reverse it = false /\
     if node it is Some _ then
       exists k, Value it set4 = Ok (k, set4) /\ k ∈ inorder tree4 /\
                 forall x, x ∈ inorder tree4 -> zcmp k x <= 0
     else inorder tree4 = []) /\
   run RBegin set4 (fun it s' =>
     s' = set4 /\ reverse it = true /\
     if node it is Some _ then
       exists k, Value it set4 = Ok (k, set4) /\ k ∈ inorder tree4 /\
                 forall x, x ∈ inorder tree4 -> zcmp x k <= 0
     else inorder tree4 = [])).
Proof.
  split; [exact WF_set4|].
  apply Begin_RBegin_extrema; first [zcmp_laws|exact WF_set4].
Defined.

Lemma tree4_not_E : tree4 <> E.
Proof. done. Qed.

Lemma Prev_traversal_witness :
  Repr set4 tree4 /\ tree4 <> E /\
  (run to_list_back set4 (fun ks s' => s' = set4 /\ ks = rev (inorder tree4)) /\
   run to_rlist_back set4 (fun ks s' => s' = set4 /\ ks = inorder tree4)).
Proof.
  split; [exact Repr_set4|]. split; [exact tree4_not_E|].
  exact (Prev_traversal zcmp set4 tree4 Repr_set4 tree4_not_E).
Defined.

Lemma rotate_round_trip_witness :
  let a := T 3%positive Black E (Some 5) E in
  let b := T 4%positive Red E (Some 15) E in
  Repr set4 (plug [] (T 1%positive Black a (Some 10) (T 2%positive Black b (Some 20) E))) /\
  run (leftRotate (Some 1%positive)) set4 (fun _ s1 =>
    Repr s1 (plug [] (T 2%positive Black (T 1%positive Black a (Some 10) b) (Some 20) E)) /\
    inorder (plug [] (T 2%positive Black (T 1%positive Black a (Some 10) b) (Some 20) E))
      = inorder (plug [] (T 1%positive Black a (Some 10) (T 2%positive Black b (Some 20) E))) /\
    size s1 = size set4 /\
    run (rightRotate (Some 2%positive)) s1 (fun _ s2 =>
      Repr s2 (plug [] (T 1%positive Black a (Some 10) (T 2%positive Black b (Some 20) E)))
      /\ size s2 = size set4)).
Proof.
  intros a b. split; [exact Repr_set4|].
  exact (rotate_round_trip zcmp set4 [] 1%positive Black a (Some 10) 2%positive Black b
           (Some 20) E Repr_set4).
Defined.

Lemma rotate_nil_child_panics_witness :
  let n := mkNode (Some 5) Black None None (Some 1%positive) in
  heap set4 !! 3%positive = Some n /\
  (right n = None -> leftRotate (Some 3%positive) set4 = Panic) /\
  (left n = None -> rightRotate (Some 3%positive) set4 = Panic).
Proof.
  intros n.
  assert (Hn : heap set4 !! 3%positive = Some n) by (by vm_compute).
  split; [exact Hn|]. exact (rotate_nil_child_panics set4 3%positive n Hn).
Defined.

Lemma height_logarithmic_witness :
  run (do_ops_results zcmp ops_example) NewSet (fun _ s =>
    exists t, Repr s t /\ inorder t = snd (model_ops zcmp ops_example []) /\
      (height t <= 2 * Nat.log2 (S (length (inorder t))))%nat).
Proof. apply height_logarithmic; zcmp_laws. Defined.

Lemma Contains_logarithmic_witness :
  run (do_ops_results zcmp ops_example) NewSet (fun _ s =>
    run (bind get_root (fun r =>
           Contains_loop zcmp
             (S (2 * Nat.log2 (S (length (snd (model_ops zcmp ops_example []))))))
             (Some 2) r))
      s (fun b s' =>
           s' = s /\ b = list_mem zcmp (Some 2) (snd (model_ops zcmp ops_example [])))).
Proof. apply Contains_logarithmic; zcmp_laws. Defined.

Lemma no_key_7 : ~ has_key zcmp (Some 7) (inorder tree4).
Proof.
  intros (k & Hk & Hc). simpl in Hk. rewrite !elem_of_cons, elem_of_nil in Hk.
  destruct_or?; subst; simpl in Hc; try lia; done.
Qed.

Lemma has_key_10 : has_key zcmp (Some 10) (inorder tree4).
Proof. exists (Some 10). split; [|done]. simpl. right. by left. Qed.

Lemma Insert_then_Remove_witness :
  WF zcmp set4 tree4 /\ ~ has_key zcmp (Some 7) (inorder tree4) /\
  run (Insert zcmp (Some 7)) set4 (fun b1 s1 =>
    b1 = true /\
    run (Remove zcmp (Some 7)) s1 (fun b2 s2 =>
      b2 = true /\
      exists t2, WF zcmp s2 t2 /\ inorder t2 = inorder tree4 /\ size s2 = size set4)).
Proof.
  split; [exact WF_set4|]. split; [exact no_key_7|].
  apply Insert_then_Remove; first [zcmp_laws|exact WF_set4|exact no_key_7].
Defined.

Lemma Remove_then_Insert_witness :
  WF zcmp set4 tree4 /\ has_key zcmp (Some 10) (inorder tree4) /\
  run (Remove zcmp (Some 10)) set4 (fun b1 s1 =>
    b1 = true /\
    run (Insert zcmp (Some 10)) s1 (fun b2 s2 =>
      b2 = true /\
      exists t2 l1 kz l2,
        WF zcmp s2 t2 /\ inorder tree4 = l1 ++ kz :: l2 /\ zcmp (Some 10) kz = 0 /\
        inorder t2 = l1 ++ Some 10 :: l2 /\ size s2 = size set4)).
Proof.
  split; [exact WF_set4|]. split; [exact has_key_10|].
  apply Remove_then_Insert; first [zcmp_laws|exact WF_set4|exact has_key_10].
Defined.

Lemma links_consistent_witness :
  run (do_ops zcmp ops_example) NewSet (fun _ s =>
    forall a, reach s a -> linked s a).
Proof. apply links_consistent; zcmp_laws. Defined.

Lemma empty_set_no_comparison_witness :
  root (NewSet (V:=Z)) = None /\
  Insert zcmp (Some 1) NewSet
    = Ok (true, mkSet (<[fresh (dom (heap (NewSet (V:=Z))))
                         := mkNode (Some 1) Black None None None]> (heap NewSet))
                      (Some (fresh (dom (heap (NewSet (V:=Z))))))
                      (wrap64 (size (NewSet (V:=Z)) + 1))) /\
  Contains zcmp (Some 1) NewSet = Ok (false, NewSet) /\
  Remove zcmp (Some 1) NewSet = Ok (false, NewSet).
Proof.
  split; [reflexivity|].
  exact (empty_set_no_comparison zcmp NewSet (Some 1) eq_refl).
Defined.

Lemma Insert_keeps_Value_witness :
  WF zcmp set4 tree4 /\
  Value (mkIter (Some 3%positive) false) set4 = Ok (Some 5, set4) /\
  run (Insert zcmp (Some 7)) set4 (fun _ s' =>
    Value (mkIter (Some 3%positive) false) s' = Ok (Some 5, s')).
Proof.
  assert (Hv : Value (mkIter (Some 3%positive) false) set4 = Ok (Some 5, set4))
    by (by vm_compute).
  split; [exact WF_set4|]. split; [exact Hv|].
  eapply (Insert_keeps_Value zcmp); first [zcmp_laws|exact WF_set4|exact Hv].
Defined.
